(** * Castability, adjustable heap and min-cost flow: a shallow embedding

    The Python sources [adjustable_heap.py], [mtg.py] and [mcf.py] are
    embedded function by function.  Python integers are [Z], list positions
    are [nat], a [Counter] is a [gmap Z Z] read through [get] with default
    [0], and mutable objects that can be shared (counters, lists of cards,
    heap handles, flow edges) live in explicit stores.  Exceptions and
    loops are modelled by the [result] monad below. *)

From Stdlib Require Import ZArith List Bool Lia Sorted.
From stdpp Require Import base option list gmap strings.

Local Open Scope Z_scope.

(** ** Outcomes of running Python code *)

Inductive exn : Type :=
| IndexError
| KeyError
| TypeError
| ReferenceError
| Exception (msg : string).

(** [Ok a]: the code returned [a]; [Raised e]: it raised [e];
    [Timeout]: the loop budget of the model ran out. *)
Inductive result (A : Type) : Type :=
| Ok (a : A)
| Raised (e : exn)
| Timeout.

Arguments Ok {A} a.
Arguments Raised {A} e.
Arguments Timeout {A}.

#[export] Instance result_ret : MRet result := fun A a => Ok a.
#[export] Instance result_bind : MBind result := fun A B f m =>
  match m with
  | Ok a => f a
  | Raised e => Raised e
  | Timeout => Timeout
  end.

(** [l[i]] on a Python list: negative positions count from the end, and a
    position outside the list raises [IndexError]. *)
Definition py_index {A} (l : list A) (i : Z) : result nat :=
  let n := Z.of_nat (length l) in
  if (0 <=? i) && (i <? n) then Ok (Z.to_nat i)
  else if (- n <=? i) && (i <? 0) then Ok (Z.to_nat (i + n))
  else Raised IndexError.

Definition getitem {A} (l : list A) (i : Z) : result A :=
  k ← py_index l i;
  match l !! k with
  | Some a => Ok a
  | None => Raised IndexError
  end.

Definition setitem {A} (l : list A) (i : Z) (a : A) : result (list A) :=
  k ← py_index l i; Ok (<[k := a]> l).

(** [l[i]] and [l[i] = a] at a position that is known to be non-negative. *)
Definition nth_item {A} (l : list A) (i : nat) : result A :=
  match l !! i with
  | Some a => Ok a
  | None => Raised IndexError
  end.

Definition set_nth_item {A} (l : list A) (i : nat) (a : A) : result (list A) :=
  if (i <? length l)%nat then Ok (<[i := a]> l) else Raised IndexError.

(** [range(n)] *)
Definition range (n : nat) : list Z := map Z.of_nat (seq 0 n).

(** ** [adjustable_heap.py] *)

Module Heap.

(** A handle is a reference to an [AdjustableHeapKey] object.  The heap
    array holds handles, the client holds handles, and the objects they
    name live in [objects]: an assignment to [key.index] is seen through
    every copy of the handle. *)
Abbreviation handle := nat.

Section AdjustableHeap.
Context {TK TV : Type}.
(** [key_func], the identity when the constructor is given none *)
Variable key_func : TV -> TK.
(** Python's [<] on comparison keys *)
Variable lt : TK -> TK -> bool.

Record AdjustableHeapKey : Type := mkKey {
  val : TV;
  comp_key : TK;
  index : nat
}.

Record AdjustableHeap : Type := mkHeap {
  heap : list handle;
  objects : list AdjustableHeapKey
}.

(** [AdjustableHeap(key_func)] *)
Definition empty : AdjustableHeap := mkHeap [] [].

Definition deref (objs : list AdjustableHeapKey) (k : handle)
  : result AdjustableHeapKey :=
  match objs !! k with
  | Some o => Ok o
  | None => Raised ReferenceError
  end.

(** [k.index = i] *)
Definition set_index (objs : list AdjustableHeapKey) (k : handle) (i : nat)
  : result (list AdjustableHeapKey) :=
  o ← deref objs k;
  Ok (<[k := mkKey (val o) (comp_key o) i]> objs).

(** [(index + 1) // 2 - 1], for [index > 0] *)
Definition parent_of (index : nat) : nat := ((index + 1) / 2 - 1)%nat.

(** First loop of [_adjust]: bubble [key] up from [index]. *)
Fixpoint bubble_up (fuel : nat) (h : AdjustableHeap) (key : handle)
    (index : nat) : result (AdjustableHeap * nat) :=
  match fuel with
  | O => Timeout
  | S fuel' =>
      if (0 <? index)%nat then
        let parent_index := parent_of index in
        parent ← nth_item (heap h) parent_index;
        k ← deref (objects h) key;
        p ← deref (objects h) parent;
        if negb (lt (comp_key k) (comp_key p)) then Ok (h, index)
        else
          hp ← set_nth_item (heap h) index parent;
          objs ← set_index (objects h) parent index;
          bubble_up fuel' (mkHeap hp objs) key parent_index
      else Ok (h, index)
  end.

(** [min((ind for ind in (2i+1, 2i+2) if ind < len(heap)), key=...)],
    called when [2i+1 < len(heap)]: the right child wins only when its
    key is strictly smaller. *)
Definition min_child (h : AdjustableHeap) (index : nat) : result nat :=
  let l := (index * 2 + 1)%nat in
  let r := (index * 2 + 2)%nat in
  if (r <? length (heap h))%nat then
    hl ← nth_item (heap h) l;
    ol ← deref (objects h) hl;
    hr ← nth_item (heap h) r;
    or ← deref (objects h) hr;
    Ok (if lt (comp_key or) (comp_key ol) then r else l)
  else Ok l.

(** Second loop of [_adjust]: bubble [key] down from [index]. *)
Fixpoint bubble_down (fuel : nat) (h : AdjustableHeap) (key : handle)
    (index : nat) : result (AdjustableHeap * nat) :=
  match fuel with
  | O => Timeout
  | S fuel' =>
      if (2 * index + 1 <? length (heap h))%nat then
        min_index ← min_child h index;
        k ← deref (objects h) key;
        hm ← nth_item (heap h) min_index;
        m ← deref (objects h) hm;
        if lt (comp_key k) (comp_key m) then Ok (h, index)
        else
          hp ← set_nth_item (heap h) index hm;
          moved ← nth_item hp index;
          objs ← set_index (objects h) moved index;
          bubble_down fuel' (mkHeap hp objs) key min_index
      else Ok (h, index)
  end.

(** [_adjust(key)].  The first loop strictly decreases [index] and the
    second strictly increases it below [len(heap)], which gives the
    loop budgets. *)
Definition _adjust (h : AdjustableHeap) (key : handle) : result AdjustableHeap :=
  k ← deref (objects h) key;
  '(h1, i1) ← bubble_up (S (index k)) h key (index k);
  '(h2, i2) ← bubble_down (S (length (heap h1))) h1 key i1;
  hp ← set_nth_item (heap h2) i2 key;
  objs ← set_index (objects h2) key i2;
  Ok (mkHeap hp objs).

Definition push (h : AdjustableHeap) (v : TV) : result (AdjustableHeap * handle) :=
  let comp := key_func v in
  let key := length (objects h) in
  let h1 := mkHeap (heap h ++ [key])
                   (objects h ++ [mkKey v comp (length (heap h))]) in
  h2 ← _adjust h1 key;
  Ok (h2, key).

Definition pop (h : AdjustableHeap) : result (AdjustableHeap * TV) :=
  top ← nth_item (heap h) 0;
  otop ← deref (objects h) top;
  let res := val otop in
  if (length (heap h) =? 1)%nat then Ok (mkHeap [] (objects h), res)
  else
    last_key ← nth_item (heap h) (length (heap h) - 1);
    hp ← set_nth_item (removelast (heap h)) 0 last_key;
    first ← nth_item hp 0;
    objs ← set_index (objects h) first 0;
    first' ← nth_item hp 0;
    h' ← _adjust (mkHeap hp objs) first';
    Ok (h', res).

Definition peek (h : AdjustableHeap) : result TV :=
  top ← nth_item (heap h) 0;
  otop ← deref (objects h) top;
  Ok (val otop).

Definition adjust_key (h : AdjustableHeap) (key : handle) (v : TV)
  : result AdjustableHeap :=
  o ← deref (objects h) key;
  let objs := <[key := mkKey v (key_func v) (index o)]> (objects h) in
  _adjust (mkHeap (heap h) objs) key.

Definition remove (h : AdjustableHeap) (key : handle) : result AdjustableHeap :=
  match last (heap h) with
  | None => Raised IndexError
  | Some last_key =>
      let hp := removelast (heap h) in
      if (last_key =? key)%nat then Ok (mkHeap hp (objects h))
      else
        k ← deref (objects h) key;
        hp' ← set_nth_item hp (index k) last_key;
        objs ← set_index (objects h) last_key (index k);
        _adjust (mkHeap hp' objs) last_key
  end.

(** [__len__] and [__bool__] *)
Definition len (h : AdjustableHeap) : nat := length (heap h).
Definition nonempty (h : AdjustableHeap) : bool := negb (len h =? 0)%nat.

End AdjustableHeap.

Arguments AdjustableHeapKey : clear implicits.
Arguments AdjustableHeap : clear implicits.
Arguments mkKey {TK TV}.
Arguments mkHeap {TK TV}.
Arguments empty {TK TV}.

End Heap.

(** ** [mtg.py]: colour bitsets and the Moebius oracle *)

Module Mtg.

(** [COLORS = "WUBRG"] *)
Definition COLORS : string := "WUBRG".
Definition len_COLORS : nat := String.length COLORS.
Definition ALL_COLORS_SET : Z := 2 ^ Z.of_nat len_COLORS - 1.
(** [sum(2 ** COLOR_TO_INDEX[col] for col in "WBR")], with W = 0, B = 2, R = 3 *)
Definition MARDU_COLOR_SET : Z := 2 ^ 0 + 2 ^ 2 + 2 ^ 3.

(** A [collections.Counter] keyed by colour bitsets. *)
Abbreviation Counter := (gmap Z Z).

(** [freq.get(k, 0)], which is also [freq[k]] on a [Counter]. *)
Definition get (freq : Counter) (k : Z) : Z := default 0 (freq !! k).

(** [freq[k] += n] *)
Definition incr (freq : Counter) (k n : Z) : Counter :=
  <[k := get freq k + n]> freq.

(** The [while True] loop of [lower_mobius_transform]; [st] strictly
    decreases, so [fuel] bounds the number of rounds. *)
Fixpoint mobius_sweep (fuel : nat) (col iter_st st : Z) (res : list Z)
  : result (list Z) :=
  match fuel with
  | O => Timeout
  | S fuel' =>
      a ← getitem res (Z.lor st col);
      b ← getitem res st;
      res' ← setitem res (Z.lor st col) (a + b);
      if st =? 0 then Ok res'
      else mobius_sweep fuel' col iter_st (Z.land (st - 1) iter_st) res'
  end.

Definition mobius_color (res : list Z) (index : Z) : result (list Z) :=
  let col := 2 ^ index in
  let iter_st := Z.lxor ALL_COLORS_SET col in
  mobius_sweep (S (Z.to_nat iter_st)) col iter_st iter_st res.

Fixpoint mobius_colors (indices : list Z) (res : list Z) : result (list Z) :=
  match indices with
  | [] => Ok res
  | index :: rest => res' ← mobius_color res index; mobius_colors rest res'
  end.

Definition lower_mobius_transform (freq : Counter) : result (list Z) :=
  let res := map (get freq) (range (2 ^ len_COLORS)) in
  mobius_colors (range len_COLORS) res.

(** [all(c + offset <= total_lands - g for c, g in zip(cost_g, land_g[::-1]))] *)
Definition hall_check (offset total_lands : Z) (cost_g land_g : list Z) : bool :=
  forallb (fun cg : Z * Z => cg.1 + offset <=? total_lands - cg.2)
          (zip cost_g (rev land_g)).

Definition can_cast_simple (cost lands : Counter) (offset : Z) : result bool :=
  cost_g ← lower_mobius_transform cost;
  land_g ← lower_mobius_transform lands;
  land_g ← setitem land_g 0 0;
  total_lands ← getitem land_g ALL_COLORS_SET;
  Ok (hall_check offset total_lands cost_g land_g).

(** *** Cards and the object store *)

Inductive LandTypes : Type :=
| BASIC | SHOCK | SCRY | TAP_DUAL | ADAMANT | CASTLE | COLORLESS
| FABLED_PASSAGE | BEACON | TAP_TRI | LOTUS | EVOLVING_WILDS
| GATEWAY_PLAZA | FILTERING | COMMAND_TOWER | TOURNAMENT_GROUNDS
| PLAZA_OF_HARMONY | GUILDGATE.

#[export] Instance LandTypes_eq_dec : EqDecision LandTypes.
Proof. solve_decision. Defined.

Definition SIMPLE_LAND_TYPES : list LandTypes :=
  [BASIC; ADAMANT; CASTLE; SHOCK; SCRY; TAP_DUAL; GUILDGATE; TAP_TRI; COLORLESS].

(** References to mutable Python objects. *)
Abbreviation loc := nat.

(** The attributes of a [Card] that [can_cast] reads.  [cost] refers to
    the card's [Counter] ([None] when the card has no mana cost) and
    [land_type] is [None] on a card that is not a land. *)
Record Card : Type := mkCard {
  name : string;
  types : list string;
  subtypes : list string;
  cost : option loc;
  land_type : option LandTypes;
  color_identity_set : Z
}.

Inductive pyobj : Type :=
| OCounter (c : Counter)
| OList (items : list loc)
| OCard (c : Card).

Abbreviation store := (list pyobj).

(** Code that reads and writes the store.  The store is returned whatever
    the outcome: what was written before an exception stays written. *)
Definition M (A : Type) : Type := store -> result A * store.

#[export] Instance M_ret : MRet M := fun A a s => (Ok a, s).
#[export] Instance M_bind : MBind M := fun A B f m s =>
  match m s with
  | (Ok a, s') => f a s'
  | (Raised e, s') => (Raised e, s')
  | (Timeout, s') => (Timeout, s')
  end.

Definition lift {A} (r : result A) : M A := fun s => (r, s).
Definition throw {A} (e : exn) : M A := lift (Raised e).

Definition alloc (o : pyobj) : M loc := fun s => (Ok (length s), s ++ [o]).

Definition read (l : loc) : M pyobj := fun s =>
  match s !! l with
  | Some o => (Ok o, s)
  | None => (Raised ReferenceError, s)
  end.

Definition write (l : loc) (o : pyobj) : M unit := fun s =>
  if (l <? length s)%nat then (Ok tt, <[l := o]> s)
  else (Raised ReferenceError, s).

Definition read_counter (l : loc) : M Counter :=
  o ← read l;
  match o with OCounter c => mret c | _ => throw TypeError end.

Definition read_list (l : loc) : M (list loc) :=
  o ← read l;
  match o with OList items => mret items | _ => throw TypeError end.

Definition read_card (l : loc) : M Card :=
  o ← read l;
  match o with OCard c => mret c | _ => throw TypeError end.

(** [c[k] += n] on the counter at [l] *)
Definition counter_incr (l : loc) (k n : Z) : M unit :=
  c ← read_counter l; write l (OCounter (incr c k n)).

(** [del c[k]] *)
Definition counter_del (l : loc) (k : Z) : M unit :=
  c ← read_counter l;
  match c !! k with
  | Some _ => write l (OCounter (delete k c))
  | None => throw KeyError
  end.

(** [collections.Counter(c)]: a new counter with the items of [c] *)
Definition counter_copy (l : loc) : M loc :=
  c ← read_counter l; alloc (OCounter c).

(** [lst.append(x)] *)
Definition list_append (l : loc) (x : loc) : M unit :=
  items ← read_list l; write l (OList (items ++ [x])).

(** A [for] loop over a list of values. *)
Fixpoint for_each {A} (xs : list A) (body : A -> M unit) : M unit :=
  match xs with
  | [] => mret tt
  | x :: rest => body x;; for_each rest body
  end.

(** A [for] loop that also updates local variables of type [S]. *)
Fixpoint for_fold {A S} (xs : list A) (body : S -> A -> M S) (acc : S) : M S :=
  match xs with
  | [] => mret acc
  | x :: rest => acc' ← body acc x; for_fold rest body acc'
  end.

(** [s in strs] *)
Definition str_in (s : string) (strs : list string) : bool :=
  existsb (String.eqb s) strs.

(** [can_cast_simple] called on two counter objects, which it only reads. *)
Definition can_cast_simple_at (cost lands : loc) (offset : Z) : M bool :=
  c ← read_counter cost;
  l ← read_counter lands;
  lift (can_cast_simple c l offset).

(** *** [can_cast]: preprocessing *)

(** Lines 141-144: the copy of [spell.cost] and the expansion of [X]. *)
Definition copy_cost (spell : loc) (X : Z) : M loc :=
  sp ← read_card spell;
  cost ← match Mtg.cost sp with
         | Some c => counter_copy c
         | None => alloc (OCounter ∅)
         end;
  c ← read_counter cost;
  (if negb (get c 0 =? 0) then
     counter_incr cost ALL_COLORS_SET (get c 0 * X);;
     counter_del cost 0
   else mret tt);;
  mret cost.

(** The body of the loop of lines 151-177.  The locals [plaza_count] and
    [gate_colors] are threaded as a pair. *)
Definition bucket_land (spell simple_lands other_lands : loc)
    (acc : Z * Z) (land_ref : loc) : M (Z * Z) :=
  let '(plaza_count, gate_colors) := acc in
  land ← read_card land_ref;
  let has t := bool_decide (land_type land = Some t) in
  if has FABLED_PASSAGE || has EVOLVING_WILDS then mret acc
  else if existsb has SIMPLE_LAND_TYPES then
    let gate_colors' :=
      if has GUILDGATE then Z.lor gate_colors (color_identity_set land)
      else gate_colors in
    counter_incr simple_lands (color_identity_set land) 1;;
    mret (plaza_count, gate_colors')
  else if has GATEWAY_PLAZA then
    counter_incr simple_lands ALL_COLORS_SET 1;;
    mret (plaza_count, ALL_COLORS_SET)
  else if has COMMAND_TOWER then
    counter_incr simple_lands ALL_COLORS_SET 1;;
    mret acc
  else if has TOURNAMENT_GROUNDS then
    sp ← read_card spell;
    (if str_in "Equipment" (subtypes sp) || str_in "Knight" (subtypes sp)
     then counter_incr simple_lands MARDU_COLOR_SET 1
     else counter_incr simple_lands 0 1);;
    mret acc
  else if has PLAZA_OF_HARMONY then
    mret (plaza_count + 1, gate_colors)
  else if has BEACON then
    sp ← read_card spell;
    (if str_in "Planeswalker" (types sp)
     then list_append other_lands land_ref
     else counter_incr simple_lands 0 1);;
    mret acc
  else
    list_append other_lands land_ref;;
    mret acc.

(** Lines 147-179.  The loop body appends only to [other_lands], a list
    made here, so the items of [lands] are read once. *)
Definition bucket_lands (spell lands : loc) : M (loc * loc) :=
  simple_lands ← alloc (OCounter ∅);
  other_lands ← alloc (OList []);
  items ← read_list lands;
  '(plaza_count, gate_colors) ←
    for_fold items (bucket_land spell simple_lands other_lands) (0, 0);
  (if negb (plaza_count =? 0)
   then counter_incr simple_lands gate_colors plaza_count
   else mret tt);;
  mret (simple_lands, other_lands).

(** The body of the loop of lines 198-207. *)
Definition optimistic_land (optimistic_cost optimistic_lands : loc)
    (land_ref : loc) : M unit :=
  land ← read_card land_ref;
  let has t := bool_decide (land_type land = Some t) in
  if has BEACON then
    counter_incr optimistic_cost ALL_COLORS_SET 1;;
    counter_incr optimistic_lands ALL_COLORS_SET 2
  else if has LOTUS then counter_incr optimistic_lands ALL_COLORS_SET 3
  else if has FILTERING then counter_incr optimistic_lands ALL_COLORS_SET 1
  else throw (Exception "Unsupported land type").

(** Lines 196-209: the optimistic check. *)
Definition optimistic_check (cost simple_lands other_lands : loc) : M bool :=
  optimistic_cost ← counter_copy cost;
  optimistic_lands ← counter_copy simple_lands;
  items ← read_list other_lands;
  for_each items (optimistic_land optimistic_cost optimistic_lands);;
  can_cast_simple_at optimistic_cost optimistic_lands 0.

(** *** [can_cast]: the search *)

(** [sum(xs)] *)
Definition sum (xs : list Z) : Z := foldl Z.add 0 xs.

(** [<] on the 3-tuples used as heap keys: the first differing
    component decides. *)
Definition tuple_lt (a b : Z * Z * Z) : bool :=
  let '(a1, a2, a3) := a in
  let '(b1, b2, b3) := b in
  if negb (a1 =? b1) then a1 <? b1
  else if negb (a2 =? b2) then a2 <? b2
  else a3 <? b3.

Record SearchState : Type := mkState {
  colors : list Z;
  filter_colors : list Z;
  total : Z;
  filter_total : Z;
  filter_cost : Z;
  land_index : Z;
  huer_dist : Z * Z * Z
}.

(** The tuple returned by [SearchState._ident]. *)
Abbreviation ident := (Z * Z * Z * Z * list Z * list Z)%type.

Definition _ident (self : SearchState) : ident :=
  (land_index self, total self, filter_total self, filter_cost self,
   colors self, filter_colors self).

Section Search.
(** The variables of [can_cast] that the class [SearchState] and the
    loop close over. *)
Variable max_colors : list Z.
Variable total_cost : Z.

(** [SearchState.__init__] *)
Definition SearchState_init (colors filter_colors : option (list Z))
    (total filter_total filter_cost land_index : Z) : SearchState :=
  let fcs :=
    match filter_colors with
    | None => replicate len_COLORS 0
    | Some fcs => zip_with Z.min fcs max_colors
    end in
  let cs :=
    match colors with
    | None => replicate len_COLORS 0
    | Some cs =>
        zip_with (fun col fm => Z.min col (fm.2 - fm.1)) cs (zip fcs max_colors)
    end in
  let ft := Z.min filter_total total_cost in
  let color_req := sum max_colors - sum fcs - sum cs in
  let total_req := total_cost - ft - total in
  mkState cs fcs total ft filter_cost land_index
          (Z.max color_req total_req + land_index + filter_cost, color_req, ft).

(** [sum(1 for col in cols if col == color)] *)
Definition count_color (cols : list Z) (color : Z) : Z :=
  sum (map (fun _ => 1) (List.filter (fun col => col =? color) cols)).

(** [SearchState.add]; the positional arguments are the list [cols]. *)
Definition SearchState_add (self : SearchState) (cols : list Z)
    (is_filtered : bool) (land_weight colorless filter_cost' : Z) : SearchState :=
  let n := Z.of_nat (length cols) + colorless in
  let normal_cols := if is_filtered then [] else cols in
  let filter_cols := if is_filtered then cols else [] in
  let normal_total := if is_filtered then 0 else n in
  let filter_total' := if is_filtered then n else 0 in
  SearchState_init
    (Some (imap (fun color cnt => cnt + count_color normal_cols (Z.of_nat color))
                (colors self)))
    (Some (imap (fun color cnt => cnt + count_color filter_cols (Z.of_nat color))
                (filter_colors self)))
    (total self + normal_total)
    (filter_total self + filter_total')
    (filter_cost self + filter_cost')
    (land_index self + land_weight).

Abbreviation queue := (Heap.AdjustableHeap (Z * Z * Z) SearchState).

(** [_try_queue(state)] on the locals [visited_states] and [queue] *)
Definition _try_queue (vq : gset ident * queue) (state : SearchState)
  : result (gset ident * queue) :=
  let '(visited_states, q) := vq in
  if bool_decide (_ident state ∈ visited_states) then Ok vq
  else
    '(q', _) ← Heap.push huer_dist tuple_lt q state;
    Ok ({[ _ident state ]} ∪ visited_states, q').

Fixpoint _try_queue_all (vq : gset ident * queue) (states : list SearchState)
  : result (gset ident * queue) :=
  match states with
  | [] => Ok vq
  | st :: rest => vq' ← _try_queue vq st; _try_queue_all vq' rest
  end.

(** The states handed to [_try_queue] for [land], in the order of the
    calls of lines 313-324. *)
Definition adjacent (land : Card) (state : SearchState) : list SearchState :=
  let has t := bool_decide (land_type land = Some t) in
  if has BEACON then
    SearchState_add state [] false 1 1 0
    :: flat_map (fun color_a =>
         map (fun color_b => SearchState_add state [color_a; color_b] true 1 0 1)
             (range (Z.to_nat color_a)))
         (range len_COLORS)
  else if has LOTUS then
    map (fun color => SearchState_add state [color; color; color] false 1 0 0)
        (range len_COLORS)
  else if has FILTERING then
    SearchState_add state [] false 1 1 0
    :: map (fun color => SearchState_add state [color] false 1 0 1)
           (range len_COLORS)
  else [].

(** Lines 288-304: can the spell be cast from [state]? *)
Definition state_solves (cost simple_lands : loc) (simple_land_count : Z)
    (state : SearchState) : M bool :=
  state_lands ← counter_copy simple_lands;
  state_filter_lands ← alloc (OCounter ∅);
  '(colored_mana, colored_filter_mana) ←
    for_fold (imap (fun col cf => (Z.of_nat col, cf))
                   (zip (colors state) (filter_colors state)))
      (fun (acc : Z * Z) (item : Z * (Z * Z)) =>
         let '(col, (cnt, filter_cnt)) := item in
         counter_incr state_lands (2 ^ col) (cnt + filter_cnt);;
         counter_incr state_filter_lands (2 ^ col) filter_cnt;;
         mret (acc.1 + (cnt + filter_cnt), acc.2 + filter_cnt))
      (0, 0);
  counter_incr state_lands 0 (filter_total state + total state - colored_mana);;
  counter_incr state_filter_lands 0 (filter_total state - colored_filter_mana);;
  ok ← can_cast_simple_at cost state_lands 0;
  if (ok : bool) then
    can_cast_simple_at cost state_filter_lands
      (filter_cost state - simple_land_count - total state)
  else mret false.

(** The [while queue] loop of lines 284-326; [fuel] bounds its rounds. *)
Fixpoint search (fuel : nat) (cost simple_lands other_lands : loc)
    (simple_land_count : Z) (vq : gset ident * queue) : M bool :=
  match fuel with
  | O => lift Timeout
  | S fuel' =>
      let '(visited_states, q) := vq in
      if Heap.nonempty q then
        '(q', state) ← lift (Heap.pop tuple_lt q);
        solved ← state_solves cost simple_lands simple_land_count state;
        if (solved : bool) then mret true
        else
          others ← read_list other_lands;
          if land_index state =? Z.of_nat (length others) then
            search fuel' cost simple_lands other_lands simple_land_count
                   (visited_states, q')
          else
            land_ref ← lift (getitem others (land_index state));
            land ← read_card land_ref;
            vq' ← lift (_try_queue_all (visited_states, q') (adjacent land state));
            search fuel' cost simple_lands other_lands simple_land_count vq'
      else mret false
  end.

End Search.

(** [sum(cnt for color_set, cnt in cost.items()
         if color_set != ALL_COLORS_SET and (2 ** color & color_set) != 0)] *)
Definition max_color (cost : Counter) (color : Z) : Z :=
  sum (map snd (List.filter
         (fun item : Z * Z =>
            negb (item.1 =? ALL_COLORS_SET) && negb (Z.land (2 ^ color) item.1 =? 0))
         (map_to_list cost))).

(** Insertion of [x] after the items whose key is not larger: the sort it
    gives is stable, as [list.sort] is. *)
Fixpoint insert_by_name (x : string * loc) (xs : list (string * loc))
  : list (string * loc) :=
  match xs with
  | [] => [x]
  | y :: rest =>
      if String.ltb x.1 y.1 then x :: y :: rest
      else y :: insert_by_name x rest
  end.

Definition sort_by_name (xs : list (string * loc)) : list (string * loc) :=
  foldl (fun sorted x => insert_by_name x sorted) [] xs.

(** [other_lands.sort(key=lambda card: card.name)] *)
Definition sort_lands (other_lands : loc) : M unit :=
  items ← read_list other_lands;
  keyed ← for_fold items
    (fun (acc : list (string * loc)) (r : loc) =>
       c ← read_card r; mret (acc ++ [(name c, r)])) [];
  write other_lands (OList (map snd (sort_by_name keyed))).

(** [can_cast(spell, lands, X)]; [fuel] bounds the rounds of the search. *)
Definition can_cast (fuel : nat) (spell lands : loc) (X : Z) : M bool :=
  cost ← copy_cost spell X;
  '(simple_lands, other_lands) ← bucket_lands spell lands;
  ok ← can_cast_simple_at cost simple_lands 0;
  if (ok : bool) then mret true
  else
    others ← read_list other_lands;
    if bool_decide (others = []) then mret false
    else
      optimistic ← optimistic_check cost simple_lands other_lands;
      if negb optimistic then mret false
      else
        c ← read_counter cost;
        let max_colors := map (max_color c) (range len_COLORS) in
        let total_cost := sum (map snd (map_to_list c)) in
        sl ← read_counter simple_lands;
        let simple_land_count := sum (map snd (map_to_list sl)) in
        sort_lands other_lands;;
        vq ← lift (_try_queue (∅, Heap.empty)
                     (SearchState_init max_colors total_cost None None 0 0 0 0));
        search max_colors total_cost fuel cost simple_lands other_lands
               simple_land_count vq.

End Mtg.

(** ** [mcf.py] *)

Module Mcf.

Abbreviation vertex := string.

Record Edge : Type := mkEdge {
  u : vertex;
  v : vertex;
  flow : Z;
  capacity : Z;
  cost : Z
}.

(** [Edge.directed_edge(u)]: the tuple [(v, capacity, cost)] seen from [from]. *)
Definition directed_edge (e : Edge) (from : vertex) : vertex * Z * Z :=
  if String.eqb (u e) from then (v e, capacity e - flow e, cost e)
  else (u e, flow e, - cost e).

(** [Edge.add_flow(u, flow)] *)
Definition Edge_add_flow (e : Edge) (from : vertex) (f : Z) : Edge :=
  if String.eqb (u e) from
  then mkEdge (u e) (v e) (flow e + f) (capacity e) (cost e)
  else mkEdge (u e) (v e) (flow e - f) (capacity e) (cost e).

(** References to [Edge] objects: an edge is listed under both of its end
    points and there is one object for both. *)
Abbreviation edge_ref := nat.

Record MinCostFlow : Type := mkGraph {
  edge_objects : list Edge;
  edges : gmap vertex (list edge_ref);
  potential : gmap vertex Z
}.

(** [MinCostFlow()] *)
Definition empty : MinCostFlow := mkGraph [] ∅ ∅.

(** [self.edges[x]] on the [defaultdict(list)] *)
Definition edges_at (g : MinCostFlow) (x : vertex) : list edge_ref :=
  default [] (edges g !! x).

(** [self.potential[x]] on the [Counter] *)
Definition potential_at (g : MinCostFlow) (x : vertex) : Z :=
  default 0 (potential g !! x).

Definition add_edge (g : MinCostFlow) (a b : vertex) (capacity cost : Z)
  : MinCostFlow :=
  let edge := length (edge_objects g) in
  let objs := edge_objects g ++ [mkEdge a b 0 capacity cost] in
  let es := <[a := edges_at g a ++ [edge]]> (edges g) in
  let es := <[b := default [] (es !! b) ++ [edge]]> es in
  mkGraph objs es (potential g).

Definition deref (objs : list Edge) (e : edge_ref) : result Edge :=
  match objs !! e with
  | Some o => Ok o
  | None => Raised ReferenceError
  end.

(** The items of the heap of one search: [(vertex, dist, flow)], where
    [flow] is [None] at the source of a search without bound. *)
Abbreviation item := (vertex * Z * option Z)%type.

(** [key_func=lambda x: x[1]] *)
Definition item_key (x : item) : Z := x.1.2.

Abbreviation frontier := (Heap.AdjustableHeap Z item).

(** The values of [dist]: [(dist, edge, flow, heap_key)]. *)
Abbreviation dist_entry := (Z * option nat * Z * nat)%type.

(** The body of [for edge in self.edges[u]] (lines 58-82). *)
Definition relax (g : MinCostFlow) (from : vertex) (dst : Z)
    (flow_cur : option Z) (st : frontier * gmap vertex dist_entry)
    (edge : edge_ref) : result (frontier * gmap vertex dist_entry) :=
  let '(heap, dist) := st in
  e ← deref (edge_objects g) edge;
  let '(to, cap, cost) := directed_edge e from in
  if cap =? 0 then Ok st
  else
    let new_dist := dst + cost + potential_at g from - potential_at g to in
    let new_flow := match flow_cur with
                    | None => cap
                    | Some f => Z.min f cap
                    end in
    match dist !! to with
    | None =>
        '(heap', key) ← Heap.push item_key Z.ltb heap (to, new_dist, Some new_flow);
        Ok (heap', <[to := (new_dist, Some edge, new_flow, key)]> dist)
    | Some v_dist =>
        if new_dist <? v_dist.1.1.1 then
          let heap_key := v_dist.2 in
          heap' ← Heap.adjust_key item_key Z.ltb heap heap_key
                    (to, new_dist, Some new_flow);
          Ok (heap', <[to := (new_dist, Some edge, new_flow, heap_key)]> dist)
        else Ok st
    end.

Fixpoint relax_all (g : MinCostFlow) (from : vertex) (dst : Z)
    (flow_cur : option Z) (st : frontier * gmap vertex dist_entry)
    (es : list edge_ref) : result (frontier * gmap vertex dist_entry) :=
  match es with
  | [] => Ok st
  | edge :: rest =>
      st' ← relax g from dst flow_cur st edge;
      relax_all g from dst flow_cur st' rest
  end.

(** The loop [while len(heap)] (lines 55-82). *)
Fixpoint shortest_paths (fuel : nat) (g : MinCostFlow)
    (st : frontier * gmap vertex dist_entry) : result (gmap vertex dist_entry) :=
  match fuel with
  | O => Timeout
  | S fuel' =>
      let '(heap, dist) := st in
      if (0 <? Heap.len heap)%nat then
        '(heap', (from, dst, flow_cur)) ← Heap.pop Z.ltb heap;
        st' ← relax_all g from dst flow_cur (heap', dist) (edges_at g from);
        shortest_paths fuel' g st'
      else Ok dist
  end.

(** The loop of lines 93-100: walk back from the sink and push [amount]
    through every edge of the path. *)
Fixpoint augment (fuel : nat) (objs : list Edge) (dist : gmap vertex dist_entry)
    (x : vertex) (amount : Z) : result (list Edge) :=
  match fuel with
  | O => Timeout
  | S fuel' =>
      match dist !! x with
      | None => Raised KeyError
      | Some (_, None, _, _) => Ok objs
      | Some (_, Some edge, _, _) =>
          e ← deref objs edge;
          let x' := (directed_edge e x).1.1 in
          augment fuel' (<[edge := Edge_add_flow e x' amount]> objs) dist x' amount
      end
  end.

(** [for v, v_dist in dist.items(): self.potential[v] += v_dist[0]] *)
Definition update_potential (pot : gmap vertex Z) (dist : gmap vertex dist_entry)
  : gmap vertex Z :=
  map_fold (fun x (d : dist_entry) pot => <[x := default 0 (pot !! x) + d.1.1.1]> pot)
           pot dist.

(** The outer loop of [add_flow], from the locals [flow] and [flow_cost].
    [fuel] bounds its rounds and [inner] the rounds of the loops inside. *)
Fixpoint add_flow_loop (fuel inner : nat) (g : MinCostFlow) (src snk : vertex)
    (flow_max : option Z) (flow flow_cost : Z) : result (MinCostFlow * (Z * Z)) :=
  match fuel with
  | O => Timeout
  | S fuel' =>
      if match flow_max with None => true | Some m => flow <? m end then
        let start : item := (src, 0, (fun m => m - flow) <$> flow_max) in
        '(heap, key) ← Heap.push item_key Z.ltb Heap.empty start;
        dist ← shortest_paths inner g (heap, {[ src := (0, None, flow, key) ]});
        match dist !! snk with
        | None => Ok (g, (flow, flow_cost))
        | Some snk_dist =>
            let flow' := flow + snk_dist.1.2 in
            let flow_cost' := flow_cost + (snk_dist.1.1.1 + potential_at g snk) in
            let pot := update_potential (potential g) dist in
            objs ← augment inner (edge_objects g) dist snk snk_dist.1.2;
            add_flow_loop fuel' inner (mkGraph objs (edges g) pot) src snk
                          flow_max flow' flow_cost'
        end
      else Ok (g, (flow, flow_cost))
  end.

(** [MinCostFlow.add_flow(src, snk, flow_max)]: the graph after the call
    and the returned pair [(flow, flow_cost)]. *)
Definition add_flow (fuel inner : nat) (g : MinCostFlow) (src snk : vertex)
    (flow_max : option Z) : result (MinCostFlow * (Z * Z)) :=
  add_flow_loop fuel inner g src snk flow_max 0 0.

End Mcf.
(** * Specification-level definitions *)

(** ** The oracle *)

Module MtgSpec.
Import Mtg.

(** The colour sets [t] of [range(32)] with [t] a subset of [s]. *)
Definition subsets_of (s : Z) : list Z :=
  List.filter (fun t => Z.land t s =? t) (range (2 ^ len_COLORS)).

(** [sum(f(t) for t a subset of s)] *)
Definition subset_sum (f : Z -> Z) (s : Z) : Z :=
  fold_right Z.add 0 (map f (subsets_of s)).

(** Lands that cannot pay into [s]: those whose colours avoid [s]; none
    when [s] is all colours (the [land_g[0] = 0] of the source). *)
Definition blocked (lands : Counter) (s : Z) : Z :=
  let t := Z.lxor ALL_COLORS_SET s in
  if t =? 0 then 0 else subset_sum (get lands) t.

Definition hall_test (cost lands : Counter) (offset : Z) : bool :=
  forallb (fun s => subset_sum (get cost) s + offset
                    <=? subset_sum (get lands) ALL_COLORS_SET - blocked lands s)
          (range (2 ^ len_COLORS)).
(** The transform over any addition [add]: with [Z.add] it is the code's,
    and with an uninterpreted [add] it evaluates on symbolic counts. *)
Section Generic.
Context {A : Type} (add : A -> A -> A).
Fixpoint sweep_with (fuel : nat) (col iter_st st : Z) (res : list A)
  : result (list A) :=
  match fuel with
  | O => Timeout
  | S fuel' =>
      a ← getitem res (Z.lor st col);
      b ← getitem res st;
      res' ← setitem res (Z.lor st col) (add a b);
      if st =? 0 then Ok res'
      else sweep_with fuel' col iter_st (Z.land (st - 1) iter_st) res'
  end.
Fixpoint colors_with (indices : list Z) (res : list A) : result (list A) :=
  match indices with
  | [] => Ok res
  | index :: rest =>
      let col := 2 ^ index in
      let iter_st := Z.lxor ALL_COLORS_SET col in
      res' ← sweep_with (S (Z.to_nat iter_st)) col iter_st iter_st res;
      colors_with rest res'
  end.
End Generic.


(** *** A brute-force matcher of pips to lands *)

(** The items of a multiset of colour sets, each repeated by its count. *)
Definition elements (c : Counter) : list Z :=
  flat_map (fun s => replicate (Z.to_nat (get c s)) s) (range (2 ^ len_COLORS)).

(** May a land of colour set [land] pay the pip [pip]?  A colourless land
    pays generic pips only; any other land pays a pip that shares a colour
    with it. *)
Definition pays (land pip : Z) : bool :=
  if land =? 0 then pip =? ALL_COLORS_SET
  else negb (Z.land land pip =? 0).

(** Brute force: give the first pip every land that pays it, in turn, and
    assign the other pips from the lands that are left. *)
Fixpoint assign (pips lands : list Z) : bool :=
  match pips with
  | [] => true
  | pip :: rest =>
      existsb (fun i => match lands !! i with
                        | Some land => pays land pip && assign rest (delete i lands)
                        | None => false
                        end)
              (seq 0 (length lands))
  end.

Definition brute_force_match (cost lands : Counter) : bool :=
  assign (elements cost) (elements lands).

(** *** Stores *)

(** [m] leaves the first [n] objects of the store as they are, never
    shrinks the store, and returns only values that satisfy [post]. *)
Definition frames {A} (n : nat) (m : M A) (post : A -> Prop) : Prop :=
  forall s : store, (n <= length s)%nat ->
    take n (m s).2 = take n s /\ (length s <= length (m s).2)%nat /\
    forall a, (m s).1 = Ok a -> post a.

(** ["Planeswalker" in spell.types] *)
Definition is_planeswalker (sp : Card) : bool := str_in "Planeswalker" (types sp).

(** The lands that the walk of [can_cast] appends to [other_lands]. *)
Definition exotic (sp land : Card) : bool :=
  match land_type land with
  | Some BEACON => is_planeswalker sp
  | Some LOTUS | Some FILTERING | None => true
  | Some _ => false
  end.

Definition is_beacon (land : Card) : bool :=
  bool_decide (land_type land = Some BEACON).

Definition non_negative (c : Counter) : Prop := forall t, 0 <= get c t.

(** The cards of a list of references, read from the store. *)
Definition cards_at (s : store) (items : list loc) : list (loc * Card) :=
  omap (fun r => match s !! r with
                 | Some (OCard c) => Some (r, c)
                 | _ => None
                 end) items.

Definition all_cards (s : store) (items : list loc) : Prop :=
  Forall (fun r => exists c, s !! r = Some (OCard c)) items.


(** Every object of [s] is still there, unchanged, in [s']. *)
Definition unchanged (s s' : store) : Prop :=
  forall (l : loc) (o : pyobj), s !! l = Some o -> s' !! l = Some o.

(** *** Scenarios *)

(** The five-colour cost [{W}{U}{B}{R}{G}]. *)
Definition wubrg : Counter := list_to_map [(1,1); (2,1); (4,1); (8,1); (16,1)].
(** Four lands that tap for any colour and one colourless land. *)
Definition four_towers_and_zone : Counter := list_to_map [(31,4); (0,1)].

Definition basic (nm : string) (colors : Z) : pyobj :=
  OCard (mkCard nm ["Land"] [] None (Some BASIC) colors).

(** The cards of the first castability scenario: the [Counter] of the cost
    [{U}{B}{B}{R}], the spell, the three kinds of land, and the list of
    lands.  The subtypes and the colour identities the scenario does not
    give are arbitrary. *)
Definition bolas_store (subtypes : list string) (spell_colors beacon_colors : Z)
  : store :=
  [ OCounter (list_to_map [(2,1); (4,2); (8,1)]);
    OCard (mkCard "Nicol Bolas, Dragon-God" ["Planeswalker"] subtypes
                  (Some 0%nat) None spell_colors);
    OCard (mkCard "Interplanar Beacon" ["Land"] [] None (Some BEACON) beacon_colors);
    basic "Mountain" 8;
    basic "Island" 2;
    OList [2; 2; 2; 3; 4; 4]%nat ].

(** A creature spell, an Interplanar Beacon, and the list of that land. *)
Definition bear_store : store :=
  [ OCounter (list_to_map [(16,1); (31,1)]);
    OCard (mkCard "Grizzly Bears" ["Creature"] ["Bear"] (Some 0%nat) None 16);
    OCard (mkCard "Interplanar Beacon" ["Land"] [] None (Some BEACON) 0);
    OList [2%nat] ].


(** *** [can_cast] without the store *)

(** The cost that [can_cast] works on: with [X] symbols, [X] generic pips
    for each of them and no [X] symbol left (lines 141-144). *)
Definition expand_cost (c : Counter) (X : Z) : Counter :=
  if get c 0 =? 0 then c else delete 0 (incr c ALL_COLORS_SET (get c 0 * X)).

(** What one land does to [plaza_count], [gate_colors] and [simple_lands]
    (lines 151-177). *)
Definition pool_step (sp : Card) (st : Z * Z * Counter) (land : Card)
  : Z * Z * Counter :=
  let '(plaza_count, gate_colors, sl) := st in
  match land_type land with
  | Some FABLED_PASSAGE | Some EVOLVING_WILDS => st
  | Some GUILDGATE =>
      (plaza_count, Z.lor gate_colors (color_identity_set land),
       incr sl (color_identity_set land) 1)
  | Some BASIC | Some ADAMANT | Some CASTLE | Some SHOCK | Some SCRY
  | Some TAP_DUAL | Some TAP_TRI | Some COLORLESS =>
      (plaza_count, gate_colors, incr sl (color_identity_set land) 1)
  | Some GATEWAY_PLAZA => (plaza_count, ALL_COLORS_SET, incr sl ALL_COLORS_SET 1)
  | Some COMMAND_TOWER => (plaza_count, gate_colors, incr sl ALL_COLORS_SET 1)
  | Some TOURNAMENT_GROUNDS =>
      (plaza_count, gate_colors,
       if str_in "Equipment" (subtypes sp) || str_in "Knight" (subtypes sp)
       then incr sl MARDU_COLOR_SET 1 else incr sl 0 1)
  | Some PLAZA_OF_HARMONY => (plaza_count + 1, gate_colors, sl)
  | Some BEACON =>
      (plaza_count, gate_colors, if is_planeswalker sp then sl else incr sl 0 1)
  | Some LOTUS | Some FILTERING | None => st
  end.

(** The pool of simple lands that [can_cast] makes of the lands
    (lines 147-179). *)
Definition simple_pool (sp : Card) (lands : list Card) : Counter :=
  let '(plaza_count, gate_colors, sl) := foldl (pool_step sp) (0, 0, ∅) lands in
  if plaza_count =? 0 then sl else incr sl gate_colors plaza_count.

(** The cost counter of a card in the store; the empty counter stands for
    no mana cost. *)
Definition cost_at (s : store) (sp : Card) (c : Counter) : Prop :=
  match cost sp with
  | Some cl => s !! cl = Some (OCounter c)
  | None => c = ∅
  end.

(** [can_cast] from line 181 on, after the cost is copied and the lands are
    bucketed. *)
Definition after_bucket (fuel : nat) (cost simple_lands other_lands : loc) : M bool :=
  ok ← can_cast_simple_at cost simple_lands 0;
  if (ok : bool) then mret true
  else
    others ← read_list other_lands;
    if bool_decide (others = []) then mret false
    else
      optimistic ← optimistic_check cost simple_lands other_lands;
      if negb optimistic then mret false
      else
        c ← read_counter cost;
        let max_colors := map (max_color c) (range len_COLORS) in
        let total_cost := sum (map snd (map_to_list c)) in
        sl ← read_counter simple_lands;
        let simple_land_count := sum (map snd (map_to_list sl)) in
        sort_lands other_lands;;
        vq ← lift (_try_queue (∅, Heap.empty)
                     (SearchState_init max_colors total_cost None None 0 0 0 0));
        search max_colors total_cost fuel cost simple_lands other_lands
               simple_land_count vq.

(** The store after the preprocessing. *)
Definition bucketed (s : store) (sp : Card) (c : Counter) (X : Z) (items : list loc)
  : store :=
  s ++ [OCounter (expand_cost c X);
        OCounter (simple_pool sp (cards_at s items).*2);
        OList (map fst (List.filter (fun rc => exotic sp rc.2) (cards_at s items)))].

(** The lands that the optimistic check accepts. *)
Definition supported (land : Card) : bool :=
  match land_type land with
  | Some BEACON | Some LOTUS | Some FILTERING => true
  | _ => false
  end.


End MtgSpec.

(** ** The heap *)

Module HeapSpec.
Import Heap.

Section Invariant.
Context {TK TV : Type}.
Variable key_func : TV -> TK.
Variable lt : TK -> TK -> bool.

Implicit Types (h : AdjustableHeap TK TV) (objs : list (AdjustableHeapKey TK TV))
  (a : list handle) (key : handle) (o : AdjustableHeapKey TK TV).

(** [a <= b], read as Python's [not b < a]. *)
Definition le (x y : TK) : Prop := lt y x = false.

(** The facts about [<] that the heap relies on: a strict weak order. *)
Record strict_weak_order : Prop := {
  lt_asym : forall x y : TK, lt x y = true -> lt y x = false;
  le_trans : forall x y z : TK, le x y -> le y z -> le x z
}.

(** The keys at positions [p] and [c] are in order. *)
Definition edge (ks : list (option TK)) (p c : nat) : Prop :=
  forall kp kc, ks !! p = Some (Some kp) -> ks !! c = Some (Some kc) -> le kp kc.

Definition ordered (ks : list (option TK)) : Prop :=
  forall c, (0 < c)%nat -> edge ks (parent_of c) c.

(** Heap order everywhere but around position [j]: the edges that do not
    touch [j] are in order, and so are the parent of [j] and the children
    of [j]. *)
Definition ordered_except (ks : list (option TK)) (j : nat) : Prop :=
  (forall c, (0 < c)%nat -> c <> j -> parent_of c <> j -> edge ks (parent_of c) c)
  /\ (forall c, (0 < j)%nat -> (0 < c)%nat -> parent_of c = j ->
               edge ks (parent_of j) c).

Definition all_keys (ks : list (option TK)) : Prop := Forall is_Some ks.

(** The comparison key of the object that a handle names. *)
Definition ck objs (k : handle) : option TK := comp_key <$> objs !! k.

Definition keys_of objs a : list (option TK) := ck objs <$> a.

(** What [_adjust] never changes: the values and keys of the objects. *)
Definition data_of objs : list (TV * TK) := (fun o => (val o, comp_key o)) <$> objs.

(** Every handle of the array names an object whose [index] is the
    position of the handle. *)
Definition tracked h : Prop :=
  forall i k, heap h !! i = Some k ->
    exists o, objects h !! k = Some o /\ index o = i.

(** The invariant of the heap: handles are tracked and no child has a key
    smaller than the key of its parent. *)
Definition heap_inv h : Prop :=
  forall i k, heap h !! i = Some k ->
    exists o, objects h !! k = Some o /\ index o = i /\
      ((0 < i)%nat ->
       exists kp op, heap h !! parent_of i = Some kp /\ objects h !! kp = Some op
                     /\ lt (comp_key o) (comp_key op) = false).

(** Inside [_adjust]: the array with [key] held out of position [j]. *)
Definition tracked_except h key (j : nat) : Prop :=
  (j < length (heap h))%nat /\ is_Some (objects h !! key) /\
  forall pos hd, pos <> j -> heap h !! pos = Some hd ->
    hd <> key /\ exists o, objects h !! hd = Some o /\ index o = pos.

(** The keys of the array once [key] is put at [j]. *)
Definition vkeys h key (j : nat) : list (option TK) :=
  keys_of (objects h) (<[j := key]> (heap h)).

(** The outcome of the loops of [_adjust] that start from [h] with [key]
    held out of [j]: only [index] fields have changed, and the handles
    are those of before. *)
Definition moved h key (j : nat) h' (j' : nat) : Prop :=
  tracked_except h' key j'
  /\ length (heap h') = length (heap h)
  /\ data_of (objects h') = data_of (objects h)
  /\ (forall x, x ∈ <[j' := key]> (heap h') -> x ∈ <[j := key]> (heap h)).

(** A handle that the client may pass to [adjust_key] or [remove]: the
    one stored at the position its object records. *)
Definition live h key : Prop :=
  exists o, objects h !! key = Some o /\ heap h !! index o = Some key.

(** [vs.push] for each item of [vs], in turn. *)
Fixpoint push_all h (vs : list TV) : result (AdjustableHeap TK TV) :=
  match vs with
  | [] => Ok h
  | v :: rest => '(h', _) ← push key_func lt h v; push_all h' rest
  end.

(** [n] calls of [pop]: the values returned, in order, and the heap left. *)
Fixpoint pop_many (n : nat) h : result (list TV * AdjustableHeap TK TV) :=
  match n with
  | O => Ok ([], h)
  | S n' =>
      '(h', v) ← pop lt h;
      '(out, h'') ← pop_many n' h';
      Ok (v :: out, h'')
  end.

(** The values in the heap. *)
Definition elements h : list TV :=
  omap (fun k => val <$> objects h !! k) (heap h).

(** Every object carries the key of its value, as [push] and
    [adjust_key] make it. *)
Definition consistent h : Prop :=
  Forall (fun d : TV * TK => d.2 = key_func d.1) (data_of (objects h)).

(** [peek] returns a value of the heap whose key is least. *)
Definition peek_is_min h : Prop :=
  (0 < length (heap h))%nat ->
  exists v, peek h = Ok v /\ v ∈ elements h
            /\ forall x, x ∈ elements h -> lt (key_func x) (key_func v) = false.

(** The heap holds the value [it] under the handle [hk]. *)
Definition holds h (hk : handle) (it : TV) : Prop :=
  hk ∈ heap h /\ exists o, objects h !! hk = Some o /\ val o = it.

(** The invariant of the heap, with keys that are those of the values. *)
Definition good h : Prop := heap_inv h /\ consistent h.

End Invariant.

(** The same heap with every value replaced by its image under [phi]:
    comparison keys and positions stay. *)
Section Relabel.
Context {TK TV : Type}.
Variable phi : TV -> TV.

Definition omap (o : AdjustableHeapKey TK TV) : AdjustableHeapKey TK TV :=
  mkKey (phi (val o)) (comp_key o) (index o).

Definition hmap (h : AdjustableHeap TK TV) : AdjustableHeap TK TV :=
  mkHeap (heap h) (omap <$> objects h).

Definition hmap_at (r : AdjustableHeap TK TV * nat) : AdjustableHeap TK TV * nat :=
  (hmap r.1, r.2).

End Relabel.

(** [f] applied to what the code returns. *)
Definition on_result {A B} (f : A -> B) (r : result A) : result B :=
  a ← r; Ok (f a).

(** A heap of the values 3 and 5, keyed by themselves. *)
Definition two_items : AdjustableHeap Z Z :=
  mkHeap [1%nat; 0%nat] [mkKey 5 5 1; mkKey 3 3 0].

(** The heap as its client sees it: the value under each handle that is in
    the heap. *)
Definition contents {TK TV : Type} (h : AdjustableHeap TK TV) : gmap handle TV :=
  foldr (fun k m => match objects h !! k with
                    | Some o => <[k := val o]> m
                    | None => m
                    end) ∅ (heap h).

End HeapSpec.
(** ** Min-cost flow *)

Module McfSpec.
Import Heap HeapSpec Mcf.

(** The cost of the flow that is on the edges: the sum over the edges of
    cost times flow. *)
Definition flow_cost (objs : list Edge) : Z :=
  foldr Z.add 0 ((fun e => cost e * flow e) <$> objs).

(** One edge from ["s"] to ["t"], of capacity 2 and cost 1. *)
Definition one_edge : MinCostFlow := add_edge empty "s" "t" 2 1.

(** The graph of [test.py]. *)
Definition test_graph : MinCostFlow :=
  add_edge (add_edge (add_edge (add_edge empty "src" "a" 1 1) "src" "b" 1 0)
                     "a" "snk" 1 2) "b" "snk" 1 2.

(** [add_edge] for each item [(u, v, capacity, cost)] of [es], from the
    empty graph. *)
Definition build (es : list (vertex * vertex * Z * Z)) : MinCostFlow :=
  foldl (fun g e => add_edge g e.1.1.1 e.1.1.2 e.1.2 e.2) empty es.

(** The three components of [Edge.directed_edge(x)]. *)
Definition target (o : Edge) (x : vertex) : vertex := (directed_edge o x).1.1.
Definition rescap (o : Edge) (x : vertex) : Z := (directed_edge o x).1.2.
Definition arc_cost (o : Edge) (x : vertex) : Z := (directed_edge o x).2.

(** The cost of an arc under the potentials of [g]. *)
Definition reduced_cost (pot : gmap vertex Z) (o : Edge) (x : vertex) : Z :=
  arc_cost o x + default 0 (pot !! x) - default 0 (pot !! target o x).

(** The fields of a [dist] entry. *)
Definition d_dist (d : Z * option nat * Z * nat) : Z := d.1.1.1.
Definition d_pred (d : Z * option nat * Z * nat) : option nat := d.1.1.2.
Definition d_flow (d : Z * option nat * Z * nat) : Z := d.1.2.
Definition d_key (d : Z * option nat * Z * nat) : nat := d.2.

(** [flow_cur if flow_cur is None else min(flow_cur, cap)] *)
Definition min_opt (f : option Z) (cap : Z) : Z :=
  match f with None => cap | Some f => Z.min f cap end.

(** The adjacency lists name edges of the store by an end point, costs
    are not negative and flows are within the capacities. *)
Record wf_graph (g : MinCostFlow) : Prop := {
  adj_sound : forall x e, e ∈ edges_at g x ->
                exists o, edge_objects g !! e = Some o /\ (u o = x \/ v o = x);
  costs_nonneg : forall e o, edge_objects g !! e = Some o -> 0 <= cost o;
  flow_bounds : forall e o, edge_objects g !! e = Some o -> 0 <= flow o <= capacity o
}.

(** [R] is closed under the arcs that have capacity left, and these arcs
    have non-negative reduced cost. *)
Definition region_ok (g : MinCostFlow) (R : vertex -> Prop) : Prop :=
  forall x e o, R x -> e ∈ edges_at g x -> edge_objects g !! e = Some o ->
    rescap o x <> 0 ->
    R (target o x) /\ 0 <= reduced_cost (potential g) o x.

(** The vertices of the graph, with [src]. *)
Definition vertices (g : MinCostFlow) (src : vertex) : gset vertex :=
  {[ src ]} ∪ list_to_set (flat_map (fun o => [u o; v o]) (edge_objects g)).

(** Net flow out of [x]. *)
Definition net (objs : list Edge) (x : vertex) : Z :=
  foldr Z.add 0
    ((fun o => (if String.eqb (u o) x then flow o else 0)
               - (if String.eqb (v o) x then flow o else 0)) <$> objs).

(** [objs] is a flow on the edges [base]: the same edges, each with a flow
    within its capacity. *)
Definition flow_on (base objs : list Edge) : Prop :=
  Forall2 (fun b o => u o = u b /\ v o = v b /\ capacity o = capacity b
                      /\ cost o = cost b /\ 0 <= flow o <= capacity o) base objs.

Definition feasible (base : list Edge) (src snk : vertex) (objs : list Edge) : Prop :=
  flow_on base objs /\ forall x, x <> src -> x <> snk -> net objs x = 0.

(** [M] is the maximum of the values of the feasible flows. *)
Definition max_flow_value (base : list Edge) (src snk : vertex) (M : Z) : Prop :=
  (exists objs, feasible base src snk objs /\ net objs src = M)
  /\ forall objs, feasible base src snk objs -> net objs src <= M.


Section Search.
Variable g : MinCostFlow.
Variable R : vertex -> Prop.
Variable src : vertex.
(** The [flow_cur] of the item of the source, and the flow so far. *)
Variable fm : option Z.
Variable flow0 : Z.

(** The [flow_cur] that the heap item of an entry of [dist] carries. *)
Definition flow_cur_of (d : Z * option nat * Z * nat) : option Z :=
  match d_pred d with
  | None => fm
  | Some _ => Some (d_flow d)
  end.

Definition item_of (x : vertex) (d : Z * option nat * Z * nat) : vertex * Z * option Z :=
  (x, d_dist d, flow_cur_of d).

(** The entry [d] of [x] was made by relaxing the edge [e] out of a vertex
    that had been popped before. *)
Definition tree_edge (D : gmap vertex (Z * option nat * Z * nat))
    (rk : gmap vertex nat) (x : vertex) (d : Z * option nat * Z * nat) (e : nat)
  : Prop :=
  exists o y dy ry,
    e ∈ edges_at g y /\ edge_objects g !! e = Some o
    /\ target o y = x /\ rescap o y <> 0
    /\ D !! y = Some dy /\ rk !! y = Some ry
    /\ d_dist d = d_dist dy + reduced_cost (potential g) o y
    /\ d_flow d = min_opt (flow_cur_of dy) (rescap o y)
    /\ forall rx, rk !! x = Some rx -> (ry < rx)%nat.

(** The edge [e] out of [x] has been relaxed. *)
Definition relaxed (D : gmap vertex (Z * option nat * Z * nat))
    (x : vertex) (dx : Z * option nat * Z * nat) (e : nat) : Prop :=
  forall o, edge_objects g !! e = Some o -> rescap o x <> 0 ->
    exists dt, D !! target o x = Some dt
               /\ d_dist dt <= d_dist dx + reduced_cost (potential g) o x.

(** The new entry of [dist] made by relaxing the edge [e] out of [c]. *)
Definition relaxed_entry (dc : Z * option nat * Z * nat) (o : Edge) (c : vertex)
    (e hk : nat) : Z * option nat * Z * nat :=
  (d_dist dc + reduced_cost (potential g) o c, Some e,
   min_opt (flow_cur_of dc) (rescap o c), hk).

(** The invariant of the search: [rk] ranks the vertices popped so far,
    [cur] is the vertex whose edges are being relaxed and [todo] the edges
    of [cur] still to relax. *)
Record dj_inv (cur : option vertex) (todo : list nat)
    (H : AdjustableHeap Z (vertex * Z * option Z))
    (D : gmap vertex (Z * option nat * Z * nat)) (rk : gmap vertex nat) : Prop := {
  dj_good : good item_key Z.ltb H;
  dj_heap : forall hk it, holds H hk it <->
              exists x d, D !! x = Some d /\ rk !! x = None
                          /\ d_key d = hk /\ it = item_of x d;
  dj_rank : forall x r, rk !! x = Some r -> is_Some (D !! x) /\ (r < size rk)%nat;
  dj_src : exists hk, D !! src = Some (0, None, flow0, hk);
  dj_src_first : rk = ∅ \/ is_Some (rk !! src);
  dj_root : forall x d, D !! x = Some d -> d_pred d = None -> x = src;
  dj_tree : forall x d e, D !! x = Some d -> d_pred d = Some e -> tree_edge D rk x d e;
  dj_pos : forall x d e, D !! x = Some d -> d_pred d = Some e ->
             0 < d_flow d /\ forall m, fm = Some m -> d_flow d <= m;
  dj_closed : forall x dx e, is_Some (rk !! x) -> D !! x = Some dx ->
                e ∈ edges_at g x -> (cur = Some x -> e ∉ todo) -> relaxed D x dx e;
  dj_settled : forall x y dx dy, is_Some (rk !! x) -> rk !! y = None ->
                 D !! x = Some dx -> D !! y = Some dy -> d_dist dx <= d_dist dy;
  dj_cur : forall c, cur = Some c ->
             is_Some (rk !! c)
             /\ (forall e, e ∈ todo -> e ∈ edges_at g c)
             /\ forall x dx dc, is_Some (rk !! x) -> D !! x = Some dx ->
                  D !! c = Some dc -> d_dist dx <= d_dist dc;
  dj_region : forall x, is_Some (D !! x) -> R x;
  dj_verts : forall x, is_Some (D !! x) -> x ∈ vertices g src
}.

End Search.

(** [objs] has the edges of [base], whatever their flows. *)
Definition same_edges (base objs : list Edge) : Prop :=
  Forall2 (fun b o => u o = u b /\ v o = v b /\ capacity o = capacity b
                      /\ cost o = cost b) base objs.

(** [a] at the vertex [x] and [0] elsewhere. *)
Definition at_vertex (x z : vertex) (a : Z) : Z := if String.eqb z x then a else 0.

(** The graph after a round: the flows after the walk and the potentials
    moved by the distances. *)
Definition next_graph (g : MinCostFlow) (D : gmap vertex (Z * option nat * Z * nat))
    (objs : list Edge) : MinCostFlow :=
  mkGraph objs (edges g) (update_potential (potential g) D).

(** What the loop of [add_flow] keeps between rounds: the graph is well
    formed, the part of it that the source reaches has reduced costs that
    are not negative, and the flows are a flow of value [flow] from [src]
    to [snk] on the edges [base]. *)
Definition loop_inv (base : list Edge) (src snk : vertex) (inner : nat)
    (g : MinCostFlow) (flow : Z) : Prop :=
  wf_graph g
  /\ (exists R, region_ok g R /\ R src)
  /\ same_edges base (edge_objects g)
  /\ (size (vertices g src) < inner)%nat
  /\ forall z, net (edge_objects g) z = at_vertex src z flow - at_vertex snk z flow.

(** The bounded search seen from the search without bound: every flow is
    cut at [K]. *)
Definition cap_flow (K : Z) (fc : option Z) : option Z := Some (min_opt fc K).

Definition cap_item (K : Z) (it : vertex * Z * option Z) : vertex * Z * option Z :=
  (it.1.1, it.1.2, cap_flow K it.2).

Definition cap_entry (K : Z) (d : Z * option nat * Z * nat) : Z * option nat * Z * nat :=
  match d_pred d with
  | None => d
  | Some e => (d_dist d, Some e, Z.min (d_flow d) K, d_key d)
  end.

Definition cap_state (K : Z)
    (st : AdjustableHeap Z (vertex * Z * option Z) * gmap vertex (Z * option nat * Z * nat))
  : AdjustableHeap Z (vertex * Z * option Z) * gmap vertex (Z * option nat * Z * nat) :=
  (hmap (cap_item K) st.1, cap_entry K <$> st.2).

End McfSpec.

(** ** The search of [can_cast] *)

Module MtgSearchSpec.
Import Heap HeapSpec Mtg MtgSpec.

(** A bound on the states that the search can still pop once it pops a
    state with [k] lands left to try: the state, and for each of its at
    most 11 successors what that successor allows. *)
Fixpoint search_weight (k : nat) : nat :=
  match k with
  | O => 1
  | S k' => 1 + 11 * search_weight k'
  end.

(** The weight of a state when there are [n] lands to try. *)
Definition state_weight (n : Z) (st : SearchState) : nat :=
  search_weight (Z.to_nat (n - land_index st)).

(** The sum of the weights of the states of the queue. *)
Definition queue_weight (n : Z) (q : AdjustableHeap (Z * Z * Z) SearchState) : nat :=
  map_fold (fun _ st acc => (state_weight n st + acc)%nat) 0%nat (contents q).

(** The states of the queue have tried between none and all of the [n]
    lands. *)
Definition in_range (n : Z) (q : AdjustableHeap (Z * Z * Z) SearchState) : Prop :=
  forall h st, contents q !! h = Some st -> 0 <= land_index st <= n.

(** [other_lands] after [other_lands.sort(key=lambda card: card.name)]. *)
Definition sorted_refs (st : store) (items : list loc) : list loc :=
  map snd (sort_by_name (map (fun rc : loc * Card => (name rc.2, rc.1)) (cards_at st items))).

(** A spell and a list of lands that holds the spell itself. *)
Definition shock_store : store :=
  [ OCounter {[ 8 := 1 ]};
    OCard (mkCard "Shock" ["Instant"] [] (Some 0%nat) None 8);
    OList [1%nat] ].

(** What the loop reads stays in the store. *)
Definition search_store (cost simple_lands other_lands : loc) (c pool : Counter)
    (sorted : list loc) (st : store) : Prop :=
  st !! cost = Some (OCounter c)
  /\ st !! simple_lands = Some (OCounter pool)
  /\ st !! other_lands = Some (OList sorted)
  /\ all_cards st sorted.

End MtgSearchSpec.
(** * Properties *)

(** ** The Moebius oracle *)

Module MtgFacts.
Import Mtg MtgSpec.

Lemma lower_mobius_transform_with (freq : Counter) :
  lower_mobius_transform freq
  = colors_with Z.add (range len_COLORS) (map (get freq) (range (2 ^ len_COLORS))).
Proof. reflexivity. Qed.

(** The in-place sweeps compute [g(s) = sum(f(t) for t subset of s)], as
    the docstring says, and never fail. *)
Lemma lower_mobius_transform_spec (freq : Counter) :
  lower_mobius_transform freq
  = Ok (map (subset_sum (get freq)) (range (2 ^ len_COLORS))).
Proof.
  rewrite lower_mobius_transform_with.
  generalize (get freq). intros f.
  assert (E : forall add : Z -> Z -> Z, exists r,
             colors_with add (range len_COLORS) (map f (range (2 ^ len_COLORS))) = Ok r
             /\ (add = Z.add -> r = map (subset_sum f) (range (2 ^ len_COLORS)))).
  { intros add.
    match goal with
    | |- exists r, ?L = _ /\ _ =>
        let L' := eval vm_compute in L in
        match L' with
        | Ok ?r => exists r; split; [vm_compute; reflexivity|]
        end
    end.
    intros ->. cbv -[Z.add].
    repeat (apply (f_equal2 (@cons Z)); [ring|]).
    reflexivity. }
  destruct (E Z.add) as (r & -> & Hr). rewrite Hr; reflexivity.
Qed.

Lemma can_cast_simple_spec (cost lands : Counter) (offset : Z) :
  can_cast_simple cost lands offset = Ok (hall_test cost lands offset).
Proof.
  unfold can_cast_simple, hall_test, blocked.
  rewrite !lower_mobius_transform_spec.
  generalize (subset_sum (get cost)) (subset_sum (get lands)).
  intros cG lG.
  vm_compute (range _).
  cbn [map mbind result_bind].
  vm_compute (setitem _ _ _).
  cbn [map mbind result_bind].
  vm_compute (getitem _ _).
  cbn [mbind result_bind].
  reflexivity.
Qed.

Lemma subsets_of_all : subsets_of ALL_COLORS_SET = range (2 ^ len_COLORS).
Proof. reflexivity. Qed.

Lemma sum_filter_le (f : Z -> Z) (p : Z -> bool) (l : list Z) :
  (forall x, 0 <= f x) ->
  0 <= fold_right Z.add 0 (map f (List.filter p l))
       <= fold_right Z.add 0 (map f l).
Proof.
  intros Hf. induction l as [|x l IH]; simpl; [lia|].
  specialize (Hf x). destruct (p x); simpl; lia.
Qed.

Lemma subset_sum_nonneg (f : Z -> Z) (s : Z) :
  (forall x, 0 <= f x) -> 0 <= subset_sum f s.
Proof. intros Hf. apply (sum_filter_le f _ _ Hf). Qed.

Lemma subset_sum_le_all (f : Z -> Z) (s : Z) :
  (forall x, 0 <= f x) -> subset_sum f s <= subset_sum f ALL_COLORS_SET.
Proof.
  intros Hf. unfold subset_sum at 2. rewrite subsets_of_all.
  apply (sum_filter_le f _ _ Hf).
Qed.

Lemma subset_sum_plus (f g : Z -> Z) (s : Z) :
  subset_sum (fun t => f t + g t) s = subset_sum f s + subset_sum g s.
Proof.
  unfold subset_sum. induction (subsets_of s) as [|x l IH]; simpl; lia.
Qed.

Lemma subset_sum_ext (f g : Z -> Z) (s : Z) :
  (forall t, f t = g t) -> subset_sum f s = subset_sum g s.
Proof.
  intros E. unfold subset_sum. f_equal. apply map_ext. exact E.
Qed.

Lemma subset_sum_zero (f : Z -> Z) (s : Z) :
  (forall t, f t = 0) -> subset_sum f s = 0.
Proof.
  intros E. unfold subset_sum. induction (subsets_of s) as [|x l IH]; simpl; [done|].
  rewrite E, IH. done.
Qed.

(** What a land pool with non-negative counts can pay into any [s] is
    non-negative. *)
Lemma supply_nonneg (lands : Counter) (s : Z) :
  (forall t, 0 <= get lands t) ->
  0 <= subset_sum (get lands) ALL_COLORS_SET - blocked lands s.
Proof.
  intros Hl. unfold blocked.
  pose proof (subset_sum_nonneg _ ALL_COLORS_SET Hl).
  pose proof (subset_sum_le_all _ (Z.lxor ALL_COLORS_SET s) Hl).
  destruct (_ =? 0); lia.
Qed.

Lemma get_incr (freq : Counter) (k n t : Z) :
  get (incr freq k n) t = get freq t + (if bool_decide (t = k) then n else 0).
Proof.
  unfold get, incr. case_bool_decide as E.
  - subst. rewrite lookup_insert_eq. reflexivity.
  - rewrite lookup_insert_ne by congruence. simpl. lia.
Qed.

Lemma get_empty (t : Z) : get ∅ t = 0.
Proof. unfold get. rewrite lookup_empty. reflexivity. Qed.

(** Adding [n >= 0] lands of one colour set never lowers the supply. *)
Lemma supply_incr (lands : Counter) (k n s : Z) :
  0 <= n ->
  subset_sum (get lands) ALL_COLORS_SET - blocked lands s
  <= subset_sum (get (incr lands k n)) ALL_COLORS_SET - blocked (incr lands k n) s.
Proof.
  intros Hn.
  set (d := fun t : Z => if bool_decide (t = k) then n else 0).
  assert (Hd : forall t, 0 <= d t) by (intros t; unfold d; case_bool_decide; lia).
  assert (E : forall u, subset_sum (get (incr lands k n)) u
                        = subset_sum (get lands) u + subset_sum d u).
  { intros u. rewrite <- subset_sum_plus. apply subset_sum_ext.
    intros t. apply get_incr. }
  unfold blocked. rewrite !E.
  pose proof (subset_sum_nonneg _ ALL_COLORS_SET Hd).
  pose proof (subset_sum_le_all _ (Z.lxor ALL_COLORS_SET s) Hd).
  destruct (_ =? 0); lia.
Qed.

Lemma hall_test_incr (cost lands : Counter) (offset k n : Z) :
  0 <= n ->
  hall_test cost lands offset = true ->
  hall_test cost (incr lands k n) offset = true.
Proof.
  intros Hn. unfold hall_test. rewrite !forallb_forall.
  intros H s Hs. specialize (H s Hs).
  pose proof (supply_incr lands k n s Hn). lia.
Qed.

Lemma hall_test_zero_cost (cost lands : Counter) :
  (forall t, get cost t = 0) -> (forall t, 0 <= get lands t) ->
  hall_test cost lands 0 = true.
Proof.
  intros Hc Hl. unfold hall_test. rewrite forallb_forall.
  intros s _. rewrite (subset_sum_zero _ _ Hc).
  pose proof (supply_nonneg lands s Hl). lia.
Qed.

(** *** The frame of [can_cast] *)

Section Frames.
Variable n : nat.

Lemma frames_weaken {A} (m : M A) (P Q : A -> Prop) :
  frames n m P -> (forall a, P a -> Q a) -> frames n m Q.
Proof.
  intros Hm HPQ s Hs. destruct (Hm s Hs) as (H1 & H2 & H3). eauto.
Qed.

Lemma frames_ret {A} (a : A) (P : A -> Prop) : P a -> frames n (mret a) P.
Proof. intros Ha s Hs. cbn. repeat split; [lia|]. intros ? [= <-]. exact Ha. Qed.

Lemma frames_bind {A B} (m : M A) (f : A -> M B) (P : A -> Prop) (Q : B -> Prop) :
  frames n m P -> (forall a, P a -> frames n (f a) Q) -> frames n (m ≫= f) Q.
Proof.
  intros Hm Hf s Hs. destruct (Hm s Hs) as (H1 & H2 & H3).
  unfold mbind, M_bind. destruct (m s) as [[a| |] s1] eqn:E; cbn in *.
  - destruct (Hf a (H3 a eq_refl) s1 ltac:(lia)) as (K1 & K2 & K3).
    rewrite K1, H1. repeat split; [lia | exact K3].
  - repeat split; [done.. | discriminate].
  - repeat split; [done.. | discriminate].
Qed.

Lemma frames_lift {A} (r : result A) : frames n (lift r) (fun _ => True).
Proof. intros s Hs. cbn. repeat split; lia. Qed.

Lemma frames_throw {A} (e : exn) (P : A -> Prop) : frames n (throw e) P.
Proof. intros s Hs. cbn. repeat split; [lia | discriminate]. Qed.

Lemma frames_alloc (o : pyobj) : frames n (alloc o) (fun l => (n <= l)%nat).
Proof.
  intros s Hs. unfold alloc. cbn [fst snd].
  rewrite take_app_le by lia. rewrite length_app. cbn.
  repeat split; [lia|]. intros ? [= <-]. exact Hs.
Qed.

Lemma frames_read (l : loc) : frames n (read l) (fun _ => True).
Proof. intros s Hs. unfold read. destruct (s !! l); cbn; repeat split; lia. Qed.

Lemma frames_write (l : loc) (o : pyobj) :
  (n <= l)%nat -> frames n (write l o) (fun _ => True).
Proof.
  intros Hl s Hs. unfold write. destruct (l <? length s)%nat; cbn [fst snd].
  - rewrite take_insert_ge by lia. rewrite length_insert. repeat split; lia.
  - repeat split; lia.
Qed.

Lemma frames_read_counter (l : loc) : frames n (read_counter l) (fun _ => True).
Proof.
  eapply frames_bind; [apply frames_read|]. intros [c|items|c] _;
    first [by apply frames_ret | apply frames_throw].
Qed.

Lemma frames_read_list (l : loc) : frames n (read_list l) (fun _ => True).
Proof.
  eapply frames_bind; [apply frames_read|]. intros [c|items|c] _;
    first [by apply frames_ret | apply frames_throw].
Qed.

Lemma frames_read_card (l : loc) : frames n (read_card l) (fun _ => True).
Proof.
  eapply frames_bind; [apply frames_read|]. intros [c|items|c] _;
    first [by apply frames_ret | apply frames_throw].
Qed.

Lemma frames_counter_incr (l : loc) (k v : Z) :
  (n <= l)%nat -> frames n (counter_incr l k v) (fun _ => True).
Proof.
  intros Hl. eapply frames_bind; [apply frames_read_counter|].
  intros c _. by apply frames_write.
Qed.

Lemma frames_counter_del (l : loc) (k : Z) :
  (n <= l)%nat -> frames n (counter_del l k) (fun _ => True).
Proof.
  intros Hl. eapply frames_bind; [apply frames_read_counter|].
  intros c _. destruct (c !! k); [by apply frames_write | apply frames_throw].
Qed.

Lemma frames_counter_copy (l : loc) :
  frames n (counter_copy l) (fun l' => (n <= l')%nat).
Proof.
  eapply frames_bind; [apply frames_read_counter|].
  intros c _. apply frames_alloc.
Qed.

Lemma frames_list_append (l x : loc) :
  (n <= l)%nat -> frames n (list_append l x) (fun _ => True).
Proof.
  intros Hl. eapply frames_bind; [apply frames_read_list|].
  intros c _. by apply frames_write.
Qed.

Lemma frames_for_fold {A S} (xs : list A) (body : S -> A -> M S) (acc : S) :
  (forall acc x, frames n (body acc x) (fun _ => True)) ->
  frames n (for_fold xs body acc) (fun _ => True).
Proof.
  intros Hb. revert acc. induction xs as [|x xs IH]; intros acc; cbn [for_fold].
  - by apply frames_ret.
  - eapply frames_bind; [apply Hb|]. intros acc' _. apply IH.
Qed.

Lemma frames_for_each {A} (xs : list A) (body : A -> M unit) :
  (forall x, frames n (body x) (fun _ => True)) ->
  frames n (for_each xs body) (fun _ => True).
Proof.
  intros Hb. induction xs as [|x xs IH]; cbn [for_each].
  - by apply frames_ret.
  - eapply frames_bind; [apply Hb|]. intros _ _. apply IH.
Qed.

Lemma frames_can_cast_simple_at (cost lands : loc) (offset : Z) :
  frames n (can_cast_simple_at cost lands offset) (fun _ => True).
Proof.
  eapply frames_bind; [apply frames_read_counter|]. intros c _.
  eapply frames_bind; [apply frames_read_counter|]. intros l _.
  apply frames_lift.
Qed.

Lemma frames_true {A} (m : M A) (P : A -> Prop) :
  frames n m P -> frames n m (fun _ => True).
Proof. intros H. eapply frames_weaken; [exact H | done]. Qed.

Lemma frames_copy_cost (spell : loc) (X : Z) :
  frames n (copy_cost spell X) (fun l => (n <= l)%nat).
Proof.
  unfold copy_cost.
  eapply frames_bind; [apply frames_read_card|]. intros sp _.
  eapply frames_bind.
  { instantiate (1 := fun l => (n <= l)%nat).
    destruct (Mtg.cost sp); [apply frames_counter_copy | apply frames_alloc]. }
  intros cost Hcost.
  eapply frames_bind; [apply frames_read_counter|]. intros c _.
  eapply frames_bind.
  { instantiate (1 := fun _ => True). destruct (negb _).
    - eapply frames_bind; [by apply frames_counter_incr|].
      intros _ _. by apply frames_counter_del.
    - by apply frames_ret. }
  intros _ _. by apply frames_ret.
Qed.

Lemma frames_bucket_land (spell simple_lands other_lands : loc)
    (acc : Z * Z) (land_ref : loc) :
  (n <= simple_lands)%nat -> (n <= other_lands)%nat ->
  frames n (bucket_land spell simple_lands other_lands acc land_ref)
         (fun _ => True).
Proof.
  intros Hs Ho. unfold bucket_land. destruct acc as [plaza_count gate_colors].
  eapply frames_bind; [apply frames_read_card|]. intros land _.
  repeat match goal with
  | |- frames _ (if ?b then _ else _) _ => destruct b
  | |- frames _ (mret _) _ => by apply frames_ret
  | |- frames _ (counter_incr _ _ _) _ => by apply frames_counter_incr
  | |- frames _ (list_append _ _) _ => by apply frames_list_append
  | |- frames _ (read_card _ ≫= _) _ =>
      eapply frames_bind; [apply frames_read_card|]; intros ? _
  | |- frames _ (_ ≫= _) _ =>
      eapply frames_bind; [instantiate (1 := fun _ => True)|intros ? _]
  end.
Qed.
End Frames.

Section Frames2.
Variable n : nat.

Lemma frames_bucket_lands (spell lands : loc) :
  frames n (bucket_lands spell lands)
         (fun sl_ol => (n <= sl_ol.1)%nat /\ (n <= sl_ol.2)%nat).
Proof.
  unfold bucket_lands.
  eapply frames_bind; [apply frames_alloc|]. intros simple_lands Hs.
  eapply frames_bind; [apply frames_alloc|]. intros other_lands Ho.
  eapply frames_bind; [apply frames_read_list|]. intros items _.
  eapply frames_bind.
  { apply frames_for_fold. intros acc x. by apply frames_bucket_land. }
  intros [plaza_count gate_colors] _.
  eapply frames_bind.
  { instantiate (1 := fun _ => True).
    destruct (negb _); [by apply frames_counter_incr | by apply frames_ret]. }
  intros _ _. by apply frames_ret.
Qed.

Lemma frames_optimistic_check (cost simple_lands other_lands : loc) :
  frames n (optimistic_check cost simple_lands other_lands) (fun _ => True).
Proof.
  unfold optimistic_check.
  eapply frames_bind; [apply frames_counter_copy|]. intros oc Hoc.
  eapply frames_bind; [apply frames_counter_copy|]. intros ol Hol.
  eapply frames_bind; [apply frames_read_list|]. intros items _.
  eapply frames_bind.
  { apply frames_for_each. intros x. unfold optimistic_land.
    eapply frames_bind; [apply frames_read_card|]. intros land _.
    repeat match goal with
    | |- frames _ (if ?b then _ else _) _ => destruct b
    | |- frames _ (counter_incr _ _ _) _ => by apply frames_counter_incr
    | |- frames _ (throw _) _ => apply frames_throw
    | |- frames _ (_ ≫= _) _ =>
        eapply frames_bind; [instantiate (1 := fun _ => True)|intros ? _]
    end. }
  intros _ _. apply frames_can_cast_simple_at.
Qed.

Lemma frames_sort_lands (other_lands : loc) :
  (n <= other_lands)%nat -> frames n (sort_lands other_lands) (fun _ => True).
Proof.
  intros Ho. unfold sort_lands.
  eapply frames_bind; [apply frames_read_list|]. intros items _.
  eapply frames_bind.
  { apply frames_for_fold. intros acc r.
    eapply frames_bind; [apply frames_read_card|]. intros c _.
    by apply frames_ret. }
  intros keyed _. by apply frames_write.
Qed.

Lemma frames_state_solves (cost simple_lands : loc) (simple_land_count : Z)
    (state : SearchState) :
  frames n (state_solves cost simple_lands simple_land_count state)
         (fun _ => True).
Proof.
  unfold state_solves.
  eapply frames_bind; [apply frames_counter_copy|]. intros sl Hsl.
  eapply frames_bind; [apply frames_alloc|]. intros sfl Hsfl.
  eapply frames_bind.
  { apply frames_for_fold. intros acc [col [cnt filter_cnt]].
    eapply frames_bind; [by apply frames_counter_incr|]. intros _ _.
    eapply frames_bind; [by apply frames_counter_incr|]. intros _ _.
    by apply frames_ret. }
  intros [colored_mana colored_filter_mana] _.
  eapply frames_bind; [by apply frames_counter_incr|]. intros _ _.
  eapply frames_bind; [by apply frames_counter_incr|]. intros _ _.
  eapply frames_bind; [apply frames_can_cast_simple_at|]. intros ok _.
  destruct ok; [apply frames_can_cast_simple_at | by apply frames_ret].
Qed.

Lemma frames_search (max_colors : list Z) (total_cost : Z) (fuel : nat)
    (cost simple_lands other_lands : loc) (simple_land_count : Z)
    (vq : gset ident * Heap.AdjustableHeap (Z * Z * Z) SearchState) :
  frames n (search max_colors total_cost fuel cost simple_lands other_lands
                   simple_land_count vq) (fun _ => True).
Proof.
  revert vq. induction fuel as [|fuel IH]; intros [visited q]; cbn [search].
  - apply frames_lift.
  - destruct (Heap.nonempty q); [|by apply frames_ret].
    eapply frames_bind; [apply frames_lift|]. intros [q' state] _.
    eapply frames_bind; [apply frames_state_solves|]. intros solved _.
    destruct solved; [by apply frames_ret|].
    eapply frames_bind; [apply frames_read_list|]. intros others _.
    destruct (_ =? _); [apply IH|].
    eapply frames_bind; [apply frames_lift|]. intros land_ref _.
    eapply frames_bind; [apply frames_read_card|]. intros land _.
    eapply frames_bind; [apply frames_lift|]. intros vq' _.
    apply IH.
Qed.

Lemma frames_can_cast (fuel : nat) (spell lands : loc) (X : Z) :
  frames n (can_cast fuel spell lands X) (fun _ => True).
Proof.
  unfold can_cast.
  eapply frames_bind; [apply frames_copy_cost|]. intros cost Hcost.
  eapply frames_bind; [apply frames_bucket_lands|].
  intros [simple_lands other_lands] [Hs Ho]. cbn [fst snd] in Hs, Ho.
  eapply frames_bind; [apply frames_can_cast_simple_at|]. intros ok _.
  destruct ok; [by apply frames_ret|].
  eapply frames_bind; [apply frames_read_list|]. intros others _.
  case_bool_decide; [by apply frames_ret|].
  eapply frames_bind; [apply frames_optimistic_check|]. intros optimistic _.
  destruct (negb optimistic); [by apply frames_ret|].
  eapply frames_bind; [apply frames_read_counter|]. intros c _.
  eapply frames_bind; [apply frames_read_counter|]. intros sl _.
  eapply frames_bind; [by apply frames_sort_lands|]. intros _ _.
  eapply frames_bind; [apply frames_lift|]. intros vq _.
  apply frames_search.
Qed.
End Frames2.


(** *** Running the preprocessing *)

Ltac run_simpl :=
  cbv beta iota delta [mbind M_bind mret M_ret lift throw read_card read_list
                       read_counter read].

Section Run.
Variable pre : store.
Variable suf : store.

Lemma run_read_card (l : loc) (c : Card) :
  pre !! l = Some (OCard c) -> read_card l (pre ++ suf) = (Ok c, pre ++ suf).
Proof.
  intros H. run_simpl. rewrite (lookup_app_l_Some _ _ _ _ H). reflexivity.
Qed.

Lemma run_read_list (l : loc) (items : list loc) :
  pre !! l = Some (OList items) -> read_list l (pre ++ suf) = (Ok items, pre ++ suf).
Proof.
  intros H. run_simpl. rewrite (lookup_app_l_Some _ _ _ _ H). reflexivity.
Qed.

Lemma run_read_counter (l : loc) (c : Counter) :
  pre !! l = Some (OCounter c) -> read_counter l (pre ++ suf) = (Ok c, pre ++ suf).
Proof.
  intros H. run_simpl. rewrite (lookup_app_l_Some _ _ _ _ H). reflexivity.
Qed.
End Run.

Lemma run_write (pre suf : store) (l : loc) (o : pyobj) :
  (length pre <= l < length pre + length suf)%nat ->
  write l o (pre ++ suf) = (Ok tt, pre ++ <[(l - length pre)%nat := o]> suf).
Proof.
  intros Hl. unfold write. rewrite length_app.
  destruct (Nat.ltb_spec l (length pre + length suf)); [|lia].
  rewrite insert_app_r_alt by lia. reflexivity.
Qed.

Lemma run_counter_incr (pre : store) (sl : Counter) (ol : list loc) (k n : Z) :
  counter_incr (length pre) k n (pre ++ [OCounter sl; OList ol])
  = (Ok tt, pre ++ [OCounter (incr sl k n); OList ol]).
Proof.
  unfold counter_incr. run_simpl.
  rewrite list_lookup_middle by done. run_simpl.
  rewrite run_write by (cbn [length]; lia).
  rewrite Nat.sub_diag. reflexivity.
Qed.

Lemma run_list_append (pre : store) (sl : Counter) (ol : list loc) (x : loc) :
  list_append (S (length pre)) x (pre ++ [OCounter sl; OList ol])
  = (Ok tt, pre ++ [OCounter sl; OList (ol ++ [x])]).
Proof.
  unfold list_append. run_simpl.
  rewrite lookup_app_r by lia.
  replace (S (length pre) - length pre)%nat with 1%nat by lia.
  cbn [lookup list_lookup]. run_simpl.
  rewrite run_write by (cbn [length]; lia).
  replace (S (length pre) - length pre)%nat with 1%nat by lia. reflexivity.
Qed.

Lemma non_negative_incr (c : Counter) (k n : Z) :
  non_negative c -> 0 <= n -> non_negative (incr c k n).
Proof.
  intros Hc Hn t. rewrite get_incr. specialize (Hc t). case_bool_decide; lia.
Qed.

Lemma get_incr_ge (c : Counter) (k n t : Z) :
  0 <= n -> get c t <= get (incr c k n) t.
Proof. intros Hn. rewrite get_incr. case_bool_decide; lia. Qed.

(** One round of the walk over the lands. *)
Lemma bucket_land_run (pre : store) (sl : Counter) (ol : list loc)
    (spell land_ref : loc) (sp land : Card) (acc : Z * Z) :
  pre !! spell = Some (OCard sp) ->
  pre !! land_ref = Some (OCard land) ->
  exists acc' sl',
    bucket_land spell (length pre) (S (length pre)) acc land_ref
                (pre ++ [OCounter sl; OList ol])
    = (Ok acc', pre ++ [OCounter sl';
                        OList (ol ++ if exotic sp land then [land_ref] else [])])
    /\ (0 <= acc.1 -> 0 <= acc'.1)
    /\ (non_negative sl -> non_negative sl')
    /\ get sl 0 + (if is_beacon land && negb (is_planeswalker sp) then 1 else 0)
       <= get sl' 0.
Proof.
  intros Hsp Hland. destruct acc as [plaza_count gate_colors].
  unfold bucket_land, exotic, is_beacon, is_planeswalker.
  unfold mbind at 1, M_bind at 1. rewrite (run_read_card _ _ _ _ Hland).
  cbv beta iota.
  destruct (land_type land) as [[]|];
    cbn [bool_decide decide_rel orb existsb SIMPLE_LAND_TYPES];
    try (vm_compute (bool_decide _)); cbn [orb andb negb].
  all: unfold mbind, M_bind; rewrite ?(run_read_card _ _ _ _ Hsp); cbv beta iota.
  all: repeat match goal with
       | |- context [str_in ?a ?b] => destruct (str_in a b)
       end; cbn [orb andb negb].
  all: rewrite ?run_counter_incr, ?run_list_append, ?app_nil_r;
       cbv beta iota delta [mret M_ret].
  all: eexists _, _; (split; [reflexivity|]); cbn [fst snd]; (split; [|split]);
       [ lia
       | first [done | intros; apply non_negative_incr; [done | lia]]
       | first [lia | rewrite get_incr; case_bool_decide; lia] ].
Qed.

(** The walk over the lands, from any state of its locals. *)
Lemma bucket_walk_run (pre : store) (spell : loc) (sp : Card) (items : list loc) :
  pre !! spell = Some (OCard sp) ->
  all_cards pre items ->
  forall (acc : Z * Z) (sl : Counter) (ol : list loc),
  exists acc' sl',
    for_fold items (bucket_land spell (length pre) (S (length pre))) acc
             (pre ++ [OCounter sl; OList ol])
    = (Ok acc',
       pre ++ [OCounter sl';
               OList (ol ++ map fst (List.filter (fun rc => exotic sp rc.2)
                                                 (cards_at pre items)))])
    /\ (0 <= acc.1 -> 0 <= acc'.1)
    /\ (non_negative sl -> non_negative sl')
    /\ get sl 0 + (if is_planeswalker sp then 0
                   else Z.of_nat (length (List.filter (fun rc => is_beacon rc.2)
                                                      (cards_at pre items))))
       <= get sl' 0.
Proof.
  intros Hsp Hall. induction Hall as [|r items [land Hland] Hall IH]; intros acc sl ol.
  - exists acc, sl. cbn. rewrite app_nil_r. repeat split; try done.
    destruct (is_planeswalker sp); lia.
  - destruct (bucket_land_run pre sl ol spell r sp land acc Hsp Hland)
      as (acc1 & sl1 & E1 & P1 & N1 & G1).
    destruct (IH acc1 sl1 (ol ++ if exotic sp land then [r] else []))
      as (acc2 & sl2 & E2 & P2 & N2 & G2).
    exists acc2, sl2. cbn [for_fold]. unfold mbind, M_bind. rewrite E1.
    cbv beta iota. rewrite E2. unfold cards_at. cbn [omap list_omap].
    rewrite Hland. cbn [omap list_omap List.filter snd fst].
    fold (cards_at pre items).
    split; [|split; [|split]].
    + f_equal. f_equal. f_equal. f_equal. rewrite <- app_assoc. f_equal.
      destruct (exotic sp land); reflexivity.
    + tauto.
    + tauto.
    + destruct (is_planeswalker sp), (is_beacon land);
        cbn [andb negb length] in *; lia.
Qed.

Lemma all_cards_app (s suf : store) (items : list loc) :
  all_cards s items -> all_cards (s ++ suf) items.
Proof.
  unfold all_cards. intros H. eapply Forall_impl; [exact H|].
  intros r [c Hc]. exists c. by apply lookup_app_l_Some.
Qed.

Lemma cards_at_app (s suf : store) (items : list loc) :
  all_cards s items -> cards_at (s ++ suf) items = cards_at s items.
Proof.
  intros H. induction H as [|r items [c Hc] _ IH]; [done|].
  unfold cards_at in *. cbn [omap list_omap].
  rewrite (lookup_app_l_Some _ _ _ _ Hc), Hc, IH. reflexivity.
Qed.

(** Lines 147-179 on a store where [spell] is a card and [lands] a list of
    cards: two objects are made, the counter [simple_lands] and the list
    [other_lands]. *)
Lemma bucket_lands_run (s : store) (spell lands : loc) (sp : Card)
    (items : list loc) :
  s !! spell = Some (OCard sp) ->
  s !! lands = Some (OList items) ->
  all_cards s items ->
  exists sl,
    bucket_lands spell lands s
    = (Ok (length s, S (length s)),
       s ++ [OCounter sl;
             OList (map fst (List.filter (fun rc => exotic sp rc.2)
                                         (cards_at s items)))])
    /\ non_negative sl
    /\ (if is_planeswalker sp then 0
        else Z.of_nat (length (List.filter (fun rc => is_beacon rc.2)
                                           (cards_at s items))))
       <= get sl 0.
Proof.
  intros Hsp Hlands Hall.
  destruct (bucket_walk_run s spell sp items Hsp Hall (0, 0) ∅ [])
    as ([plaza_count gate_colors] & sl & E & P & N & G).
  cbn [fst] in P. rewrite get_empty in G. cbn [app] in E.
  assert (N0 : non_negative ∅) by (intros t; rewrite get_empty; lia).
  unfold bucket_lands, alloc. run_simpl.
  rewrite <- app_assoc. cbn [app].
  rewrite (lookup_app_l_Some _ _ _ _ Hlands). run_simpl.
  rewrite length_app. cbn [length].
  replace (length s + 1)%nat with (S (length s)) by lia.
  rewrite E. cbv beta iota.
  destruct (Z.eqb_spec plaza_count 0) as [->|Hp]; cbn [negb].
  - run_simpl. exists sl. repeat split; [by apply N | lia].
  - rewrite run_counter_incr. run_simpl.
    exists (incr sl gate_colors plaza_count). repeat split.
    + apply non_negative_incr; [by apply N | lia].
    + pose proof (get_incr_ge sl gate_colors plaza_count 0). lia.
Qed.


(** *** The claims about the oracle and [can_cast] *)

(** C8. [can_cast_simple] is monotone in the land pool: if it answers yes
    for [cost], [lands] and [offset], it answers yes after one more land of
    any colour set [s] is added to [lands]. *)
Theorem can_cast_simple_monotone_lands (cost lands : Counter) (offset s : Z) :
  can_cast_simple cost lands offset = Ok true ->
  can_cast_simple cost (incr lands s 1) offset = Ok true.
Proof.
  rewrite !can_cast_simple_spec. intros H. f_equal.
  apply hall_test_incr; [lia | congruence].
Qed.
(** C10. For a spell whose cost has zero pips of every colour set,
    [can_cast] returns yes for every list of lands and every [X], without
    entering the search: the fast path accepts, whatever [fuel]. *)
Theorem can_cast_zero_cost (fuel : nat) (s : store) (spell lands : loc)
    (sp : Card) (items : list loc) (X : Z) :
  s !! spell = Some (OCard sp) ->
  match cost sp with
  | Some cl => exists c, s !! cl = Some (OCounter c) /\ forall t, get c t = 0
  | None => True
  end ->
  s !! lands = Some (OList items) ->
  all_cards s items ->
  (can_cast fuel spell lands X s).1 = Ok true.
Proof.
  intros Hsp Hcost Hlands Hall.
  assert (exists c, copy_cost spell X s = (Ok (length s), s ++ [OCounter c])
                    /\ forall t, get c t = 0) as (c & Ecopy & Hc).
  { unfold copy_cost. run_simpl. rewrite Hsp. cbv beta iota.
    destruct (cost sp) as [cl|].
    - destruct Hcost as (c & Hcl & Hc). exists c. split; [|exact Hc].
      unfold counter_copy, alloc. run_simpl. rewrite Hcl. cbv beta iota.
      rewrite list_lookup_middle by done. cbv beta iota.
      rewrite Hc. cbn [Z.eqb negb]. reflexivity.
    - exists ∅. split; [|apply get_empty].
      unfold alloc. cbv beta iota.
      rewrite list_lookup_middle by done. cbv beta iota.
      rewrite get_empty. cbn [Z.eqb negb]. reflexivity. }
  set (s1 := s ++ [OCounter c]) in *.
  destruct (bucket_lands_run s1 spell lands sp items) as (sl & Eb & Nsl & _).
  { by apply lookup_app_l_Some. }
  { by apply lookup_app_l_Some. }
  { by apply all_cards_app. }
  unfold can_cast. run_simpl. rewrite Ecopy. cbv beta iota.
  rewrite Eb. cbv beta iota.
  unfold can_cast_simple_at. run_simpl.
  assert (L1 : (s1 ++ [OCounter sl; OList (map fst (List.filter (fun rc => exotic sp rc.2) (cards_at s1 items)))]) !! length s = Some (OCounter c)).
  { apply lookup_app_l_Some. unfold s1. by rewrite list_lookup_middle. }
  rewrite L1. cbv beta iota.
  replace (S (length s)) with (length s1) by (unfold s1; rewrite length_app; cbn; lia).
  rewrite (list_lookup_middle s1 _ _ (length s1)) by done. cbv beta iota.
  rewrite can_cast_simple_spec, hall_test_zero_cost by done.
  reflexivity.
Qed.

(** C1, at a failing input.  With cost [{W}{U}{B}{R}{G}] and five lands,
    four of any colour and one colourless, [can_cast_simple] answers yes,
    but no assignment of the five coloured pips to the lands exists: the
    colourless land pays none of them. *)
Theorem can_cast_simple_overcounts_colorless :
  sum (map snd (map_to_list four_towers_and_zone)) = 5
  /\ can_cast_simple wubrg four_towers_and_zone 0 = Ok true
  /\ brute_force_match wubrg four_towers_and_zone = false.
Proof. vm_compute. done. Qed.

(** C2. [can_cast] of "Nicol Bolas, Dragon-God", cost [{U}{B}{B}{R}], with
    three Interplanar Beacons, a Mountain and two Islands returns yes: the
    search finds a solution in its third round. *)
Theorem can_cast_bolas_three_beacons (subtypes : list string)
    (spell_colors beacon_colors : Z) :
  (can_cast 3 1%nat 5%nat 0 (bolas_store subtypes spell_colors beacon_colors)).1
  = Ok true.
Proof. vm_compute. reflexivity. Qed.

(** C9. [can_cast] does not change its inputs: whatever [fuel], however
    the call ends, every object that was in the store before the call (the
    [Counter] of [spell.cost], the list [lands], every card) is the same
    object after it; the call only adds objects of its own. *)
Theorem can_cast_preserves_inputs (fuel : nat) (spell lands : loc) (X : Z)
    (s : store) :
  unchanged s (can_cast fuel spell lands X s).2
  /\ exists fresh, (can_cast fuel spell lands X s).2 = s ++ fresh.
Proof.
  destruct (frames_can_cast (length s) fuel spell lands X s (le_n _)) as (H1 & H2 & _).
  assert (E : (can_cast fuel spell lands X s).2
              = s ++ drop (length s) (can_cast fuel spell lands X s).2).
  { rewrite <- (take_drop (length s) (can_cast fuel spell lands X s).2) at 1.
    rewrite H1. by rewrite firstn_all. }
  split; [|eauto].
  intros l o Hl. rewrite E. by apply lookup_app_l_Some.
Qed.

(** C3 as stated fails: for a spell that is not a Planeswalker, the walk
    leaves [other_lands] empty and counts the Beacon in [simple_lands], as
    a producer of no colour. *)
Lemma beacon_is_simple_for_creature :
  bucket_lands 1%nat 3%nat bear_store
  = (Ok (4%nat, 5%nat), bear_store ++ [OCounter {[ 0 := 1 ]}; OList []]).
Proof. vm_compute. reflexivity. Qed.

Lemma elem_of_cards_at (s : store) (items : list loc) (r : loc) (c : Card) :
  (r, c) ∈ cards_at s items <-> r ∈ items /\ s !! r = Some (OCard c).
Proof.
  unfold cards_at. rewrite list_elem_of_omap. split.
  - intros (x & Hx & E). destruct (s !! x) as [[| |c']|] eqn:Es; try discriminate.
    injection E as <- <-. done.
  - intros [Hr Hs]. exists r. rewrite Hs. done.
Qed.

(** C3, amended.  On a store where [spell] is a card and [lands] a list of
    cards, the walk of [can_cast] makes the counter [simple_lands] and the
    list [other_lands]; a land of type BEACON is in [other_lands] exactly
    when the spell is a Planeswalker, and when it is not, every BEACON is
    counted in [simple_lands[0]]. *)
Theorem beacon_bucketing (s : store) (spell lands : loc) (sp : Card)
    (items : list loc) :
  s !! spell = Some (OCard sp) ->
  s !! lands = Some (OList items) ->
  all_cards s items ->
  exists sl ol,
    bucket_lands spell lands s
    = (Ok (length s, S (length s)), s ++ [OCounter sl; OList ol])
    /\ (forall r land, r ∈ items -> s !! r = Some (OCard land) ->
          land_type land = Some BEACON ->
          (r ∈ ol <-> is_planeswalker sp = true))
    /\ (is_planeswalker sp = false ->
          Z.of_nat (length (List.filter (fun rc => is_beacon rc.2) (cards_at s items)))
          <= get sl 0).
Proof.
  intros Hsp Hlands Hall.
  destruct (bucket_lands_run s spell lands sp items Hsp Hlands Hall)
    as (sl & E & _ & G).
  eexists sl, _. split; [exact E|]. split.
  - intros r land Hr Hland Hb. rewrite list_elem_of_fmap. split.
    + intros ([r' c] & -> & Hin). cbn [fst] in *.
      apply list_elem_of_In, filter_In in Hin. destruct Hin as [Hin Hex].
      apply list_elem_of_In, elem_of_cards_at in Hin. destruct Hin as [_ Hc].
      rewrite Hland in Hc. injection Hc as <-.
      cbn [snd] in Hex. unfold exotic in Hex. rewrite Hb in Hex. exact Hex.
    + intros Hpw. exists (r, land). split; [done|].
      apply list_elem_of_In, filter_In. split.
      * apply list_elem_of_In, elem_of_cards_at. done.
      * cbn [snd]. unfold exotic. rewrite Hb. exact Hpw.
  - intros Hpw. rewrite Hpw in G. exact G.
Qed.

Lemma beacon_bucketing_witness :
  exists sl ol,
    bucket_lands 1%nat 3%nat bear_store
    = (Ok (4%nat, 5%nat), bear_store ++ [OCounter sl; OList ol])
    /\ (forall r land, r ∈ [2%nat] -> bear_store !! r = Some (OCard land) ->
          land_type land = Some BEACON ->
          (r ∈ ol <-> is_planeswalker
                        (mkCard "Grizzly Bears" ["Creature"] ["Bear"] (Some 0%nat) None 16) = true))
    /\ (is_planeswalker (mkCard "Grizzly Bears" ["Creature"] ["Bear"] (Some 0%nat) None 16) = false ->
          Z.of_nat (length (List.filter (fun rc => is_beacon rc.2) (cards_at bear_store [2%nat])))
          <= get sl 0).
Proof.
  apply (beacon_bucketing bear_store 1%nat 3%nat
           (mkCard "Grizzly Bears" ["Creature"] ["Bear"] (Some 0%nat) None 16) [2%nat]).
  - reflexivity.
  - reflexivity.
  - repeat constructor. eexists. reflexivity.
Defined.

Lemma can_cast_zero_cost_witness :
  (can_cast 0 1%nat 3%nat 7
     [ OCounter {[ 31 := 0 ]};
       OCard (mkCard "Memnite" ["Creature"] ["Construct"] (Some 0%nat) None 0);
       OCard (mkCard "Interplanar Beacon" ["Land"] [] None (Some BEACON) 0);
       OList [2%nat; 2%nat] ]).1 = Ok true.
Proof.
  apply (can_cast_zero_cost 0 _ 1%nat 3%nat
           (mkCard "Memnite" ["Creature"] ["Construct"] (Some 0%nat) None 0)
           [2%nat; 2%nat] 7).
  - reflexivity.
  - cbn [cost]. eexists. split; [reflexivity|].
    intros t. unfold get. destruct (decide (t = 31)) as [->|Ht].
    + reflexivity.
    + rewrite lookup_singleton_ne by congruence. reflexivity.
  - reflexivity.
  - repeat constructor; eexists; reflexivity.
Defined.

Lemma can_cast_simple_monotone_lands_witness :
  can_cast_simple (list_to_map [(8,3)]) (incr (list_to_map [(8,3)]) 16 1) 0 = Ok true.
Proof.
  apply (can_cast_simple_monotone_lands (list_to_map [(8,3)]) (list_to_map [(8,3)]) 0 16).
  vm_compute. reflexivity.
Defined.

End MtgFacts.
(** ** The heap *)

Module HeapFacts.
Import Heap HeapSpec.

Section Order.
Context {TK : Type}.
Variable lt : TK -> TK -> bool.

Hypothesis order : strict_weak_order lt.

Lemma parent_of_lt (c : nat) : (0 < c)%nat -> (parent_of c < c)%nat.
Proof.
  unfold parent_of. intros H.
  pose proof (Nat.div_mod_eq (c + 1) 2).
  pose proof (Nat.mod_upper_bound (c + 1) 2). lia.
Qed.

Lemma parent_of_child (c j : nat) :
  (0 < c)%nat -> parent_of c = j <-> c = (2 * j + 1)%nat \/ c = (2 * j + 2)%nat.
Proof.
  unfold parent_of. intros H.
  pose proof (Nat.div_mod_eq (c + 1) 2).
  pose proof (Nat.mod_upper_bound (c + 1) 2). lia.
Qed.

Lemma le_of_lt (a b : TK) : lt a b = true -> le lt a b.
Proof. apply (lt_asym lt order). Qed.

Lemma all_keys_lookup (ks : list (option TK)) (i : nat) :
  all_keys ks -> (i < length ks)%nat -> exists k, ks !! i = Some (Some k).
Proof.
  intros H Hi. destruct (lookup_lt_is_Some_2 ks i Hi) as [x Hx].
  destruct (proj1 (Forall_lookup _ _) H i x Hx) as [k ->]. eauto.
Qed.

Lemma ordered_except_insert (ks : list (option TK)) (j : nat) (x : option TK) :
  ordered lt ks -> all_keys ks -> (j < length ks)%nat ->
  ordered_except lt (<[j := x]> ks) j.
Proof.
  intros Ho Hk Hj. split.
  - intros c Hc Hcj Hpj kp kc. rewrite !list_lookup_insert_ne by done. by apply Ho.
  - intros c H0 Hc Hp kp kc.
    pose proof (parent_of_lt j H0). pose proof (parent_of_lt c Hc).
    rewrite !list_lookup_insert_ne by lia. intros Hkp Hkc.
    destruct (all_keys_lookup ks j Hk Hj) as [kj Hkj].
    eapply (le_trans lt order).
    + eapply (Ho j H0); eauto.
    + eapply (Ho c Hc); [rewrite Hp|]; eauto.
Qed.

Lemma ordered_except_snoc (ks : list (option TK)) (x : option TK) :
  ordered lt ks -> ordered_except lt (ks ++ [x]) (length ks).
Proof.
  intros Ho. split.
  - intros c Hc Hcj Hpj kp kc Hkp Hkc.
    assert (c < length ks)%nat.
    { apply lookup_lt_Some in Hkc. rewrite length_app in Hkc. cbn in Hkc. lia. }
    pose proof (parent_of_lt c Hc).
    rewrite lookup_app_l in Hkp, Hkc by lia. by eapply Ho.
  - intros c H0 Hc Hp kp kc _ Hkc.
    apply lookup_lt_Some in Hkc. rewrite length_app in Hkc. cbn in Hkc.
    apply parent_of_child in Hp; lia.
Qed.

Lemma ordered_take (ks : list (option TK)) (n : nat) :
  ordered lt ks -> ordered lt (take n ks).
Proof.
  intros Ho c Hc kp kc Hkp Hkc.
  apply lookup_take_Some in Hkp, Hkc. eapply Ho; [done| |]; tauto.
Qed.

(** One round of bubbling up: the key [k] at [j] is smaller than the key
    [kp] of its parent, and they change places. *)
Lemma ordered_except_up (ks : list (option TK)) (j : nat) (k kp : TK) :
  ordered_except lt ks j -> (0 < j)%nat ->
  ks !! j = Some (Some k) -> ks !! parent_of j = Some (Some kp) ->
  lt k kp = true ->
  ordered_except lt (<[parent_of j := Some k]> (<[j := Some kp]> ks)) (parent_of j).
Proof.
  intros [E1 E2] Hj Hk Hkp Hlt.
  pose proof (parent_of_lt j Hj) as Hpj.
  assert (Lj : (j < length ks)%nat) by (by eapply lookup_lt_Some).
  split.
  - intros c Hc Hcp Hpp x y.
    pose proof (parent_of_lt c Hc).
    rewrite (list_lookup_insert_ne _ (parent_of j) (parent_of c)) by done.
    rewrite (list_lookup_insert_ne _ (parent_of j) c) by done.
    destruct (decide (c = j)) as [->|Hcj]; [done|].
    rewrite (list_lookup_insert_ne _ j c) by done.
    destruct (decide (parent_of c = j)) as [Hpc|Hpc].
    + rewrite Hpc, list_lookup_insert_eq by done. intros [= <-] Hy.
      eapply (E2 c); eauto.
    + rewrite list_lookup_insert_ne by done. by apply E1.
  - intros c Hp0 Hc Hpc x y.
    pose proof (parent_of_lt _ Hp0).
    rewrite (list_lookup_insert_ne _ (parent_of j) (parent_of (parent_of j))) by lia.
    rewrite (list_lookup_insert_ne _ j (parent_of (parent_of j))) by lia.
    assert (c <> parent_of j) by (pose proof (parent_of_lt c Hc); lia).
    rewrite (list_lookup_insert_ne _ (parent_of j) c) by done.
    intros Hx Hy.
    assert (G : le lt x kp) by (eapply (E1 (parent_of j)); eauto; lia).
    destruct (decide (c = j)) as [->|Hcj].
    + rewrite list_lookup_insert_eq in Hy by done. by injection Hy as <-.
    + rewrite list_lookup_insert_ne in Hy by done.
      eapply (le_trans lt order); [exact G|].
      eapply (E1 c); eauto; [lia | by rewrite Hpc].
Qed.

(** One round of bubbling down: the child at [m] has the least key [km] of
    the children of [j], the key [k] at [j] is not smaller, and they
    change places. *)
Lemma ordered_except_down (ks : list (option TK)) (j m : nat) (k km : TK) :
  ordered_except lt ks j -> (0 < m)%nat -> parent_of m = j ->
  ks !! j = Some (Some k) -> ks !! m = Some (Some km) ->
  (forall c, (0 < c)%nat -> parent_of c = j -> edge lt ks m c) ->
  ordered_except lt (<[m := Some k]> (<[j := Some km]> ks)) m.
Proof.
  intros [E1 E2] Hm Hpm Hk Hkm Hmin.
  pose proof (parent_of_lt m Hm) as Hlt.
  assert (Lj : (j < length ks)%nat) by (by eapply lookup_lt_Some).
  split.
  - intros c Hc Hcm Hpc x y.
    rewrite (list_lookup_insert_ne _ m (parent_of c)) by done.
    rewrite (list_lookup_insert_ne _ m c) by done.
    destruct (decide (c = j)) as [->|Hcj].
    + rewrite list_lookup_insert_eq by done.
      pose proof (parent_of_lt j Hc).
      rewrite list_lookup_insert_ne by lia. intros Hx [= <-].
      eapply (E2 m); eauto.
    + rewrite (list_lookup_insert_ne _ j c) by done.
      destruct (decide (parent_of c = j)) as [Hpcj|Hpcj].
      * rewrite Hpcj, list_lookup_insert_eq by done. intros [= <-] Hy.
        eapply (Hmin c); eauto.
      * rewrite list_lookup_insert_ne by done. by apply E1.
  - intros c _ Hc Hpc x y. rewrite Hpm.
    rewrite (list_lookup_insert_ne _ m j) by lia.
    rewrite list_lookup_insert_eq by done.
    assert (c <> m) by (pose proof (parent_of_lt c Hc); lia).
    assert (c <> j) by (pose proof (parent_of_lt c Hc); lia).
    rewrite !list_lookup_insert_ne by done.
    intros [= <-] Hy. eapply (E1 c); eauto; [lia | by rewrite Hpc].
Qed.

(** The key at [j] fits: its parent is not larger and its children are
    not smaller. *)
Lemma ordered_except_done (ks : list (option TK)) (j : nat) :
  ordered_except lt ks j ->
  (j = 0%nat \/ edge lt ks (parent_of j) j) ->
  (forall c, (0 < c)%nat -> parent_of c = j -> edge lt ks j c) ->
  ordered lt ks.
Proof.
  intros [E1 E2] Hup Hdown c Hc.
  destruct (decide (c = j)) as [->|Hcj]; [destruct Hup; [lia | done]|].
  destruct (decide (parent_of c = j)) as [Hp|Hp]; [rewrite Hp; by apply Hdown|].
  by apply E1.
Qed.

End Order.

Section Adjust.
Context {TK TV : Type}.
Variable key_func : TV -> TK.
Variable lt : TK -> TK -> bool.
Hypothesis order : strict_weak_order lt.

Implicit Types (h : AdjustableHeap TK TV) (objs : list (AdjustableHeapKey TK TV))
  (a : list handle) (key : handle) (o : AdjustableHeapKey TK TV).

Lemma nth_item_Some {A} (l : list A) (i : nat) (x : A) :
  l !! i = Some x -> nth_item l i = Ok x.
Proof. unfold nth_item. by intros ->. Qed.

Lemma set_nth_item_lt {A} (l : list A) (i : nat) (x : A) :
  (i < length l)%nat -> set_nth_item l i x = Ok (<[i := x]> l).
Proof. unfold set_nth_item. intros H. by destruct (Nat.ltb_spec i (length l)); [|lia]. Qed.

Lemma deref_Some objs key o : objs !! key = Some o -> deref objs key = Ok o.
Proof. unfold deref. by intros ->. Qed.

Lemma set_index_Some objs key o (i : nat) :
  objs !! key = Some o ->
  set_index objs key i = Ok (<[key := mkKey (val o) (comp_key o) i]> objs).
Proof. unfold set_index. intros H. by rewrite (deref_Some _ _ _ H). Qed.

Lemma ck_set_index objs key o (i : nat) (x : handle) :
  objs !! key = Some o ->
  ck (<[key := mkKey (val o) (comp_key o) i]> objs) x = ck objs x.
Proof.
  intros H. unfold ck. destruct (decide (x = key)) as [->|Hx].
  - rewrite list_lookup_insert_eq by (by eapply lookup_lt_Some). by rewrite H.
  - by rewrite list_lookup_insert_ne.
Qed.

Lemma keys_of_set_index objs key o (i : nat) a :
  objs !! key = Some o ->
  keys_of (<[key := mkKey (val o) (comp_key o) i]> objs) a = keys_of objs a.
Proof.
  intros H. unfold keys_of. apply list_fmap_ext. intros _ x _. by apply ck_set_index.
Qed.

Lemma data_of_set_index objs key o (i : nat) :
  objs !! key = Some o ->
  data_of (<[key := mkKey (val o) (comp_key o) i]> objs) = data_of objs.
Proof.
  intros H. unfold data_of. rewrite list_fmap_insert. cbn.
  apply list_insert_id. by rewrite list_lookup_fmap, H.
Qed.

Lemma keys_of_insert objs a (i : nat) (x : handle) :
  keys_of objs (<[i := x]> a) = <[i := ck objs x]> (keys_of objs a).
Proof. unfold keys_of. apply list_fmap_insert. Qed.

Lemma keys_of_lookup objs a (i : nat) (x : handle) o :
  a !! i = Some x -> objs !! x = Some o ->
  keys_of objs a !! i = Some (Some (comp_key o)).
Proof.
  intros Ha Ho. unfold keys_of, ck. by rewrite list_lookup_fmap, Ha; cbn; rewrite Ho.
Qed.

Lemma vkeys_hole h key (j : nat) o :
  (j < length (heap h))%nat -> objects h !! key = Some o ->
  vkeys h key j !! j = Some (Some (comp_key o)).
Proof.
  intros Hj Ho. unfold vkeys. eapply keys_of_lookup; [|done].
  by apply list_lookup_insert_eq.
Qed.

Lemma vkeys_other h key (j pos : nat) (hd : handle) o :
  pos <> j -> heap h !! pos = Some hd -> objects h !! hd = Some o ->
  vkeys h key j !! pos = Some (Some (comp_key o)).
Proof.
  intros Hp Hh Ho. unfold vkeys. eapply keys_of_lookup; [|done].
  by rewrite list_lookup_insert_ne.
Qed.

(** Moving the handle at [m] into the hole [j]: the keys trade places. *)
Lemma vkeys_move h key (j m : nat) (hd : handle) o om :
  m <> j -> (j < length (heap h))%nat ->
  heap h !! m = Some hd -> objects h !! hd = Some om ->
  objects h !! key = Some o ->
  vkeys (mkHeap (<[j := hd]> (heap h))
                (<[hd := mkKey (val om) (comp_key om) j]> (objects h))) key m
  = <[m := Some (comp_key o)]> (<[j := Some (comp_key om)]> (vkeys h key j)).
Proof.
  intros Hm Hj Hh Hom Ho. unfold vkeys. cbn [heap objects].
  rewrite keys_of_set_index by done.
  rewrite !keys_of_insert. unfold ck at 1 2 3. rewrite Ho, Hom. cbn.
  rewrite list_insert_insert_eq. reflexivity.
Qed.

Lemma tracked_except_move h key (j m : nat) (hd : handle) om :
  tracked_except h key j -> m <> j ->
  heap h !! m = Some hd -> objects h !! hd = Some om ->
  tracked_except (mkHeap (<[j := hd]> (heap h))
                         (<[hd := mkKey (val om) (comp_key om) j]> (objects h)))
                 key m.
Proof.
  intros (Hj & [o Ho] & Ht) Hm Hh Hom. unfold tracked_except. cbn [heap objects].
  destruct (Ht m hd Hm Hh) as (Hne & om' & Hom' & Him).
  assert (om' = om) as -> by congruence.
  assert (Lm : (m < length (heap h))%nat) by (by eapply lookup_lt_Some).
  assert (Lh : (hd < length (objects h))%nat) by (by eapply lookup_lt_Some).
  split; [by rewrite length_insert|]. split.
  { rewrite list_lookup_insert_ne by done. eauto. }
  intros pos x Hpos. destruct (decide (pos = j)) as [->|Hpj].
  - rewrite list_lookup_insert_eq by done. intros [= <-]. split; [done|].
    eexists. rewrite list_lookup_insert_eq by done. split; [done|]. reflexivity.
  - rewrite list_lookup_insert_ne by done. intros Hx.
    destruct (Ht pos x Hpj Hx) as (Hxk & ox & Hox & Hix). split; [done|].
    exists ox. split; [|done]. rewrite list_lookup_insert_ne; [done|].
    intros ->. assert (ox = om) as -> by congruence. lia.
Qed.

Lemma elem_of_move a key (j m : nat) (hd x : handle) :
  m <> j -> (j < length a)%nat -> a !! m = Some hd ->
  x ∈ <[m := key]> (<[j := hd]> a) -> x ∈ <[j := key]> a.
Proof.
  intros Hm Hj Hh Hx. apply list_elem_of_lookup in Hx as [pos Hpos].
  assert (Lm : (m < length a)%nat) by (by eapply lookup_lt_Some).
  apply list_elem_of_lookup.
  destruct (decide (pos = m)) as [->|Hpm].
  - rewrite list_lookup_insert_eq in Hpos by (by rewrite length_insert).
    injection Hpos as <-. exists j. by rewrite list_lookup_insert_eq.
  - rewrite list_lookup_insert_ne in Hpos by done.
    destruct (decide (pos = j)) as [->|Hpj].
    + rewrite list_lookup_insert_eq in Hpos by done. injection Hpos as <-.
      exists m. by rewrite list_lookup_insert_ne.
    + rewrite list_lookup_insert_ne in Hpos by done.
      exists pos. by rewrite list_lookup_insert_ne.
Qed.

Lemma moved_refl h key (j : nat) : tracked_except h key j -> moved h key j h j.
Proof. intros H. split; [done|]. split; [done|]. split; done. Qed.

Lemma moved_step h key (j m : nat) (hd : handle) om h' (j' : nat) :
  tracked_except h key j -> m <> j ->
  heap h !! m = Some hd -> objects h !! hd = Some om ->
  moved (mkHeap (<[j := hd]> (heap h))
                (<[hd := mkKey (val om) (comp_key om) j]> (objects h))) key m h' j' ->
  moved h key j h' j'.
Proof.
  intros Ht Hm Hh Hom (T & L & D & E). cbn [heap objects] in *.
  split; [done|]. split; [by rewrite L, length_insert|].
  split; [by rewrite D, data_of_set_index|].
  intros x Hx. eapply elem_of_move; [done | apply Ht | done | by apply E].
Qed.

Lemma bubble_up_spec key (fuel : nat) :
  forall h (j : nat),
  (j < fuel)%nat ->
  tracked_except h key j ->
  ordered_except lt (vkeys h key j) j ->
  exists h' j',
    bubble_up lt fuel h key j = Ok (h', j')
    /\ moved h key j h' j'
    /\ ordered_except lt (vkeys h' key j') j'
    /\ (j' = 0%nat \/ edge lt (vkeys h' key j') (parent_of j') j').
Proof.
  induction fuel as [|fuel IH]; intros h j Hfuel Ht Ho; [lia|].
  cbn [bubble_up]. destruct (Nat.ltb_spec 0 j) as [Hj|Hj].
  2:{ exists h, j. split; [done|]. split; [by apply moved_refl|]. split; [done|]. left; lia. }
  pose proof (parent_of_lt j Hj) as Hpj.
  destruct Ht as (Lj & [o Hkey] & Htr).
  destruct (lookup_lt_is_Some_2 (heap h) (parent_of j)) as [hd Hhd]; [lia|].
  destruct (Htr (parent_of j) hd ltac:(lia) Hhd) as (Hne & op & Hop & Hip).
  rewrite (nth_item_Some _ _ _ Hhd). cbn [mbind result_bind].
  rewrite (deref_Some _ _ _ Hkey), (deref_Some _ _ _ Hop). cbn [mbind result_bind].
  pose proof (vkeys_hole h key j o Lj Hkey) as Vj.
  pose proof (vkeys_other h key j (parent_of j) hd op ltac:(lia) Hhd Hop) as Vp.
  destruct (lt (comp_key o) (comp_key op)) eqn:Hlt; cbn [negb].
  - rewrite (set_nth_item_lt _ _ _ Lj), (set_index_Some _ _ _ _ Hop).
    cbn [mbind result_bind].
    assert (Ht : tracked_except h key j) by (split; [done|split; eauto]).
    destruct (IH _ (parent_of j) ltac:(lia)
                 (tracked_except_move h key j (parent_of j) hd op Ht ltac:(lia) Hhd Hop))
      as (h' & j' & E & M & O & U).
    { rewrite (vkeys_move h key j (parent_of j) hd o op) by (done || lia).
      by apply ordered_except_up. }
    exists h', j'. split; [done|]. split; [|done].
    apply (moved_step h key j (parent_of j) hd op); [done | lia | done | done | exact M].
  - exists h, j. split; [done|]. split.
    { apply moved_refl. split; [done|split; eauto]. }
    split; [done|]. right. intros kp kc. rewrite Vj, Vp. intros [= <-] [= <-]. exact Hlt.
Qed.

Lemma le_refl_key (k : TK) : le lt k k.
Proof.
  unfold le. destruct (lt k k) eqn:E; [|done].
  by rewrite (lt_asym lt order _ _ E) in E.
Qed.

Lemma min_child_spec h key (j : nat) :
  tracked_except h key j -> (2 * j + 1 < length (heap h))%nat ->
  exists (m : nat) (hd : handle) om,
    min_child lt h j = Ok m
    /\ (0 < m)%nat /\ parent_of m = j
    /\ heap h !! m = Some hd /\ objects h !! hd = Some om
    /\ (forall c, (0 < c)%nat -> parent_of c = j -> edge lt (vkeys h key j) m c).
Proof.
  intros (Lj & [o Hkey] & Htr) Hl. unfold min_child.
  destruct (lookup_lt_is_Some_2 (heap h) (j * 2 + 1)) as [hl Hhl]; [lia|].
  destruct (Htr (j * 2 + 1)%nat hl ltac:(lia) Hhl) as (_ & ol & Hol & _).
  pose proof (vkeys_other h key j (j * 2 + 1)%nat hl ol ltac:(lia) Hhl Hol) as Vl.
  destruct (Nat.ltb_spec (j * 2 + 2) (length (heap h))) as [Hr|Hr].
  - destruct (lookup_lt_is_Some_2 (heap h) (j * 2 + 2)) as [hr Hhr]; [lia|].
    destruct (Htr (j * 2 + 2)%nat hr ltac:(lia) Hhr) as (_ & or & Hor & _).
    pose proof (vkeys_other h key j (j * 2 + 2)%nat hr or ltac:(lia) Hhr Hor) as Vr.
    rewrite (nth_item_Some _ _ _ Hhl), (nth_item_Some _ _ _ Hhr).
    cbn [mbind result_bind].
    rewrite (deref_Some _ _ _ Hol), (deref_Some _ _ _ Hor).
    cbn [mbind result_bind].
    destruct (lt (comp_key or) (comp_key ol)) eqn:Hlt.
    + exists (j * 2 + 2)%nat, hr, or. split; [done|]. split; [lia|].
      split; [apply parent_of_child; lia|]. split; [done|]. split; [done|].
      intros c Hc Hp. apply parent_of_child in Hp; [|done]. destruct Hp as [-> | ->].
      * replace (2 * j + 1)%nat with (j * 2 + 1)%nat by lia.
        intros kp kc. rewrite Vl, Vr. intros [= <-] [= <-]. by apply le_of_lt.
      * replace (2 * j + 2)%nat with (j * 2 + 2)%nat by lia.
        intros kp kc. rewrite Vr. intros [= <-] [= <-]. apply le_refl_key.
    + exists (j * 2 + 1)%nat, hl, ol. split; [done|]. split; [lia|].
      split; [apply parent_of_child; lia|]. split; [done|]. split; [done|].
      intros c Hc Hp. apply parent_of_child in Hp; [|done]. destruct Hp as [-> | ->].
      * replace (2 * j + 1)%nat with (j * 2 + 1)%nat by lia.
        intros kp kc. rewrite Vl. intros [= <-] [= <-]. apply le_refl_key.
      * replace (2 * j + 2)%nat with (j * 2 + 2)%nat by lia.
        intros kp kc. rewrite Vl, Vr. intros [= <-] [= <-]. exact Hlt.
  - exists (j * 2 + 1)%nat, hl, ol. split; [done|]. split; [lia|].
    split; [apply parent_of_child; lia|]. split; [done|]. split; [done|].
    intros c Hc Hp. apply parent_of_child in Hp; [|done]. destruct Hp as [-> | ->].
    + replace (2 * j + 1)%nat with (j * 2 + 1)%nat by lia.
      intros kp kc. rewrite Vl. intros [= <-] [= <-]. apply le_refl_key.
    + intros kp kc _ Hkc. apply lookup_lt_Some in Hkc.
      unfold vkeys, keys_of in Hkc. rewrite length_fmap, length_insert in Hkc. lia.
Qed.

Lemma bubble_down_spec key (fuel : nat) :
  forall h (j : nat),
  (length (heap h) - j <= fuel)%nat ->
  tracked_except h key j ->
  ordered_except lt (vkeys h key j) j ->
  (j = 0%nat \/ edge lt (vkeys h key j) (parent_of j) j) ->
  exists h' j',
    bubble_down lt fuel h key j = Ok (h', j')
    /\ moved h key j h' j'
    /\ ordered lt (vkeys h' key j').
Proof.
  induction fuel as [|fuel IH]; intros h j Hfuel Ht Ho Hup.
  { destruct Ht as (Lj & _). lia. }
  cbn [bubble_down]. destruct (Nat.ltb_spec (2 * j + 1) (length (heap h))) as [Hl|Hl].
  2:{ exists h, j. split; [done|]. split; [by apply moved_refl|].
      apply (ordered_except_done lt _ j Ho Hup).
      intros c Hc Hp kp kc _ Hkc. apply lookup_lt_Some in Hkc.
      unfold vkeys, keys_of in Hkc. rewrite length_fmap, length_insert in Hkc.
      apply parent_of_child in Hp; lia. }
  destruct (min_child_spec h key j Ht Hl) as (m & hd & om & Em & Hm & Hpm & Hhd & Hom & Hmin).
  pose proof (parent_of_lt m Hm) as Hmj.
  pose proof Ht as (Lj & [o Hkey] & Htr).
  rewrite Em. cbn [mbind result_bind].
  rewrite (deref_Some _ _ _ Hkey), (nth_item_Some _ _ _ Hhd). cbn [mbind result_bind].
  rewrite (deref_Some _ _ _ Hom). cbn [mbind result_bind].
  pose proof (vkeys_hole h key j o Lj Hkey) as Vj.
  pose proof (vkeys_other h key j m hd om ltac:(lia) Hhd Hom) as Vm.
  destruct (lt (comp_key o) (comp_key om)) eqn:Hlt.
  - exists h, j. split; [done|]. split; [by apply moved_refl|].
    apply (ordered_except_done lt _ j Ho Hup).
    intros c Hc Hp kp kc Hkp Hkc. rewrite Vj in Hkp. injection Hkp as <-.
    eapply (le_trans lt order); [apply le_of_lt; [done | exact Hlt]|].
    eapply (Hmin c); eauto.
  - rewrite (set_nth_item_lt _ _ _ Lj). cbn [mbind result_bind].
    rewrite (nth_item_Some _ j hd) by (by apply list_lookup_insert_eq).
    cbn [mbind result_bind].
    rewrite (set_index_Some _ _ _ _ Hom). cbn [mbind result_bind].
    pose proof (tracked_except_move h key j m hd om Ht ltac:(lia) Hhd Hom) as Ht1.
    edestruct (IH (mkHeap (<[j := hd]> (heap h))
                          (<[hd := mkKey (val om) (comp_key om) j]> (objects h))) m)
      as (h' & j' & E & M & O); [|exact Ht1| | |].
    { cbn [heap]. rewrite length_insert. lia. }
    { rewrite (vkeys_move h key j m hd o om) by (done || lia).
      by apply ordered_except_down. }
    { right. rewrite (vkeys_move h key j m hd o om) by (done || lia).
      rewrite Hpm. intros kp kc.
      rewrite list_lookup_insert_ne by lia.
      rewrite !list_lookup_insert_eq
        by (unfold vkeys, keys_of; rewrite ?length_insert, length_fmap, ?length_insert;
            first [done | by eapply lookup_lt_Some]).
      intros [= <-] [= <-]. exact Hlt. }
    exists h', j'. split; [done|]. split; [|done].
    apply (moved_step h key j m hd om); [done | lia | done | done | exact M].
Qed.

Lemma tracked_all_keys h : tracked h -> all_keys (keys_of (objects h) (heap h)).
Proof.
  intros Ht. apply Forall_lookup. intros i x Hx.
  unfold keys_of in Hx. rewrite list_lookup_fmap in Hx.
  destruct (heap h !! i) as [k|] eqn:Hk; [|done].
  destruct (Ht i k Hk) as (o & Ho & _). injection Hx as <-.
  unfold ck. rewrite Ho. by eexists.
Qed.

Lemma heap_inv_tracked h : heap_inv lt h -> tracked h.
Proof. intros H i k Hk. destruct (H i k Hk) as (o & Ho & Hi & _). eauto. Qed.

Lemma heap_inv_ordered h :
  heap_inv lt h -> ordered lt (keys_of (objects h) (heap h)).
Proof.
  intros H c Hc kp kc Hkp Hkc.
  unfold keys_of in Hkp, Hkc. rewrite list_lookup_fmap in Hkp, Hkc.
  destruct (heap h !! c) as [hc|] eqn:Ec; [|done].
  destruct (H c hc Ec) as (oc & Hoc & _ & Hpar).
  destruct (Hpar Hc) as (hp & op & Ep & Hop & Hle).
  rewrite Ep in Hkp. cbn in Hkp, Hkc. unfold ck in Hkp, Hkc.
  rewrite Hop in Hkp. rewrite Hoc in Hkc. cbn in Hkp, Hkc.
  injection Hkp as <-. injection Hkc as <-. exact Hle.
Qed.

Lemma heap_inv_intro h :
  tracked h -> ordered lt (keys_of (objects h) (heap h)) -> heap_inv lt h.
Proof.
  intros Ht Ho i k Hk. destruct (Ht i k Hk) as (o & Hob & Hi).
  exists o. split; [done|]. split; [done|]. intros H0.
  pose proof (parent_of_lt i H0). pose proof (lookup_lt_Some _ _ _ Hk).
  destruct (lookup_lt_is_Some_2 (heap h) (parent_of i)) as [hp Hhp]; [lia|].
  destruct (Ht _ hp Hhp) as (op & Hop & _).
  exists hp, op. split; [done|]. split; [done|].
  apply (Ho i H0); by eapply keys_of_lookup.
Qed.

(** [_adjust(key)] from a heap that is in order everywhere but around the
    position of [key]: it returns, and the heap is in order. *)
Lemma _adjust_spec h key o :
  objects h !! key = Some o ->
  tracked_except h key (index o) ->
  ordered_except lt (vkeys h key (index o)) (index o) ->
  exists h',
    _adjust lt h key = Ok h'
    /\ heap_inv lt h'
    /\ length (heap h') = length (heap h)
    /\ data_of (objects h') = data_of (objects h)
    /\ (forall x, x ∈ heap h' -> x ∈ <[index o := key]> (heap h)).
Proof.
  intros Ho Ht Hord. unfold _adjust.
  rewrite (deref_Some _ _ _ Ho). cbn [mbind result_bind].
  destruct (bubble_up_spec key (S (index o)) h (index o) ltac:(lia) Ht Hord)
    as (h1 & j1 & E1 & (T1 & L1 & D1 & I1) & O1 & U1).
  rewrite E1. cbn [mbind result_bind].
  destruct (bubble_down_spec key (S (length (heap h1))) h1 j1 ltac:(lia) T1 O1 U1)
    as (h2 & j2 & E2 & (T2 & L2 & D2 & I2) & O2).
  rewrite E2. cbn [mbind result_bind].
  destruct T2 as (Lj & [o2 Ho2] & Htr).
  rewrite (set_nth_item_lt _ _ _ Lj). cbn [mbind result_bind].
  rewrite (set_index_Some _ _ _ _ Ho2). cbn [mbind result_bind].
  eexists. split; [done|]. cbn [heap objects].
  split; [|split; [|split]].
  - apply heap_inv_intro.
    + intros pos hd. cbn [heap objects]. destruct (decide (pos = j2)) as [->|Hp].
      * rewrite list_lookup_insert_eq by done. intros [= <-].
        eexists. rewrite list_lookup_insert_eq by (by eapply lookup_lt_Some).
        split; [done|]. reflexivity.
      * rewrite list_lookup_insert_ne by done. intros Hhd.
        destruct (Htr pos hd Hp Hhd) as (Hne & ox & Hox & Hix).
        exists ox. by rewrite list_lookup_insert_ne.
    + cbn [heap objects]. rewrite keys_of_set_index by done. exact O2.
  - rewrite length_insert. lia.
  - rewrite data_of_set_index by done. congruence.
  - intros x Hx. by apply I1, I2.
Qed.

End Adjust.

Section Operations.
Context {TK TV : Type}.
Variable key_func : TV -> TK.
Variable lt : TK -> TK -> bool.
Hypothesis order : strict_weak_order lt.

Implicit Types (h : AdjustableHeap TK TV) (objs : list (AdjustableHeapKey TK TV))
  (a : list handle) (key : handle) (o : AdjustableHeapKey TK TV).

Lemma keys_of_ext objs objs' a :
  (forall x, x ∈ a -> objs' !! x = objs !! x) -> keys_of objs' a = keys_of objs a.
Proof.
  intros H. unfold keys_of. apply list_fmap_ext. intros i x Hx. unfold ck.
  rewrite H; [done|]. by eapply list_elem_of_lookup_2.
Qed.

Lemma tracked_lt h (i : nat) key :
  tracked h -> heap h !! i = Some key -> (key < length (objects h))%nat.
Proof. intros Ht Hk. destruct (Ht i key Hk) as (o & Ho & _). by eapply lookup_lt_Some. Qed.

Lemma push_spec h (v : TV) :
  heap_inv lt h ->
  exists h' key,
    push key_func lt h v = Ok (h', key)
    /\ heap_inv lt h'
    /\ length (heap h') = S (length (heap h))
    /\ key = length (objects h)
    /\ data_of (objects h') = data_of (objects h) ++ [(v, key_func v)]
    /\ (forall x, x ∈ heap h' -> x ∈ heap h \/ x = key).
Proof.
  intros Hinv. pose proof (heap_inv_tracked lt h Hinv) as Ht.
  unfold push.
  set (key := length (objects h)).
  set (o := mkKey v (key_func v) (length (heap h))).
  set (h1 := mkHeap (heap h ++ [key]) (objects h ++ [o])).
  assert (Ho : objects h1 !! key = Some o) by (by apply list_lookup_middle).
  assert (T1 : tracked_except h1 key (index o)).
  { split; [cbn; rewrite length_app; cbn; lia|]. split; [eauto|].
    intros pos hd Hpos Hhd. cbn [h1 heap objects index o] in *.
    assert (pos < length (heap h))%nat.
    { apply lookup_lt_Some in Hhd. rewrite length_app in Hhd. cbn in Hhd. lia. }
    rewrite lookup_app_l in Hhd by done.
    destruct (Ht pos hd Hhd) as (ox & Hox & Hix).
    pose proof (lookup_lt_Some _ _ _ Hox). split; [unfold key; lia|].
    exists ox. split; [by apply lookup_app_l_Some | done]. }
  assert (O1 : ordered_except lt (vkeys h1 key (index o)) (index o)).
  { unfold vkeys. cbn [h1 heap objects index o].
    rewrite list_insert_id by (by apply list_lookup_middle).
    unfold keys_of. rewrite fmap_app. cbn [fmap list_fmap].
    replace (ck (objects h ++ [o]) <$> heap h) with (keys_of (objects h) (heap h)).
    - replace (length (heap h)) with (length (keys_of (objects h) (heap h)))
        by (unfold keys_of; apply length_fmap).
      apply ordered_except_snoc. by apply heap_inv_ordered.
    - symmetry. apply keys_of_ext. intros x Hx.
      apply list_elem_of_lookup in Hx as [i Hi].
      apply lookup_app_l. by eapply tracked_lt. }
  destruct (_adjust_spec lt order h1 key o Ho T1 O1) as (h' & E & I & L & D & In).
  rewrite E. cbn [mbind result_bind]. exists h', key.
  split; [done|]. split; [done|]. split.
  { rewrite L. cbn. rewrite length_app. cbn. lia. }
  split; [done|]. split.
  { rewrite D. cbn. unfold data_of. by rewrite fmap_app. }
  intros x Hx. apply In in Hx. cbn [h1 heap index o] in Hx.
  rewrite list_insert_id in Hx by (by apply list_lookup_middle).
  apply elem_of_app in Hx as [Hx|Hx]; [by left|].
  right. by apply list_elem_of_singleton in Hx.
Qed.

(** The heap after its last handle has been moved to position [j]. *)
Lemma move_last_spec h (j : nat) (last_key : handle) ol :
  heap_inv lt h ->
  (S j < length (heap h))%nat ->
  heap h !! (length (heap h) - 1)%nat = Some last_key ->
  objects h !! last_key = Some ol ->
  let o1 := mkKey (val ol) (comp_key ol) j in
  let h1 := mkHeap (<[j := last_key]> (removelast (heap h)))
                   (<[last_key := o1]> (objects h)) in
  objects h1 !! last_key = Some o1
  /\ tracked_except h1 last_key j
  /\ ordered_except lt (vkeys h1 last_key j) j.
Proof.
  intros Hinv Hj Hlast Hol o1 h1.
  pose proof (heap_inv_tracked lt h Hinv) as Ht.
  assert (Hrl : removelast (heap h) = take (length (heap h) - 1) (heap h)).
  { rewrite removelast_firstn_len. f_equal. lia. }
  assert (Lrl : length (removelast (heap h)) = (length (heap h) - 1)%nat).
  { rewrite Hrl, length_take. lia. }
  destruct (Ht _ _ Hlast) as (ol' & Hol' & Hil).
  assert (ol' = ol) as -> by congruence.
  split; [|split].
  - cbn. apply list_lookup_insert_eq. by eapply lookup_lt_Some.
  - split; [cbn; rewrite length_insert; lia|]. split.
    { cbn. rewrite list_lookup_insert_eq by (by eapply lookup_lt_Some). eauto. }
    intros pos hd Hpos. cbn [h1 heap objects].
    rewrite list_lookup_insert_ne by done. rewrite Hrl.
    intros Hhd. apply lookup_take_Some in Hhd as [Hhd Hlt].
    destruct (Ht pos hd Hhd) as (ox & Hox & Hix).
    assert (hd <> last_key) by (intros ->; assert (ox = ol) by congruence; subst; lia).
    split; [done|]. exists ox. by rewrite list_lookup_insert_ne.
  - unfold vkeys. cbn [h1 heap objects].
    rewrite list_insert_insert_eq.
    rewrite (keys_of_set_index _ _ _ j _ Hol).
    rewrite keys_of_insert. rewrite Hrl. unfold keys_of at 1. rewrite fmap_take.
    apply (ordered_except_insert lt order).
    + apply ordered_take. by apply heap_inv_ordered.
    + apply Forall_take. by apply tracked_all_keys.
    + rewrite length_take, length_fmap. lia.
Qed.

Lemma elem_of_removelast {A} (l : list A) (x : A) : x ∈ removelast l -> x ∈ l.
Proof.
  rewrite removelast_firstn_len. intros H.
  apply elem_of_take in H as (i & Hi & _). by eapply list_elem_of_lookup_2.
Qed.

Lemma heap_inv_removelast h :
  heap_inv lt h -> heap_inv lt (mkHeap (removelast (heap h)) (objects h)).
Proof.
  intros Hinv. apply heap_inv_intro.
  - intros i k. cbn. rewrite removelast_firstn_len. intros Hk.
    apply lookup_take_Some in Hk as [Hk _].
    by apply (heap_inv_tracked lt h Hinv).
  - cbn. rewrite removelast_firstn_len. unfold keys_of. rewrite fmap_take.
    apply ordered_take. by apply heap_inv_ordered.
Qed.

Lemma tracked_NoDup h : tracked h -> NoDup (heap h).
Proof.
  intros Ht. apply NoDup_alt. intros i j x Hi Hj.
  destruct (Ht i x Hi) as (o & Ho & <-). destruct (Ht j x Hj) as (o' & Ho' & <-).
  congruence.
Qed.

Lemma pop_spec h :
  heap_inv lt h -> (0 < length (heap h))%nat ->
  exists h' top otop,
    pop lt h = Ok (h', val otop)
    /\ heap h !! 0%nat = Some top /\ objects h !! top = Some otop
    /\ heap_inv lt h'
    /\ length (heap h') = (length (heap h) - 1)%nat
    /\ data_of (objects h') = data_of (objects h)
    /\ (forall x, x ∈ heap h' -> x ∈ heap h /\ x <> top).
Proof.
  intros Hinv Hlen. pose proof (heap_inv_tracked lt h Hinv) as Ht.
  pose proof (tracked_NoDup h Ht) as Hnd.
  destruct (lookup_lt_is_Some_2 (heap h) 0 Hlen) as [top Htop].
  destruct (Ht 0%nat top Htop) as (otop & Hotop & _).
  unfold pop. rewrite (nth_item_Some _ _ _ Htop). cbn [mbind result_bind].
  rewrite (deref_Some _ _ _ Hotop). cbn [mbind result_bind].
  destruct (Nat.eqb_spec (length (heap h)) 1) as [H1|H1].
  { eexists _, top, otop. split; [done|]. split; [done|]. split; [done|].
    cbn [heap objects length]. split; [|split; [lia|split; [done|]]].
    - intros i k Hk. done.
    - intros x Hx. by apply elem_of_nil in Hx. }
  destruct (lookup_lt_is_Some_2 (heap h) (length (heap h) - 1)) as [lk Hlk]; [lia|].
  destruct (Ht _ lk Hlk) as (ol & Hol & Hil).
  destruct (move_last_spec h 0 lk ol Hinv ltac:(lia) Hlk Hol) as (Ho1 & T1 & O1).
  assert (Lrl : length (removelast (heap h)) = (length (heap h) - 1)%nat).
  { rewrite removelast_firstn_len, length_take. lia. }
  rewrite (nth_item_Some _ _ _ Hlk). cbn [mbind result_bind].
  rewrite set_nth_item_lt by lia. cbn [mbind result_bind].
  rewrite (nth_item_Some _ 0 lk) by (apply list_lookup_insert_eq; lia).
  cbn [mbind result_bind].
  rewrite (set_index_Some _ _ _ _ Hol). cbn [mbind result_bind].
  destruct (_adjust_spec lt order _ lk _ Ho1 T1 O1) as (h' & E & I & L & D & In).
  rewrite E. cbn [mbind result_bind].
  exists h', top, otop. split; [done|]. split; [done|]. split; [done|].
  split; [done|]. cbn [heap objects index] in *. split.
  { rewrite L, length_insert. done. }
  split. { rewrite D. by apply data_of_set_index. }
  intros x Hx. apply In in Hx. rewrite list_insert_insert_eq in Hx.
  apply list_elem_of_lookup in Hx as [i Hi].
  destruct (decide (i = 0%nat)) as [->|Hi0].
  - rewrite list_lookup_insert_eq in Hi by lia. injection Hi as <-.
    split; [by eapply list_elem_of_lookup_2|].
    intros ->. pose proof (NoDup_lookup _ _ _ _ Hnd Htop Hlk). lia.
  - rewrite list_lookup_insert_ne in Hi by done.
    rewrite removelast_firstn_len in Hi. apply lookup_take_Some in Hi as [Hi _].
    split; [by eapply list_elem_of_lookup_2|].
    intros ->. pose proof (NoDup_lookup _ _ _ _ Hnd Htop Hi). lia.
Qed.

Lemma adjust_key_spec h key (v : TV) :
  heap_inv lt h -> live h key ->
  exists h',
    adjust_key key_func lt h key v = Ok h'
    /\ heap_inv lt h'
    /\ length (heap h') = length (heap h)
    /\ (forall x, x ∈ heap h' -> x ∈ heap h)
    /\ data_of (objects h') = <[key := (v, key_func v)]> (data_of (objects h)).
Proof.
  intros Hinv (o & Ho & Hlive). pose proof (heap_inv_tracked lt h Hinv) as Ht.
  unfold adjust_key. rewrite (deref_Some _ _ _ Ho). cbn [mbind result_bind].
  set (o1 := mkKey v (key_func v) (index o)).
  set (h1 := mkHeap (heap h) (<[key := o1]> (objects h))).
  assert (Lk : (key < length (objects h))%nat) by (by eapply lookup_lt_Some).
  assert (Lj : (index o < length (heap h))%nat) by (by eapply lookup_lt_Some).
  assert (Ho1 : objects h1 !! key = Some o1) by (cbn; by apply list_lookup_insert_eq).
  assert (Hother : forall pos hd, pos <> index o -> heap h !! pos = Some hd -> hd <> key).
  { intros pos hd Hpos Hhd ->. destruct (Ht pos key Hhd) as (o' & Ho' & Hi').
    assert (o' = o) by congruence. subst. done. }
  assert (T1 : tracked_except h1 key (index o1)).
  { split; [done|]. split; [eauto|]. intros pos hd Hpos Hhd.
    cbn [h1 heap objects index o1] in *.
    pose proof (Hother pos hd Hpos Hhd).
    split; [done|]. destruct (Ht pos hd Hhd) as (ox & Hox & Hix).
    exists ox. by rewrite list_lookup_insert_ne. }
  assert (O1 : ordered_except lt (vkeys h1 key (index o1)) (index o1)).
  { unfold vkeys. cbn [h1 heap objects index o1].
    rewrite keys_of_insert.
    replace (keys_of (<[key := o1]> (objects h)) (heap h))
      with (<[index o := ck (<[key := o1]> (objects h)) key]> (keys_of (objects h) (heap h))).
    - rewrite list_insert_insert_eq.
      apply (ordered_except_insert lt order).
      + by apply heap_inv_ordered.
      + by apply tracked_all_keys.
      + unfold keys_of. by rewrite length_fmap.
    - apply list_eq. intros pos. unfold keys_of.
      destruct (decide (pos = index o)) as [->|Hpos].
      + rewrite list_lookup_insert_eq by (by rewrite length_fmap).
        by rewrite list_lookup_fmap, Hlive.
      + rewrite list_lookup_insert_ne by done. rewrite !list_lookup_fmap.
        destruct (heap h !! pos) as [hd|] eqn:Hhd; [|done]. cbn.
        unfold ck. rewrite list_lookup_insert_ne; [done|].
        intros ->. by eapply Hother. }
  destruct (_adjust_spec lt order h1 key o1 Ho1 T1 O1) as (h' & E & I & L & D & In).
  exists h'. split; [done|]. split; [done|]. split; [done|]. split.
  - intros x Hx. apply In in Hx. cbn [h1 heap index o1] in Hx.
    by rewrite list_insert_id in Hx.
  - rewrite D. cbn [h1 objects]. unfold data_of. by rewrite list_fmap_insert.
Qed.

Lemma remove_spec h key :
  heap_inv lt h -> live h key ->
  exists h',
    remove lt h key = Ok h'
    /\ heap_inv lt h'
    /\ length (heap h') = (length (heap h) - 1)%nat
    /\ (forall x, x ∈ heap h' -> x ∈ heap h).
Proof.
  intros Hinv (o & Ho & Hlive). pose proof (heap_inv_tracked lt h Hinv) as Ht.
  assert (Lj : (index o < length (heap h))%nat) by (by eapply lookup_lt_Some).
  assert (Lrl : length (removelast (heap h)) = (length (heap h) - 1)%nat).
  { rewrite removelast_firstn_len, length_take. lia. }
  unfold remove. rewrite last_lookup.
  replace (Init.Nat.pred (length (heap h))) with (length (heap h) - 1)%nat by lia.
  destruct (lookup_lt_is_Some_2 (heap h) (length (heap h) - 1)) as [lk Hlk]; [lia|].
  rewrite Hlk. destruct (Ht _ lk Hlk) as (ol & Hol & Hil).
  destruct (Nat.eqb_spec lk key) as [->|Hne].
  { eexists. split; [done|]. split; [by apply heap_inv_removelast|].
    cbn [heap]. split; [done|]. apply elem_of_removelast. }
  rewrite (deref_Some _ _ _ Ho). cbn [mbind result_bind].
  assert (S (index o) < length (heap h))%nat.
  { destruct (decide (index o = (length (heap h) - 1)%nat)) as [E|E]; [|lia].
    rewrite E in Hlive. congruence. }
  destruct (move_last_spec h (index o) lk ol Hinv ltac:(lia) Hlk Hol) as (Ho1 & T1 & O1).
  rewrite set_nth_item_lt by lia. cbn [mbind result_bind].
  rewrite (set_index_Some _ _ _ _ Hol). cbn [mbind result_bind].
  destruct (_adjust_spec lt order _ lk _ Ho1 T1 O1) as (h' & E & I & L & D & In).
  exists h'. split; [done|]. split; [done|]. cbn [heap objects index] in *.
  split. { rewrite L, length_insert. done. }
  intros x Hx. apply In in Hx. rewrite list_insert_insert_eq in Hx.
  apply list_elem_of_lookup in Hx as [i Hi].
  destruct (decide (i = index o)) as [->|Hi0].
  - rewrite list_lookup_insert_eq in Hi by lia. injection Hi as <-.
    by eapply list_elem_of_lookup_2.
  - rewrite list_lookup_insert_ne in Hi by done.
    apply elem_of_removelast. by eapply list_elem_of_lookup_2.
Qed.

Lemma elem_of_elements h (x : TV) :
  x ∈ elements h <->
  exists i k o, heap h !! i = Some k /\ objects h !! k = Some o /\ val o = x.
Proof.
  unfold elements. rewrite list_elem_of_omap. split.
  - intros (k & Hk & Hv). apply list_elem_of_lookup in Hk as [i Hi].
    destruct (objects h !! k) as [o|] eqn:Ho; [|done].
    injection Hv as <-. eauto 6.
  - intros (i & k & o & Hi & Ho & <-). exists k. rewrite Ho.
    split; [by eapply list_elem_of_lookup_2 | done].
Qed.

Lemma data_of_lookup objs objs' key o' :
  data_of objs' = data_of objs -> objs' !! key = Some o' ->
  exists o, objs !! key = Some o /\ val o = val o' /\ comp_key o = comp_key o'.
Proof.
  intros D Ho'. assert (H : data_of objs' !! key = Some (val o', comp_key o')).
  { unfold data_of. by rewrite list_lookup_fmap, Ho'. }
  rewrite D in H. unfold data_of in H. rewrite list_lookup_fmap in H.
  destruct (objs !! key) as [o|]; [|done]. injection H as H1 H2. eauto.
Qed.

Lemma consistent_lookup h key o :
  consistent key_func h -> objects h !! key = Some o -> comp_key o = key_func (val o).
Proof.
  intros Hc Ho. unfold consistent in Hc.
  apply (proj1 (Forall_lookup _ _) Hc key (val o, comp_key o)).
  unfold data_of. by rewrite list_lookup_fmap, Ho.
Qed.

(** In a heap in order the root has a least key. *)
Lemma root_least (ks : list (option TK)) (k0 : TK) :
  ordered lt ks -> all_keys ks -> ks !! 0%nat = Some (Some k0) ->
  forall (i : nat) (k : TK), ks !! i = Some (Some k) -> le lt k0 k.
Proof.
  intros Ho Hk H0 i. induction i as [i IH] using lt_wf_ind. intros k Hi.
  destruct (decide (i = 0%nat)) as [->|Hne].
  - assert (k = k0) as -> by congruence. by apply le_refl_key.
  - assert (Hpos : (0 < i)%nat) by lia. pose proof (parent_of_lt i Hpos).
    destruct (all_keys_lookup ks (parent_of i) Hk) as [kp Hkp].
    { apply lookup_lt_Some in Hi. lia. }
    eapply (le_trans lt order); [by apply (IH (parent_of i))|].
    by apply (Ho i Hpos).
Qed.

Lemma peek_spec h : heap_inv lt h -> consistent key_func h -> peek_is_min key_func lt h.
Proof.
  intros Hinv Hc Hlen. pose proof (heap_inv_tracked lt h Hinv) as Ht.
  destruct (lookup_lt_is_Some_2 (heap h) 0 Hlen) as [top Htop].
  destruct (Ht 0%nat top Htop) as (otop & Hotop & _).
  exists (val otop). unfold peek.
  rewrite (nth_item_Some _ _ _ Htop). cbn [mbind result_bind].
  rewrite (deref_Some _ _ _ Hotop). cbn [mbind result_bind].
  split; [done|]. split; [apply elem_of_elements; eauto 6|].
  intros x Hx. apply elem_of_elements in Hx as (i & k & o & Hi & Ho & <-).
  rewrite <- (consistent_lookup h k o Hc Ho), <- (consistent_lookup h top otop Hc Hotop).
  apply (root_least (keys_of (objects h) (heap h)) (comp_key otop)) with (i := i).
  - by apply heap_inv_ordered.
  - by apply tracked_all_keys.
  - by eapply keys_of_lookup.
  - by eapply keys_of_lookup.
Qed.

Lemma push_all_spec (vs : list TV) :
  forall h, heap_inv lt h -> consistent key_func h ->
  exists h', push_all key_func lt h vs = Ok h' /\ heap_inv lt h' /\ consistent key_func h'
             /\ length (heap h') = (length (heap h) + length vs)%nat.
Proof.
  induction vs as [|v vs IH]; intros h Hinv Hc.
  - exists h. cbn. split; [done|]. split; [done|]. split; [done|]. lia.
  - destruct (push_spec h v Hinv) as (h1 & key & E & I1 & L1 & _ & D1 & _).
    destruct (IH h1 I1) as (h' & E' & I' & C' & L').
    { unfold consistent. rewrite D1. apply Forall_app. split; [done|].
      by apply Forall_singleton. }
    exists h'. cbn [push_all]. rewrite E. cbn [mbind result_bind].
    split; [done|]. split; [done|]. split; [done|]. cbn [length]. lia.
Qed.

Lemma pop_many_spec (n : nat) :
  forall h, heap_inv lt h -> consistent key_func h -> (n <= length (heap h))%nat ->
  exists out h',
    pop_many lt n h = Ok (out, h') /\ heap_inv lt h' /\ consistent key_func h'
    /\ length out = n
    /\ (forall x, x ∈ out -> x ∈ elements h)
    /\ StronglySorted (fun x y => lt (key_func y) (key_func x) = false) out.
Proof.
  induction n as [|n IH]; intros h Hinv Hc Hn.
  - exists [], h. cbn. split; [done|]. split; [done|]. split; [done|].
    split; [done|]. split; [|constructor].
    intros x Hx. by apply elem_of_nil in Hx.
  - destruct (pop_spec h Hinv ltac:(lia)) as (h1 & top & otop & E & Htop & Hotop & I1 & L1 & D1 & In1).
    assert (C1 : consistent key_func h1) by (unfold consistent; by rewrite D1).
    destruct (IH h1 I1 C1 ltac:(lia)) as (out & h' & E' & I' & C' & Lo & Hin & Hs).
    assert (Hsub : forall x, x ∈ elements h1 -> x ∈ elements h).
    { intros x Hx. apply elem_of_elements in Hx as (i & k & o & Hi & Ho & <-).
      destruct (data_of_lookup _ _ k o D1 Ho) as (o0 & Ho0 & Hv & _).
      apply list_elem_of_lookup_2, In1 in Hi. destruct Hi as [Hi _].
      apply list_elem_of_lookup in Hi as [i0 Hi0].
      apply elem_of_elements. exists i0, k, o0. by rewrite Hv. }
    exists (val otop :: out), h'. cbn [pop_many].
    rewrite E. cbn [mbind result_bind]. rewrite E'. cbn [mbind result_bind].
    split; [done|]. split; [done|]. split; [done|]. split; [cbn; lia|]. split.
    + intros x Hx. apply elem_of_cons in Hx as [->|Hx].
      * apply elem_of_elements. eauto 6.
      * by apply Hsub, Hin.
    + constructor; [done|]. apply Forall_forall. intros x Hx.
      apply Hin, Hsub in Hx.
      destruct (peek_spec h Hinv Hc ltac:(lia)) as (v & Ev & _ & Hmin).
      unfold peek in Ev. rewrite (nth_item_Some _ _ _ Htop) in Ev. cbn in Ev.
      rewrite (deref_Some _ _ _ Hotop) in Ev. cbn in Ev. injection Ev as <-.
      by apply Hmin.
Qed.

End Operations.

(** *** The heap as a map from handles to values *)

Section Held.
Context {TK TV : Type}.
Variable key_func : TV -> TK.
Variable lt : TK -> TK -> bool.
Hypothesis order : strict_weak_order lt.

Implicit Types (h : AdjustableHeap TK TV) (key hk : handle) (it v : TV).

Lemma good_empty : good key_func lt empty.
Proof.
  split.
  - intros i k Hk. done.
  - constructor.
Qed.

Lemma val_data_of (objs : list (AdjustableHeapKey TK TV)) (x : handle) :
  val <$> objs !! x = fst <$> data_of objs !! x.
Proof. unfold data_of. rewrite list_lookup_fmap. by destruct (objs !! x). Qed.

Lemma holds_alt h hk it :
  holds h hk it <-> hk ∈ heap h /\ val <$> objects h !! hk = Some it.
Proof.
  unfold holds. split; intros [H1 H2]; (split; [done|]).
  - destruct H2 as (o & -> & <-). done.
  - destruct (objects h !! hk) as [o|]; [|done]. injection H2 as <-. eauto.
Qed.

Lemma holds_live h hk it : tracked h -> holds h hk it -> live h hk.
Proof.
  intros Ht [Hin (o & Ho & _)]. apply list_elem_of_lookup in Hin as [i Hi].
  destruct (Ht i hk Hi) as (o' & Ho' & Hidx). exists o. split; [done|].
  assert (o' = o) by congruence. subst. done.
Qed.

Lemma holds_fun h hk it it' : holds h hk it -> holds h hk it' -> it = it'.
Proof. intros [_ (o & Ho & <-)] [_ (o' & Ho' & <-)]. congruence. Qed.

Lemma perm_of_incl (l l' : list handle) :
  NoDup l' -> (forall x, x ∈ l' -> x ∈ l) -> (length l <= length l')%nat -> l' ≡ₚ l.
Proof.
  intros Hnd Hin Hlen. apply submseteq_length_Permutation; [|done].
  by apply NoDup_submseteq.
Qed.

Lemma push_holds h v :
  good key_func lt h ->
  exists h' key,
    push key_func lt h v = Ok (h', key)
    /\ good key_func lt h'
    /\ (forall it, ~ holds h key it)
    /\ (forall x it, holds h' x it <-> holds h x it \/ (x = key /\ it = v)).
Proof.
  intros [Hinv Hc]. pose proof (heap_inv_tracked lt h Hinv) as Ht.
  destruct (push_spec key_func lt order h v Hinv) as (h' & key & E & I & L & -> & D & In).
  assert (Hfresh : forall x, x ∈ heap h -> (x < length (objects h))%nat).
  { intros x Hx. apply list_elem_of_lookup in Hx as [i Hi]. by eapply tracked_lt. }
  assert (P : heap h' ≡ₚ heap h ++ [length (objects h)]).
  { apply perm_of_incl.
    - apply tracked_NoDup. by apply (heap_inv_tracked lt).
    - intros x Hx. apply elem_of_app. destruct (In x Hx) as [?| ->]; [by left|].
      right. by apply list_elem_of_singleton.
    - rewrite length_app, L. cbn. lia. }
  exists h', (length (objects h)). split; [done|]. split.
  { split; [done|]. unfold consistent. rewrite D. apply Forall_app. split; [done|].
    by apply Forall_singleton. }
  split.
  { intros it [Hin _]. apply Hfresh in Hin. lia. }
  intros x it. rewrite !holds_alt, !val_data_of, D. rewrite P, elem_of_app, list_elem_of_singleton.
  assert (Ld : length (data_of (objects h)) = length (objects h))
    by (unfold data_of; apply length_fmap).
  split.
  - intros [[Hx| ->] Hv].
    + left. split; [done|]. rewrite lookup_app_l in Hv; [done|].
      rewrite Ld. by apply Hfresh.
    + right. split; [done|]. rewrite <- Ld in Hv.
      rewrite list_lookup_middle in Hv by done. cbn in Hv. congruence.
  - intros [[Hx Hv]|[-> ->]].
    + split; [by left|]. rewrite lookup_app_l; [done|]. rewrite Ld. by apply Hfresh.
    + split; [by right|]. rewrite <- Ld. by rewrite list_lookup_middle.
Qed.

Lemma pop_holds h :
  good key_func lt h -> (0 < length (heap h))%nat ->
  exists h' top v,
    pop lt h = Ok (h', v)
    /\ good key_func lt h'
    /\ holds h top v
    /\ (forall x it, holds h x it -> lt (key_func it) (key_func v) = false)
    /\ (forall x it, holds h' x it <-> holds h x it /\ x <> top).
Proof.
  intros [Hinv Hc] Hlen. pose proof (heap_inv_tracked lt h Hinv) as Ht.
  destruct (pop_spec lt order h Hinv Hlen)
    as (h' & top & otop & E & Htop & Hotop & I & L & D & In).
  assert (P : top :: heap h' ≡ₚ heap h).
  { apply perm_of_incl.
    - apply NoDup_cons. split.
      + intros Hx. by destruct (In _ Hx).
      + apply tracked_NoDup. by apply (heap_inv_tracked lt).
    - intros x Hx. apply elem_of_cons in Hx as [->|Hx].
      + by eapply list_elem_of_lookup_2.
      + by destruct (In _ Hx).
    - cbn. lia. }
  exists h', top, (val otop). split; [done|]. split.
  { split; [done|]. unfold consistent. by rewrite D. }
  split. { split; [by eapply list_elem_of_lookup_2 | eauto]. }
  split.
  { intros x it Hh.
    destruct (peek_spec key_func lt order h Hinv Hc Hlen) as (v & Ev & _ & Hmin).
    unfold peek in Ev. rewrite (nth_item_Some _ _ _ Htop) in Ev. cbn in Ev.
    rewrite (deref_Some _ _ _ Hotop) in Ev. cbn in Ev. injection Ev as <-.
    apply Hmin. destruct Hh as [Hin (o & Ho & <-)].
    apply list_elem_of_lookup in Hin as [i Hi].
    apply elem_of_elements. eauto 6. }
  intros x it. rewrite !holds_alt, !val_data_of, D. rewrite <- P, elem_of_cons.
  split.
  - intros [Hx Hv]. split; [split; [by right | done]|]. by destruct (In _ Hx).
  - intros [[[->|Hx] Hv] Hne]; [done|]. done.
Qed.

Lemma adjust_key_holds h hk v :
  good key_func lt h -> (exists it, holds h hk it) ->
  exists h',
    adjust_key key_func lt h hk v = Ok h'
    /\ good key_func lt h'
    /\ (forall x it, holds h' x it <-> (x <> hk /\ holds h x it) \/ (x = hk /\ it = v)).
Proof.
  intros [Hinv Hc] [it0 Hh0]. pose proof (heap_inv_tracked lt h Hinv) as Ht.
  pose proof (holds_live h hk it0 Ht Hh0) as Hlive.
  destruct (adjust_key_spec key_func lt order h hk v Hinv Hlive)
    as (h' & E & I & L & In & D).
  assert (P : heap h' ≡ₚ heap h).
  { apply perm_of_incl; [|done|lia].
    apply tracked_NoDup. by apply (heap_inv_tracked lt). }
  assert (Lk : (hk < length (data_of (objects h)))%nat).
  { destruct Hh0 as [_ (o & Ho & _)]. unfold data_of. rewrite length_fmap.
    by eapply lookup_lt_Some. }
  exists h'. split; [done|]. split.
  { split; [done|]. unfold consistent. rewrite D.
    apply Forall_insert; [done|]. done. }
  intros x it. rewrite !holds_alt, !val_data_of, D, P.
  destruct (decide (x = hk)) as [->|Hne].
  - rewrite list_lookup_insert_eq by done. cbn. split.
    + intros [_ [= <-]]. by right.
    + intros [[? _]|[_ ->]]; [done|]. split; [apply Hh0 | done].
  - rewrite list_lookup_insert_ne by done. split.
    + intros [? ?]. by left.
    + intros [[_ H]|[? _]]; done.
Qed.

End Held.

(** *** The claims about the heap *)

(** *** The heap does not look at the values

    The operations compare the stored comparison keys only: they commute
    with a relabelling of the values that keeps the keys. *)
Section Parametric.
Context {TK TV : Type}.
Variable key_func : TV -> TK.
Variable lt : TK -> TK -> bool.
Variable phi : TV -> TV.
Hypothesis phi_key : forall v, key_func (phi v) = key_func v.

Local Abbreviation omap := (omap phi).
Local Abbreviation hmap := (hmap phi).
Local Abbreviation hmap_at := (hmap_at phi).

Ltac red_heap :=
  cbn [mbind result_bind on_result omap comp_key index val hmap hmap_at heap objects
       fst snd fmap option_fmap option_map].

Lemma deref_omap (objs : list (AdjustableHeapKey TK TV)) (k : handle) :
  deref (omap <$> objs) k = on_result omap (deref objs k).
Proof. unfold deref. rewrite list_lookup_fmap. by destruct (objs !! k). Qed.

Lemma set_index_omap (objs : list (AdjustableHeapKey TK TV)) (k : handle) (i : nat) :
  set_index (omap <$> objs) k i = on_result (fmap omap) (set_index objs k i).
Proof.
  unfold set_index. rewrite deref_omap. unfold deref.
  destruct (objs !! k) as [o|]; [|reflexivity]. cbn. by rewrite list_fmap_insert.
Qed.

Lemma bubble_up_hmap (fuel : nat) : forall h key i,
  bubble_up lt fuel (hmap h) key i = on_result hmap_at (bubble_up lt fuel h key i).
Proof.
  induction fuel as [|fuel IH]; intros h key i; [reflexivity|].
  cbn [bubble_up]. destruct (0 <? i)%nat; [|reflexivity].
  cbn [hmap heap objects]. destruct (nth_item (heap h) (parent_of i)) as [p| |]; [|reflexivity..].
  red_heap. rewrite !deref_omap. unfold deref.
  destruct (objects h !! key) as [k|]; [|reflexivity]. red_heap.
  destruct (objects h !! p) as [op|]; [|reflexivity]. red_heap.
  destruct (negb (lt (comp_key k) (comp_key op))); [reflexivity|].
  destruct (set_nth_item (heap h) i p) as [hp| |]; [|reflexivity..]. red_heap.
  rewrite set_index_omap. destruct (set_index (objects h) p i) as [objs| |]; [|reflexivity..].
  red_heap. apply (IH (mkHeap hp objs)).
Qed.

Lemma min_child_hmap h i : min_child lt (hmap h) i = min_child lt h i.
Proof.
  unfold min_child. cbn [hmap heap objects].
  destruct (_ <? _)%nat; [|reflexivity].
  destruct (nth_item (heap h) (i * 2 + 1)) as [hl| |]; [|reflexivity..]. red_heap.
  rewrite deref_omap. unfold deref.
  destruct (objects h !! hl) as [ol|]; [|reflexivity]. red_heap.
  destruct (nth_item (heap h) (i * 2 + 2)) as [hr| |]; [|reflexivity..]. red_heap.
  rewrite list_lookup_fmap. destruct (objects h !! hr); reflexivity.
Qed.

Lemma bubble_down_hmap (fuel : nat) : forall h key i,
  bubble_down lt fuel (hmap h) key i = on_result hmap_at (bubble_down lt fuel h key i).
Proof.
  induction fuel as [|fuel IH]; intros h key i; [reflexivity|].
  cbn [bubble_down]. rewrite min_child_hmap. cbn [hmap heap objects].
  destruct (_ <? _)%nat; [|reflexivity].
  destruct (min_child lt h i) as [mi| |]; [|reflexivity..]. red_heap.
  rewrite deref_omap. unfold deref.
  destruct (objects h !! key) as [k|]; [|reflexivity]. red_heap.
  destruct (nth_item (heap h) mi) as [hm| |]; [|reflexivity..]. red_heap.
  rewrite list_lookup_fmap.
  destruct (objects h !! hm) as [m|]; [|reflexivity]. red_heap.
  destruct (lt (comp_key k) (comp_key m)); [reflexivity|].
  destruct (set_nth_item (heap h) i hm) as [hp| |]; [|reflexivity..]. red_heap.
  destruct (nth_item hp i) as [moved| |]; [|reflexivity..]. red_heap.
  rewrite set_index_omap. destruct (set_index (objects h) moved i) as [objs| |]; [|reflexivity..].
  red_heap. apply (IH (mkHeap hp objs)).
Qed.

Lemma _adjust_hmap h key :
  _adjust lt (hmap h) key = on_result hmap (_adjust lt h key).
Proof.
  unfold _adjust. cbn [hmap heap objects]. rewrite deref_omap. unfold deref.
  destruct (objects h !! key) as [k|]; [|reflexivity]. red_heap.
  pose proof (bubble_up_hmap (S (index k)) h key (index k)) as E1.
  rewrite E1.
  destruct (bubble_up lt (S (index k)) h key (index k)) as [[h1 i1]| |]; [|reflexivity..].
  red_heap.
  pose proof (bubble_down_hmap (S (length (heap h1))) h1 key i1) as E2.
  rewrite E2.
  destruct (bubble_down lt (S (length (heap h1))) h1 key i1) as [[h2 i2]| |]; [|reflexivity..].
  red_heap.
  destruct (set_nth_item (heap h2) i2 key) as [hp| |]; [|reflexivity..]. red_heap.
  rewrite set_index_omap. by destruct (set_index (objects h2) key i2) as [objs| |].
Qed.

Lemma push_hmap h v :
  push key_func lt (hmap h) (phi v)
  = on_result (fun r => (hmap r.1, r.2)) (push key_func lt h v).
Proof.
  unfold push. cbn [hmap heap objects]. rewrite length_fmap, phi_key.
  set (h1 := mkHeap (heap h ++ [length (objects h)])
               (objects h ++ [mkKey v (key_func v) (length (heap h))])).
  assert (E : mkHeap (heap h ++ [length (objects h)])
                ((omap <$> objects h) ++ [mkKey (phi v) (key_func v) (length (heap h))])
              = hmap h1).
  { unfold hmap, h1. cbn [heap objects]. by rewrite fmap_app. }
  rewrite E, _adjust_hmap. destruct (_adjust lt h1 (length (objects h))); reflexivity.
Qed.

Lemma pop_hmap h :
  pop lt (hmap h) = on_result (fun r => (hmap r.1, phi r.2)) (pop lt h).
Proof.
  unfold pop. cbn [hmap heap objects].
  destruct (nth_item (heap h) 0) as [top| |]; [|reflexivity..]. red_heap.
  rewrite deref_omap. unfold deref.
  destruct (objects h !! top) as [otop|]; [|reflexivity]. red_heap.
  destruct (_ =? _)%nat; [reflexivity|].
  destruct (nth_item (heap h) (length (heap h) - 1)) as [lk| |]; [|reflexivity..]. red_heap.
  destruct (set_nth_item (removelast (heap h)) 0 lk) as [hp| |]; [|reflexivity..]. red_heap.
  destruct (nth_item hp 0) as [first| |]; [|reflexivity..]. red_heap.
  rewrite set_index_omap. destruct (set_index (objects h) first 0) as [objs| |]; [|reflexivity..].
  red_heap.
  change (mkHeap hp (omap <$> objs)) with (hmap (mkHeap hp objs)).
  rewrite _adjust_hmap. destruct (_adjust lt (mkHeap hp objs) first); reflexivity.
Qed.

Lemma adjust_key_hmap h key v :
  adjust_key key_func lt (hmap h) key (phi v)
  = on_result hmap (adjust_key key_func lt h key v).
Proof.
  unfold adjust_key. cbn [hmap heap objects]. rewrite deref_omap. unfold deref.
  destruct (objects h !! key) as [o|] eqn:Ho; [|reflexivity].
  red_heap. rewrite phi_key.
  assert (E : mkHeap (heap h)
                (<[key := mkKey (phi v) (key_func v) (index o)]> (omap <$> objects h))
              = hmap (mkHeap (heap h)
                        (<[key := mkKey v (key_func v) (index o)]> (objects h)))).
  { unfold hmap. cbn [heap objects]. by rewrite list_fmap_insert. }
  rewrite E. apply _adjust_hmap.
Qed.

End Parametric.

Section Claims.
Context {TK TV : Type}.
Variable key_func : TV -> TK.
Variable lt : TK -> TK -> bool.
Hypothesis order : strict_weak_order lt.

(** C7. Each operation applied to a heap that satisfies the invariant (no
    child has a key smaller than its parent's, and every stored handle's
    [index] is its position in the array) returns, and the heap it leaves
    satisfies the invariant: [push] of any value, [pop] on a heap that is
    not empty, and [adjust_key] and [remove] on a handle of the heap. *)
Theorem heap_inv_preserved (h : AdjustableHeap TK TV) :
  heap_inv lt h ->
  (forall v, exists h' key, push key_func lt h v = Ok (h', key) /\ heap_inv lt h')
  /\ ((0 < len h)%nat -> exists h' v, pop lt h = Ok (h', v) /\ heap_inv lt h')
  /\ (forall key v, live h key ->
        exists h', adjust_key key_func lt h key v = Ok h' /\ heap_inv lt h')
  /\ (forall key, live h key ->
        exists h', remove lt h key = Ok h' /\ heap_inv lt h').
Proof.
  intros Hinv. split; [|split; [|split]].
  - intros v. destruct (push_spec key_func lt order h v Hinv) as (h' & key & E & I & _).
    eauto.
  - intros Hlen. destruct (pop_spec lt order h Hinv Hlen) as (h' & top & otop & E & _ & _ & I & _).
    eauto.
  - intros key v Hlive.
    destruct (adjust_key_spec key_func lt order h key v Hinv Hlive) as (h' & E & I & _).
    eauto.
  - intros key Hlive.
    destruct (remove_spec lt order h key Hinv Hlive) as (h' & E & I & _). eauto.
Qed.

(** C6. From a heap that satisfies the invariant, pushes followed only by
    pops return: the popped values come out with non-decreasing keys under
    [key_func], and both after the pushes and after the pops [peek]
    returns a value whose key is least among the values in the heap. *)
Theorem pops_come_out_sorted (h : AdjustableHeap TK TV) (vs : list TV) (n : nat) :
  heap_inv lt h -> consistent key_func h ->
  (n <= len h + length vs)%nat ->
  exists h1 out h2,
    push_all key_func lt h vs = Ok h1
    /\ pop_many lt n h1 = Ok (out, h2)
    /\ length out = n
    /\ StronglySorted (fun x y => lt (key_func y) (key_func x) = false) out
    /\ peek_is_min key_func lt h1
    /\ peek_is_min key_func lt h2.
Proof.
  intros Hinv Hc Hn.
  destruct (push_all_spec key_func lt order vs h Hinv Hc) as (h1 & E1 & I1 & C1 & L1).
  destruct (pop_many_spec key_func lt order n h1 I1 C1) as (out & h2 & E2 & I2 & C2 & Lo & _ & Hs).
  { unfold len in Hn. lia. }
  exists h1, out, h2. repeat split; try done.
  - by apply (peek_spec key_func lt order).
  - by apply (peek_spec key_func lt order).
Qed.

End Claims.

Lemma Z_strict_weak_order : strict_weak_order Z.ltb.
Proof.
  split.
  - intros x y H. apply Z.ltb_lt in H. apply Z.ltb_ge. lia.
  - unfold le. intros x y z H1 H2. apply Z.ltb_ge in H1, H2. apply Z.ltb_ge. lia.
Qed.

Lemma two_items_inv : heap_inv Z.ltb two_items.
Proof.
  intros [|[|i]] k; cbn; intros [= <-].
  - eexists. split; [reflexivity|]. split; [reflexivity|]. lia.
  - eexists. split; [reflexivity|]. split; [reflexivity|]. intros _.
    eexists _, _. split; [reflexivity|]. split; [reflexivity|]. reflexivity.
Qed.

Lemma heap_inv_preserved_witness :
  (forall v, exists h' key, push id Z.ltb two_items v = Ok (h', key) /\ heap_inv Z.ltb h')
  /\ ((0 < len two_items)%nat ->
      exists h' v, pop Z.ltb two_items = Ok (h', v) /\ heap_inv Z.ltb h')
  /\ (forall key v, live two_items key ->
        exists h', adjust_key id Z.ltb two_items key v = Ok h' /\ heap_inv Z.ltb h')
  /\ (forall key, live two_items key ->
        exists h', remove Z.ltb two_items key = Ok h' /\ heap_inv Z.ltb h').
Proof.
  apply (heap_inv_preserved id Z.ltb Z_strict_weak_order two_items).
  exact two_items_inv.
Defined.

Lemma pops_come_out_sorted_witness :
  exists h1 out h2,
    push_all id Z.ltb two_items [4; 1; 9] = Ok h1
    /\ pop_many Z.ltb 5 h1 = Ok (out, h2)
    /\ length out = 5%nat
    /\ StronglySorted (fun x y => (y <? x) = false) out
    /\ peek_is_min id Z.ltb h1
    /\ peek_is_min id Z.ltb h2.
Proof.
  apply (pops_come_out_sorted id Z.ltb Z_strict_weak_order two_items [4; 1; 9] 5).
  - exact two_items_inv.
  - repeat constructor.
  - cbn. lia.
Defined.

Example pops_of_two_items :
  (h1 ← push_all id Z.ltb two_items [4; 1; 9]; r ← pop_many Z.ltb 5 h1; Ok r.1)
  = Ok [1; 3; 4; 5; 9].
Proof. reflexivity. Qed.

End HeapFacts.
(** ** Min-cost flow *)

Module McfFacts.
Import Heap HeapSpec HeapFacts Mcf McfSpec.

(** *** Graphs made by [add_edge] *)

Lemma wf_add_edge g a b cap c :
  wf_graph g -> 0 <= cap -> 0 <= c ->
  (forall e o, edge_objects g !! e = Some o -> flow o = 0) ->
  wf_graph (add_edge g a b cap c)
  /\ (forall e o, edge_objects (add_edge g a b cap c) !! e = Some o -> flow o = 0)
  /\ potential (add_edge g a b cap c) = potential g.
Proof.
  intros [A C F] Hcap Hc Hz. unfold add_edge. cbn [edge_objects edges potential].
  set (n := length (edge_objects g)).
  assert (L : forall e o, (edge_objects g ++ [mkEdge a b 0 cap c]) !! e = Some o ->
              (edge_objects g !! e = Some o) \/ (e = n /\ o = mkEdge a b 0 cap c)).
  { intros e o He. apply lookup_app_Some in He as [He|[Hle He]]; [by left|].
    right. destruct (e - length (edge_objects g))%nat eqn:E; [|done].
    cbn in He. injection He as <-. split; [unfold n; lia | done]. }
  split; [split|split].
  - intros x e He. unfold edges_at in He. cbn [edges] in He.
    assert (e ∈ edges_at g x \/ (e = n /\ (x = a \/ x = b))) as [Hin|[-> Hx]].
    { destruct (decide (x = b)) as [->|Hxb].
      - rewrite lookup_insert_eq in He. cbn in He.
        apply elem_of_app in He as [He|He].
        + destruct (decide (b = a)) as [->|Hba].
          * rewrite lookup_insert_eq in He. cbn in He.
            apply elem_of_app in He as [He|He]; [by left|].
            apply list_elem_of_singleton in He. right. eauto.
          * rewrite lookup_insert_ne in He by done. by left.
        + apply list_elem_of_singleton in He. right. eauto.
      - rewrite lookup_insert_ne in He by done.
        destruct (decide (x = a)) as [->|Hxa].
        + rewrite lookup_insert_eq in He. cbn in He.
          apply elem_of_app in He as [He|He]; [by left|].
          apply list_elem_of_singleton in He. right. eauto.
        + rewrite lookup_insert_ne in He by done. by left. }
    + destruct (A x e Hin) as (o & Ho & Hx). exists o. split; [|done].
      by apply lookup_app_l_Some.
    + exists (mkEdge a b 0 cap c). split; [by apply list_lookup_middle|].
      cbn. destruct Hx; [by left | by right].
  - intros e o He. destruct (L e o He) as [H|[_ ->]]; [by eapply C | done].
  - intros e o He. destruct (L e o He) as [H|[_ ->]]; [by eapply F | cbn; lia].
  - intros e o He. destruct (L e o He) as [H|[_ ->]]; [by eapply Hz | done].
  - done.
Qed.

Lemma wf_build es :
  Forall (fun e : vertex * vertex * Z * Z => 0 <= e.1.2 /\ 0 <= e.2) es ->
  wf_graph (build es)
  /\ (forall e o, edge_objects (build es) !! e = Some o -> flow o = 0)
  /\ potential (build es) = ∅.
Proof.
  unfold build. intros H.
  assert (G : forall g, wf_graph g
              /\ (forall e o, edge_objects g !! e = Some o -> flow o = 0)
              /\ potential g = ∅ ->
            let g' := foldl (fun g e => add_edge g e.1.1.1 e.1.1.2 e.1.2 e.2) g es in
            wf_graph g'
            /\ (forall e o, edge_objects g' !! e = Some o -> flow o = 0)
            /\ potential g' = ∅).
  { induction H as [|e es [H1 H2] _ IH]; intros g Hg; [done|].
    cbn [foldl]. apply IH. destruct Hg as (W & Z0 & P).
    destruct (wf_add_edge g e.1.1.1 e.1.1.2 e.1.2 e.2 W H1 H2 Z0) as (W' & Z' & P').
    split; [done|]. split; [done|]. congruence. }
  apply G. split; [|done]. split.
  - intros x e He. unfold edges_at, empty in He. cbn in He.
    rewrite lookup_empty in He. by apply elem_of_nil in He.
  - intros e o He. done.
  - intros e o He. done.
Qed.


(** *** The search of one round *)

Section SearchFacts.
Variable g : MinCostFlow.
Variable R : vertex -> Prop.
Variable src : vertex.
Variable fm : option Z.
Variable flow0 : Z.
Hypothesis Hwf : wf_graph g.
Hypothesis Hreg : region_ok g R.
Hypothesis Hsrc : R src.
Hypothesis Hfm : forall m, fm = Some m -> 0 < m.

Local Abbreviation dj_inv := (dj_inv g R src fm flow0).
Local Abbreviation flow_cur_of := (flow_cur_of fm).
Local Abbreviation item_of := (item_of fm).
Local Abbreviation tree_edge := (tree_edge g fm).
Local Abbreviation relaxed := (relaxed g).
Local Abbreviation relaxed_entry := (relaxed_entry g fm).

Implicit Types (H : AdjustableHeap Z (vertex * Z * option Z))
  (D : gmap vertex (Z * option nat * Z * nat)) (rk : gmap vertex nat)
  (d : Z * option nat * Z * nat).

Lemma Z_order : strict_weak_order Z.ltb.
Proof.
  split.
  - intros x y E. apply Z.ltb_lt in E. apply Z.ltb_ge. lia.
  - unfold le. intros x y z H1 H2. apply Z.ltb_ge in H1, H2. apply Z.ltb_ge. lia.
Qed.

Lemma rescap_pos (e : nat) (o : Edge) (x : vertex) :
  edge_objects g !! e = Some o -> rescap o x <> 0 -> 0 < rescap o x.
Proof.
  intros Ho Hne. pose proof (flow_bounds g Hwf e o Ho).
  unfold rescap, directed_edge in *. destruct (String.eqb (u o) x); cbn in *; lia.
Qed.

Lemma target_vertex (e : nat) (o : Edge) (x : vertex) :
  edge_objects g !! e = Some o -> target o x ∈ vertices g src.
Proof.
  intros Ho. unfold vertices. apply elem_of_union_r, elem_of_list_to_set.
  apply list_elem_of_In, in_flat_map. exists o. split.
  - apply list_elem_of_In. by eapply list_elem_of_lookup_2.
  - unfold target, directed_edge. destruct (String.eqb (u o) x); cbn; tauto.
Qed.

(** The handle of an entry that is not popped names that entry only. *)
Lemma dj_handle_inj cur todo H D rk x y dx dy :
  dj_inv cur todo H D rk ->
  D !! x = Some dx -> rk !! x = None ->
  D !! y = Some dy -> rk !! y = None ->
  d_key dx = d_key dy -> x = y.
Proof.
  intros I Hx Rx Hy Ry Hk.
  assert (Hh1 : holds H (d_key dx) (item_of x dx)) by (apply (dj_heap _ _ _ _ _ _ _ _ _ _ I); eauto 8).
  assert (Hh2 : holds H (d_key dx) (item_of y dy)).
  { apply (dj_heap _ _ _ _ _ _ _ _ _ _ I). exists y, dy. eauto. }
  pose proof (holds_fun _ _ _ _ Hh1 Hh2) as E. by injection E.
Qed.

Lemma dj_popped_src cur todo H D rk c :
  dj_inv cur todo H D rk -> is_Some (rk !! c) -> is_Some (rk !! src).
Proof.
  intros I [r Hr]. destruct (dj_src_first _ _ _ _ _ _ _ _ _ _ I) as [->|?]; [|done].
  by rewrite lookup_empty in Hr.
Qed.

Lemma dj_update c e rest H D rk dc o hk' H' :
  dj_inv (Some c) (e :: rest) H D rk ->
  D !! c = Some dc ->
  edge_objects g !! e = Some o ->
  rescap o c <> 0 ->
  rk !! target o c = None ->
  (forall vd, D !! target o c = Some vd ->
     d_dist dc + reduced_cost (potential g) o c < d_dist vd) ->
  good item_key Z.ltb H' ->
  (forall hk it, holds H' hk it <->
     exists x d, <[target o c := relaxed_entry dc o c e hk']> D !! x = Some d
                 /\ rk !! x = None /\ d_key d = hk /\ it = item_of x d) ->
  dj_inv (Some c) rest H' (<[target o c := relaxed_entry dc o c e hk']> D) rk
  /\ <[target o c := relaxed_entry dc o c e hk']> D !! c = Some dc.
Proof.
  intros I Hc Ho Hcap Hto Hdec Hgood Hheap.
  destruct (dj_cur _ _ _ _ _ _ _ _ _ _ I c eq_refl) as (Rc & Htodo & Hmax).
  assert (Hne : target o c <> c) by (intros E; rewrite E in Hto; rewrite Hto in Rc; by destruct Rc).
  assert (Hnsrc : target o c <> src).
  { intros E. pose proof (dj_popped_src _ _ _ _ _ c I Rc) as [r Hr]. congruence. }
  assert (Rreg : R (target o c) /\ 0 <= reduced_cost (potential g) o c).
  { apply (Hreg c e o); [|apply Htodo; by left|done|done].
    apply (dj_region _ _ _ _ _ _ _ _ _ _ I). eauto. }
  destruct Rreg as [Rto Hrc].
  set (to := target o c) in *. set (d' := relaxed_entry dc o c e hk') in *.
  assert (Hpopped : forall x, is_Some (rk !! x) -> <[to := d']> D !! x = D !! x).
  { intros x [r Hr]. apply lookup_insert_ne. intros <-. congruence. }
  split; [|by rewrite Hpopped].
  split.
  - done.
  - done.
  - intros x r Hr. destruct (dj_rank _ _ _ _ _ _ _ _ _ _ I x r Hr) as [Hd Hlt].
    split; [|done]. rewrite Hpopped by eauto. done.
  - destruct (dj_src _ _ _ _ _ _ _ _ _ _ I) as [hk Hs]. exists hk.
    by rewrite lookup_insert_ne.
  - apply (dj_src_first _ _ _ _ _ _ _ _ _ _ I).
  - intros x d. destruct (decide (x = to)) as [->|Hx].
    + rewrite lookup_insert_eq. intros [= <-]. done.
    + rewrite lookup_insert_ne by done. apply (dj_root _ _ _ _ _ _ _ _ _ _ I).
  - intros x d e'. destruct (decide (x = to)) as [->|Hx].
    + rewrite lookup_insert_eq. intros [= <-] [= <-].
      destruct Rc as [rc Hrk].
      exists o, c, dc, rc. split; [apply Htodo; by left|]. split; [done|].
      split; [done|]. split; [done|]. split; [by rewrite Hpopped by eauto|].
      split; [done|]. split; [done|]. split; [done|].
      intros rx Hrx. rewrite Hto in Hrx. done.
    + rewrite lookup_insert_ne by done. intros Hd Hp.
      destruct (dj_tree _ _ _ _ _ _ _ _ _ _ I x d e' Hd Hp)
        as (o' & y & dy & ry & T1 & T2 & T3 & T4 & T5 & T6 & T7 & T8 & T9).
      exists o', y, dy, ry. rewrite Hpopped by eauto. done.
  - intros x d e'. destruct (decide (x = to)) as [->|Hx].
    + rewrite lookup_insert_eq. intros [= <-] _. cbn.
      pose proof (rescap_pos e o c Ho Hcap) as Hpos.
      unfold flow_cur_of. destruct (d_pred dc) as [ec|] eqn:Hpc.
      * destruct (dj_pos _ _ _ _ _ _ _ _ _ _ I c dc ec Hc Hpc) as [P1 P2].
        cbn. split; [lia|]. intros m Hm. specialize (P2 m Hm). lia.
      * destruct fm as [m|] eqn:Hm; cbn.
        -- pose proof (Hfm m eq_refl). split; [lia|]. intros m' [= <-]. lia.
        -- split; [lia|]. done.
    + rewrite lookup_insert_ne by done. apply (dj_pos _ _ _ _ _ _ _ _ _ _ I).
  - intros x dx e' Rx. rewrite Hpopped by done. intros Hx He' Hcur o' Ho' Hcap'.
    destruct (decide (x = c /\ e' = e)) as [[-> ->]|Hnot].
    + assert (o' = o) as -> by congruence. assert (dx = dc) as -> by congruence.
      exists d'. split; [by rewrite lookup_insert_eq|]. cbn. lia.
    + assert (Hold : relaxed D x dx e').
      { apply (dj_closed _ _ _ _ _ _ _ _ _ _ I x dx e' Rx Hx He').
        intros [= ->]. intros Hin. apply elem_of_cons in Hin as [->|Hin]; [tauto|].
        by apply Hcur. }
      destruct (Hold o' Ho' Hcap') as (dt & Hdt & Hle).
      destruct (decide (target o' x = to)) as [Et|Et].
      * exists d'. rewrite Et, lookup_insert_eq. split; [done|].
        rewrite Et in Hdt. specialize (Hdec dt Hdt). cbn. lia.
      * exists dt. by rewrite lookup_insert_ne.
  - intros x y dx dy Rx Ry. rewrite Hpopped by done. intros Hx.
    destruct (decide (y = to)) as [->|Hy].
    + rewrite lookup_insert_eq. intros [= <-]. cbn.
      pose proof (Hmax x dx dc Rx Hx Hc). lia.
    + rewrite lookup_insert_ne by done. intros Hy'.
      by apply (dj_settled _ _ _ _ _ _ _ _ _ _ I x y dx dy).
  - intros c' [= <-]. split; [done|]. split.
    + intros e' He'. apply Htodo. by right.
    + intros x dx dc' Rx. rewrite !Hpopped by done. apply Hmax. done.
  - intros x. destruct (decide (x = to)) as [->|Hx]; [done|].
    rewrite lookup_insert_ne by done. apply (dj_region _ _ _ _ _ _ _ _ _ _ I).
  - intros x. destruct (decide (x = to)) as [->|Hx].
    + intros _. by eapply target_vertex.
    + rewrite lookup_insert_ne by done. apply (dj_verts _ _ _ _ _ _ _ _ _ _ I).
Qed.


Lemma dj_weaken c e rest H D rk :
  dj_inv (Some c) (e :: rest) H D rk ->
  (forall dc, D !! c = Some dc -> relaxed D c dc e) ->
  dj_inv (Some c) rest H D rk.
Proof.
  intros I Hrel.
  destruct (dj_cur _ _ _ _ _ _ _ _ _ _ I c eq_refl) as (Rc & Htodo & Hmax).
  destruct I as [I1 I2 I3 I4 I5 I6 I7 I8 I9 I10 I11 I12 I13].
  split; try done.
  - intros x dx e' Rx Hx He' Hcur.
    destruct (decide (x = c /\ e' = e)) as [[-> ->]|Hnot]; [by apply Hrel|].
    apply I9; try done. intros [= ->] Hin.
    apply elem_of_cons in Hin as [->|Hin]; [tauto|]. by apply Hcur.
  - intros c' [= <-]. split; [done|]. split; [|done].
    intros e' He'. apply Htodo. by right.
Qed.

(** One round of the loop over the edges of [c]. *)
Lemma relax_spec c e rest H D rk dc :
  dj_inv (Some c) (e :: rest) H D rk ->
  D !! c = Some dc ->
  exists H' D',
    relax g c (d_dist dc) (flow_cur_of dc) (H, D) e = Ok (H', D')
    /\ dj_inv (Some c) rest H' D' rk
    /\ D' !! c = Some dc.
Proof.
  intros I Hc.
  destruct (dj_cur _ _ _ _ _ _ _ _ _ _ I c eq_refl) as (Rc & Htodo & Hmax).
  destruct (adj_sound g Hwf c e (Htodo e ltac:(by left))) as (o & Ho & Hend).
  unfold relax. unfold Mcf.deref. rewrite Ho. cbn [mbind result_bind].
  assert (Hde : directed_edge o c = (target o c, rescap o c, arc_cost o c))
    by (unfold target, rescap, arc_cost; by destruct (directed_edge o c) as [[? ?] ?]).
  rewrite Hde.
  destruct (Z.eqb_spec (rescap o c) 0) as [Hz|Hnz].
  { exists H, D. split; [done|]. split; [|done].
    apply (dj_weaken c e); [done|]. intros dc' _ o' Ho' Hcap.
    assert (o' = o) as -> by congruence. done. }
  assert (Rreg : R (target o c) /\ 0 <= reduced_cost (potential g) o c).
  { apply (Hreg c e o); [|apply Htodo; by left|done|done].
    apply (dj_region _ _ _ _ _ _ _ _ _ _ I). eauto. }
  destruct Rreg as [Rto Hrc].
  assert (End : d_dist dc + arc_cost o c + potential_at g c - potential_at g (target o c)
                = d_dist dc + reduced_cost (potential g) o c).
  { unfold reduced_cost, potential_at. lia. }
  rewrite End.
  assert (Enf : match flow_cur_of dc with
                | Some f => Z.min f (rescap o c)
                | None => rescap o c
                end = min_opt (flow_cur_of dc) (rescap o c)) by done.
  rewrite Enf.
  destruct (D !! target o c) as [vd|] eqn:Hvd.
  - destruct (Z.ltb_spec (d_dist dc + reduced_cost (potential g) o c) vd.1.1.1) as [Hlt|Hge].
    + (* a shorter path to a vertex of the heap *)
      assert (Rto' : rk !! target o c = None).
      { destruct (rk !! target o c) as [r|] eqn:Hr; [|done].
        pose proof (Hmax (target o c) vd dc ltac:(eauto) Hvd Hc).
        unfold d_dist in *. lia. }
      assert (Hh : holds H (d_key vd) (item_of (target o c) vd)).
      { apply (dj_heap _ _ _ _ _ _ _ _ _ _ I). eauto 8. }
      destruct (adjust_key_holds item_key Z.ltb Z_order H (d_key vd)
                  (target o c, d_dist dc + reduced_cost (potential g) o c,
                   Some (min_opt (flow_cur_of dc) (rescap o c)))
                  (dj_good _ _ _ _ _ _ _ _ _ _ I) ltac:(eauto))
        as (H' & E & G' & Hholds).
      cbv zeta. unfold d_key in E. rewrite E. cbn [mbind result_bind]. fold (d_key vd).
      eexists _, _. split; [done|].
      apply (dj_update c e rest H D rk dc o (d_key vd) H'); try done.
      * intros vd' Hvd'. assert (vd' = vd) as -> by congruence. done.
      * intros hk it. rewrite Hholds. rewrite (dj_heap _ _ _ _ _ _ _ _ _ _ I). split.
        -- intros [[Hne (x & d & Hx & Rx & Hk & ->)]|[-> ->]].
           ++ exists x, d. split; [|done]. rewrite lookup_insert_ne; [done|].
              intros <-. assert (d = vd) as -> by congruence. done.
           ++ eexists _, _. rewrite lookup_insert_eq. done.
        -- intros (x & d & Hx & Rx & Hk & ->).
           destruct (decide (x = target o c)) as [->|Hxt].
           ++ rewrite lookup_insert_eq in Hx. injection Hx as <-. right. done.
           ++ rewrite lookup_insert_ne in Hx by done. left. split; [|eauto 8].
              intros Heq. apply Hxt.
              apply (dj_handle_inj _ _ H D rk x (target o c) d vd I); try done.
              congruence.
    + (* no shorter path *)
      exists H, D. split; [done|]. split; [|done].
      apply (dj_weaken c e); [done|]. intros dc' Hc' o' Ho' _.
      assert (o' = o) as -> by congruence. assert (dc' = dc) as -> by congruence.
      exists vd. split; [done|]. unfold d_dist in *. lia.
  - (* a new vertex *)
    destruct (push_holds item_key Z.ltb Z_order H
                (target o c, d_dist dc + reduced_cost (potential g) o c,
                 Some (min_opt (flow_cur_of dc) (rescap o c)))
                (dj_good _ _ _ _ _ _ _ _ _ _ I))
      as (H' & key & E & G' & Hfresh & Hholds).
    rewrite E. cbn [mbind result_bind].
    assert (Rto' : rk !! target o c = None).
    { destruct (rk !! target o c) as [r|] eqn:Hr; [|done].
      destruct (dj_rank _ _ _ _ _ _ _ _ _ _ I _ _ Hr) as [[? ?] _]. congruence. }
    eexists _, _. split; [done|].
    apply (dj_update c e rest H D rk dc o key H'); try done.
    * intros vd Hvd'. congruence.
    * intros hk it. rewrite Hholds. rewrite (dj_heap _ _ _ _ _ _ _ _ _ _ I). split.
      -- intros [(x & d & Hx & Rx & Hk & ->)|[-> ->]].
         ++ exists x, d. split; [|done]. rewrite lookup_insert_ne; [done|].
            intros <-. congruence.
         ++ eexists _, _. rewrite lookup_insert_eq. done.
      -- intros (x & d & Hx & Rx & Hk & ->).
         destruct (decide (x = target o c)) as [->|Hxt].
         ++ rewrite lookup_insert_eq in Hx. injection Hx as <-. right. done.
         ++ rewrite lookup_insert_ne in Hx by done. left. eauto 8.
Qed.

Lemma relax_all_spec c (todo : list nat) :
  forall H D rk dc,
  dj_inv (Some c) todo H D rk ->
  D !! c = Some dc ->
  exists H' D',
    relax_all g c (d_dist dc) (flow_cur_of dc) (H, D) todo = Ok (H', D')
    /\ dj_inv None [] H' D' rk.
Proof.
  induction todo as [|e rest IH]; intros H D rk dc I Hc.
  - exists H, D. split; [done|].
    destruct I as [I1 I2 I3 I4 I5 I6 I7 I8 I9 I10 I11 I12 I13].
    split; try done.
    intros x dx e Rx Hx He _. apply I9; try done. intros _. apply not_elem_of_nil.
  - destruct (relax_spec c e rest H D rk dc I Hc) as (H1 & D1 & E1 & I1 & Hc1).
    destruct (IH H1 D1 rk dc I1 Hc1) as (H' & D' & E' & I').
    exists H', D'. cbn [relax_all]. rewrite E1. cbn [mbind result_bind]. done.
Qed.


(** Popping the least item: its vertex gets the next rank. *)
Lemma pop_step H D rk :
  dj_inv None [] H D rk -> (0 < length (heap H))%nat ->
  exists H' c dc,
    pop Z.ltb H = Ok (H', item_of c dc)
    /\ D !! c = Some dc /\ rk !! c = None
    /\ dj_inv (Some c) (edges_at g c) H' D (<[c := size rk]> rk).
Proof.
  intros I Hlen.
  destruct (pop_holds item_key Z.ltb Z_order H (dj_good _ _ _ _ _ _ _ _ _ _ I) Hlen)
    as (H' & top & v & E & G' & Htop & Hmin & Hholds).
  pose proof Htop as Htop'.
  apply (dj_heap _ _ _ _ _ _ _ _ _ _ I) in Htop' as (c & dc & Hc & Rc & Hk & ->).
  exists H', c, dc. split; [done|]. split; [done|]. split; [done|].
  assert (Hsz : size (<[c := size rk]> rk) = S (size rk)) by by rewrite map_size_insert_None.
  assert (Hleast : forall y dy, rk !! y = None -> D !! y = Some dy -> d_dist dc <= d_dist dy).
  { intros y dy Ry Hy.
    assert (Hh : holds H (d_key dy) (item_of y dy))
      by (apply (dj_heap _ _ _ _ _ _ _ _ _ _ I); eauto 8).
    apply Hmin in Hh. apply Z.ltb_ge in Hh. done. }
  pose proof I as [I1 I2 I3 I4 I5 I6 I7 I8 I9 I10 I11 I12 I13].
  split; try done.
  - intros hk it. rewrite Hholds, I2. split.
    + intros [(x & d & Hx & Rx & Hk' & ->) Hne]. exists x, d.
      split; [done|]. split; [|done]. rewrite lookup_insert_ne; [done|].
      intros <-. assert (d = dc) as -> by congruence. congruence.
    + intros (x & d & Hx & Rx & Hk' & ->).
      apply lookup_insert_None in Rx as [Rx Hne]. split; [eauto 8|].
      intros ->. apply Hne. subst top.
      by apply (dj_handle_inj _ _ H D rk c x dc d I).
  - intros x r Hr. rewrite Hsz. apply lookup_insert_Some in Hr as [[<- <-]|[Hne Hr]].
    + split; [eauto|lia].
    + destruct (I3 x r Hr). split; [done|lia].
  - right. destruct (decide (c = src)) as [->|Hne].
    + rewrite lookup_insert_eq. eauto.
    + rewrite lookup_insert_ne by done. destruct I5 as [->|?]; [|done].
      exfalso. destruct (d_pred dc) as [e|] eqn:Hp.
      * destruct (I7 c dc e Hc Hp) as (o & y & dy & ry & _ & _ & _ & _ & _ & Hry & _).
        by rewrite lookup_empty in Hry.
      * apply Hne. by apply (I6 c dc).
  - intros x d e Hx Hp.
    destruct (I7 x d e Hx Hp) as (o & y & dy & ry & H1 & H2 & H3 & H4 & H5 & H6 & H7 & H8 & H9).
    exists o, y, dy, ry. repeat (split; [done|]).
    split. { rewrite lookup_insert_ne; [done|]. intros <-. congruence. }
    split; [done|]. split; [done|].
    intros rx Hrx. apply lookup_insert_Some in Hrx as [[<- <-]|[Hne Hrx]].
    + by destruct (I3 y ry H6).
    + by apply H9.
  - intros x dx e Rx Hx He Hcur.
    destruct (decide (x = c)) as [->|Hne]; [by destruct (Hcur eq_refl)|].
    rewrite lookup_insert_ne in Rx by done. by apply I9.
  - intros x y dx dy Rx Ry Hx Hy.
    apply lookup_insert_None in Ry as [Ry Hne].
    destruct (decide (x = c)) as [->|Hne'].
    + assert (dx = dc) as -> by congruence. by apply (Hleast y dy).
    + rewrite lookup_insert_ne in Rx by done. by apply (I10 x y).
  - intros c' [= <-]. split; [rewrite lookup_insert_eq; eauto|]. split; [done|].
    intros x dx dc' Rx Hx Hc'. assert (dc' = dc) as -> by congruence.
    destruct (decide (x = c)) as [->|Hne'].
    + assert (dx = dc) as -> by congruence. lia.
    + rewrite lookup_insert_ne in Rx by done. by apply (I10 x c).
Qed.

Lemma dj_ranked_size cur todo H D rk :
  dj_inv cur todo H D rk -> (size rk <= size (vertices g src))%nat.
Proof.
  intros I. rewrite <- size_dom. apply subseteq_size.
  intros x Hx. apply elem_of_dom in Hx as [r Hr].
  apply (dj_verts _ _ _ _ _ _ _ _ _ _ I).
  by destruct (dj_rank _ _ _ _ _ _ _ _ _ _ I x r Hr).
Qed.

(** The search returns once every vertex it reached is popped. *)
Lemma shortest_paths_spec (fuel : nat) :
  forall H D rk,
  dj_inv None [] H D rk ->
  (size (vertices g src) - size rk < fuel)%nat ->
  exists H' D' rk',
    shortest_paths fuel g (H, D) = Ok D'
    /\ dj_inv None [] H' D' rk'
    /\ forall x, is_Some (D' !! x) -> is_Some (rk' !! x).
Proof.
  induction fuel as [|fuel IH]; intros H D rk I Hfuel; [lia|].
  cbn [shortest_paths]. unfold Heap.len.
  destruct (Nat.ltb_spec 0 (length (heap H))) as [Hlen|Hlen].
  - destruct (pop_step H D rk I Hlen) as (H1 & c & dc & E & Hc & Rc & I1).
    rewrite E. cbn [mbind result_bind]. unfold McfSpec.item_of at 1.
    destruct (relax_all_spec c (edges_at g c) H1 D _ dc I1 Hc) as (H2 & D2 & E2 & I2).
    rewrite E2. cbn [mbind result_bind].
    pose proof (dj_ranked_size _ _ _ _ _ I2) as Hsz.
    rewrite map_size_insert_None in Hsz by done.
    apply (IH H2 D2 _ I2). rewrite map_size_insert_None by done. lia.
  - exists H, D, rk. split; [done|]. split; [done|].
    intros x [d Hx]. destruct (rk !! x) as [r|] eqn:Hr; [eauto|].
    assert (Hh : holds H (d_key d) (item_of x d))
      by (apply (dj_heap _ _ _ _ _ _ _ _ _ _ I); eauto 8).
    destruct Hh as [Hin _]. destruct (heap H); [by apply elem_of_nil in Hin|cbn in Hlen; lia].
Qed.

End SearchFacts.

(** *** The search with a bound *)

Section Bounded.
Variable g : MinCostFlow.
Variable K : Z.

Lemma cap_item_key (it : vertex * Z * option Z) : item_key (cap_item K it) = item_key it.
Proof. done. Qed.

Lemma relax_cap c dst fc H D e :
  relax g c dst (cap_flow K fc) (cap_state K (H, D)) e
  = on_result (cap_state K) (relax g c dst fc (H, D) e).
Proof.
  unfold relax, cap_state. cbn [fst snd]. unfold Mcf.deref.
  destruct (edge_objects g !! e) as [o|]; [|reflexivity]. cbn [mbind result_bind].
  destruct (directed_edge o c) as [[to cap] cost].
  destruct (cap =? 0); [reflexivity|].
  rewrite lookup_fmap.
  assert (Emin : Z.min (min_opt fc K) cap = Z.min (min_opt fc cap) K)
    by (destruct fc; cbn; lia).
  cbn [cap_flow]. rewrite Emin.
  set (nd := dst + cost + potential_at g c - potential_at g to).
  set (nf := match fc with Some f => Z.min f cap | None => cap end).
  change (min_opt fc cap) with nf.
  destruct (D !! to) as [vd|]; cbn [fmap option_fmap option_map].
  - assert (E1 : (cap_entry K vd).1.1.1 = vd.1.1.1)
      by (unfold cap_entry; destruct (d_pred vd); done).
    assert (E2 : (cap_entry K vd).2 = vd.2)
      by (unfold cap_entry; destruct (d_pred vd); done).
    rewrite E1, E2. destruct (nd <? vd.1.1.1); [|reflexivity].
    change (to, nd, Some (Z.min nf K)) with (cap_item K (to, nd, Some nf)).
    rewrite (adjust_key_hmap item_key Z.ltb (cap_item K) cap_item_key).
    destruct (adjust_key item_key Z.ltb H vd.2 (to, nd, Some nf)) as [H'| |]; [|reflexivity..].
    cbn [on_result mbind result_bind fst snd]. by rewrite fmap_insert.
  - change (to, nd, Some (Z.min nf K)) with (cap_item K (to, nd, Some nf)).
    rewrite (push_hmap item_key Z.ltb (cap_item K) cap_item_key).
    destruct (push item_key Z.ltb H (to, nd, Some nf)) as [[H' key]| |]; [|reflexivity..].
    cbn [on_result mbind result_bind fst snd]. by rewrite fmap_insert.
Qed.

Lemma relax_all_cap c dst fc (es : list nat) : forall st,
  relax_all g c dst (cap_flow K fc) (cap_state K st) es
  = on_result (cap_state K) (relax_all g c dst fc st es).
Proof.
  induction es as [|e es IH]; intros [H D]; [done|].
  cbn [relax_all]. rewrite relax_cap.
  destruct (relax g c dst fc (H, D) e) as [st'| |]; [|reflexivity..].
  cbn [on_result mbind result_bind]. apply IH.
Qed.

Lemma shortest_paths_cap (fuel : nat) : forall st,
  shortest_paths fuel g (cap_state K st)
  = on_result (fmap (cap_entry K)) (shortest_paths fuel g st).
Proof.
  induction fuel as [|fuel IH]; intros [H D]; [done|].
  cbn [shortest_paths cap_state fst snd]. unfold Heap.len. cbn [hmap heap].
  destruct (0 <? length (heap H))%nat; [|reflexivity].
  change (mkHeap (heap H) (omap (cap_item K) <$> objects H)) with (hmap (cap_item K) H).
  rewrite pop_hmap.
  destruct (pop Z.ltb H) as [[H' [[from dst] fc]]| |]; [|reflexivity..].
  cbn [on_result mbind result_bind fst snd cap_item].
  change (hmap (cap_item K) H', cap_entry K <$> D) with (cap_state K (H', D)).
  rewrite relax_all_cap.
  destruct (relax_all g from dst fc (H', D) (edges_at g from)) as [st'| |]; [|reflexivity..].
  cbn [on_result mbind result_bind]. apply IH.
Qed.

Lemma augment_cap (fuel : nat) : forall objs D x a,
  augment fuel objs (cap_entry K <$> D) x a = augment fuel objs D x a.
Proof.
  induction fuel as [|fuel IH]; intros objs D x a; [done|].
  cbn [augment]. rewrite lookup_fmap.
  destruct (D !! x) as [[[[d p] f] key]|]; [|done].
  destruct p as [e|]; [|done]. cbn [fmap option_fmap option_map cap_entry d_pred fst snd].
  destruct (Mcf.deref objs e) as [o| |]; [|done..]. cbn [mbind result_bind]. apply IH.
Qed.

End Bounded.

Lemma update_potential_lookup (pot : gmap vertex Z) (D : gmap vertex (Z * option nat * Z * nat)) x :
  update_potential pot D !! x
  = match D !! x with
    | Some d => Some (default 0 (pot !! x) + d_dist d)
    | None => pot !! x
    end.
Proof.
  unfold update_potential. revert x.
  apply (map_fold_weak_ind (fun r (m : gmap vertex (Z * option nat * Z * nat)) =>
    forall x, r !! x = match m !! x with
                       | Some d => Some (default 0 (pot !! x) + d_dist d)
                       | None => pot !! x
                       end)).
  - intros x. by rewrite lookup_empty.
  - intros i d m r Hi IH x. destruct (decide (x = i)) as [->|Hne].
    + rewrite !lookup_insert_eq. rewrite IH, Hi. done.
    + rewrite !lookup_insert_ne by done. apply IH.
Qed.

Lemma update_potential_cap K pot (D : gmap vertex (Z * option nat * Z * nat)) :
  update_potential pot (cap_entry K <$> D) = update_potential pot D.
Proof.
  apply map_eq. intros x. rewrite !update_potential_lookup, lookup_fmap.
  destruct (D !! x) as [d|]; [|done]. cbn. unfold cap_entry. by destruct (d_pred d).
Qed.

(** *** Augmenting along the path *)

Lemma same_edges_refl objs : same_edges objs objs.
Proof. apply Forall2_same_length_lookup. split; [done|]. intros i x y ? ?. by assert (x = y) as -> by congruence. Qed.

Lemma same_edges_lookup base objs e o' :
  same_edges base objs -> objs !! e = Some o' ->
  exists o, base !! e = Some o /\ u o' = u o /\ v o' = v o
            /\ capacity o' = capacity o /\ cost o' = cost o.
Proof.
  intros Hs Ho. destruct (Forall2_lookup_r _ _ _ _ _ Hs Ho) as (o & Hb & Hp). eauto.
Qed.

Lemma same_edges_target o o' x :
  u o' = u o -> v o' = v o -> target o' x = target o x.
Proof. unfold target, directed_edge. intros -> ->. by destruct (String.eqb (u o) x). Qed.

Lemma same_edges_arc_cost o o' x :
  u o' = u o -> cost o' = cost o -> arc_cost o' x = arc_cost o x.
Proof. unfold arc_cost, directed_edge. intros -> ->. by destruct (String.eqb (u o) x). Qed.

Lemma same_edges_insert base objs e o o' :
  same_edges base objs -> objs !! e = Some o ->
  u o' = u o -> v o' = v o -> capacity o' = capacity o -> cost o' = cost o ->
  same_edges base (<[e := o']> objs).
Proof.
  intros Hs Ho Hu Hv Hc Hk.
  apply Forall2_same_length_lookup in Hs as [Hlen Hs].
  apply Forall2_same_length_lookup. split; [by rewrite length_insert|].
  intros i b x Hb Hx. destruct (decide (i = e)) as [->|Hne].
  - rewrite list_lookup_insert_eq in Hx by (by eapply lookup_lt_Some).
    injection Hx as <-. destruct (Hs e b o Hb Ho) as (? & ? & ? & ?).
    repeat split; congruence.
  - rewrite list_lookup_insert_ne in Hx by done. by apply (Hs i).
Qed.

Lemma same_edges_vertices base objs :
  same_edges base objs ->
  flat_map (fun o => [u o; v o]) objs = flat_map (fun o => [u o; v o]) base.
Proof.
  induction 1 as [|b o base objs (Hu & Hv & _) _ IH]; [done|].
  cbn. by rewrite Hu, Hv, IH.
Qed.

Lemma sum_insert (f : Edge -> Z) (objs : list Edge) e o o' :
  objs !! e = Some o ->
  foldr Z.add 0 (f <$> <[e := o']> objs) = foldr Z.add 0 (f <$> objs) + f o' - f o.
Proof.
  revert e. induction objs as [|x objs IH]; intros [|e] Ho; try done.
  - injection Ho as ->. cbn. lia.
  - cbn in Ho. change (<[S e := o']> (x :: objs)) with (x :: <[e := o']> objs).
    rewrite !fmap_cons. cbn [foldr]. rewrite (IH e Ho). lia.
Qed.

(** Pushing [a] through an edge from [y] moves [a] from the net flow of the
    far end to the net flow of [y]. *)
Lemma net_add_flow objs e o y a z :
  objs !! e = Some o -> u o = y \/ v o = y ->
  net (<[e := Edge_add_flow o y a]> objs) z
  = net objs z + at_vertex y z a - at_vertex (target o y) z a.
Proof.
  intros Ho Hy. unfold net. rewrite (sum_insert _ objs e o _ Ho).
  unfold at_vertex, target, Edge_add_flow, directed_edge.
  destruct (String.eqb_spec (u o) y) as [Hu|Hu]; cbn [u v flow fst snd].
  - subst y. rewrite (String.eqb_sym z (u o)), (String.eqb_sym z (v o)).
    destruct (String.eqb (u o) z), (String.eqb (v o) z); lia.
  - destruct Hy as [?|Hv]; [done|]. subst y.
    rewrite (String.eqb_sym z (u o)), (String.eqb_sym z (v o)).
    destruct (String.eqb (u o) z), (String.eqb (v o) z); lia.
Qed.

Section Augment.
Variable g : MinCostFlow.
Variable R : vertex -> Prop.
Variable src : vertex.
Variable fm : option Z.
Variable flow0 : Z.
Variable H : AdjustableHeap Z (vertex * Z * option Z).
Variable D : gmap vertex (Z * option nat * Z * nat).
Variable rk : gmap vertex nat.
Hypothesis Hwf : wf_graph g.
Hypothesis I : dj_inv g R src fm flow0 None [] H D rk.
Hypothesis Hall : forall x, is_Some (D !! x) -> is_Some (rk !! x).

Local Abbreviation flow_cur_of := (flow_cur_of fm).

(** The edge that reached [x] seen from [x]: it leads back to a vertex that
    was popped before [x]. *)
Lemma tree_edge_back x dx e :
  D !! x = Some dx -> d_pred dx = Some e ->
  exists o y dy ry rx,
    edge_objects g !! e = Some o /\ e ∈ edges_at g y
    /\ target o x = y /\ target o y = x /\ x <> y
    /\ (forall w, u o = w \/ v o = w -> w = x \/ w = y)
    /\ (u o = y \/ v o = y)
    /\ D !! y = Some dy /\ rk !! y = Some ry /\ rk !! x = Some rx /\ (ry < rx)%nat
    /\ rescap o y <> 0
    /\ arc_cost o x = - arc_cost o y
    /\ d_dist dx = d_dist dy + reduced_cost (potential g) o y
    /\ d_flow dx = min_opt (flow_cur_of dy) (rescap o y).
Proof.
  intros Hx Hp.
  destruct (dj_tree _ _ _ _ _ _ _ _ _ _ I x dx e Hx Hp)
    as (o & y & dy & ry & He & Ho & Ht & Hc & Hy & Ry & Hd & Hf & Hr).
  destruct (Hall x ltac:(eauto)) as [rx Rx]. pose proof (Hr rx Rx) as Hlt.
  assert (Hne : x <> y) by (intros ->; assert (rx = ry) by congruence; lia).
  destruct (adj_sound g Hwf y e He) as (o' & Ho' & Hend).
  assert (o' = o) as -> by congruence.
  assert (A : target o x = y /\ (forall w, u o = w \/ v o = w -> w = x \/ w = y)
               /\ arc_cost o x = - arc_cost o y).
  { revert Ht Hne Hend. unfold target, arc_cost, directed_edge.
    destruct (String.eqb_spec (u o) y) as [Hu|Hu]; cbn [fst snd].
    - intros Hv Hne _. destruct (String.eqb_spec (u o) x) as [Hu'|Hu']; [congruence|].
      cbn [fst snd]. split; [done|]. split; [|lia].
      intros w [?|?]; [right|left]; congruence.
    - intros Hu' Hne [?|Hv]; [done|]. destruct (String.eqb_spec (u o) x) as [_|?]; [|done].
      cbn [fst snd]. split; [done|]. split; [|lia].
      intros w [?|?]; [left|right]; congruence. }
  destruct A as (A1 & A2 & A3).
  exists o, y, dy, ry, rx. split_and!; done.
Qed.

(** An edge reached one vertex at most. *)
Lemma pred_edge_inj x x' dx dx' e :
  D !! x = Some dx -> d_pred dx = Some e ->
  D !! x' = Some dx' -> d_pred dx' = Some e -> x = x'.
Proof.
  intros Hx Hp Hx' Hp'.
  destruct (tree_edge_back x dx e Hx Hp)
    as (o & y & dy & ry & rx & Ho & _ & _ & Hty & _ & Hends & Hy & _ & Ry & Rx & Hlt & _).
  destruct (tree_edge_back x' dx' e Hx' Hp')
    as (o' & y' & dy' & ry' & rx' & Ho' & _ & Htx' & Hty' & Hne' & Hends' & Hy' & _ & Ry' & Rx' & Hlt' & _).
  assert (o' = o) as -> by congruence.
  destruct (decide (x = x')) as [|Hne]; [done|exfalso].
  assert (Hxe : u o = x \/ v o = x).
  { revert Hty. unfold target, directed_edge.
    destruct (String.eqb_spec (u o) y); cbn [fst snd]; tauto. }
  destruct (Hends' x Hxe) as [? | ->]; [done|].
  assert (Hx'e : u o = x' \/ v o = x').
  { revert Hty'. unfold target, directed_edge.
    destruct (String.eqb_spec (u o) y'); cbn [fst snd]; tauto. }
  destruct (Hends x' Hx'e) as [? | ->]; [done|].
  assert (rx = ry') by congruence. assert (rx' = ry) by congruence. lia.
Qed.

Lemma min_opt_le_r f c : min_opt f c <= c.
Proof. destruct f; cbn; lia. Qed.

Lemma Edge_add_flow_same o y a :
  u (Edge_add_flow o y a) = u o /\ v (Edge_add_flow o y a) = v o
  /\ capacity (Edge_add_flow o y a) = capacity o /\ cost (Edge_add_flow o y a) = cost o.
Proof. unfold Edge_add_flow. by destruct (String.eqb (u o) y). Qed.

(** The walk back from [x] pushes [a] through the edges of the path that
    reached [x], each of them once. *)
Lemma augment_spec (a : Z) (fuel : nat) : forall x dx rx objs,
  D !! x = Some dx -> rk !! x = Some rx -> (rx < fuel)%nat ->
  (forall e, d_pred dx = Some e -> a <= d_flow dx) ->
  same_edges (edge_objects g) objs ->
  (forall e z dz rz, D !! z = Some dz -> d_pred dz = Some e -> rk !! z = Some rz ->
     (rz <= rx)%nat -> objs !! e = edge_objects g !! e) ->
  exists objs',
    augment fuel objs D x a = Ok objs'
    /\ same_edges (edge_objects g) objs'
    /\ (forall z, net objs' z = net objs z + at_vertex src z a - at_vertex x z a)
    /\ (forall e, objs' !! e = objs !! e
                  \/ exists z dz o,
                       D !! z = Some dz /\ d_pred dz = Some e
                       /\ edge_objects g !! e = Some o
                       /\ a <= rescap o (target o z)
                       /\ objs' !! e = Some (Edge_add_flow o (target o z) a)).
Proof.
  induction fuel as [|fuel IH]; intros x dx rx objs Hx Rx Hfuel Ha Hs Hagree; [lia|].
  cbn [augment]. rewrite Hx. destruct dx as [[[d p] f] key]. destruct p as [e|].
  - destruct (tree_edge_back x _ e Hx eq_refl)
      as (o & y & dy & ry & rx' & Ho & He & Htx & Hty & Hne & Hends & Hy & Dy & Ry & Rx'
          & Hlt & Hcap & Hcost & Hd & Hf).
    assert (rx' = rx) as -> by congruence.
    assert (Hoe : objs !! e = Some o).
    { rewrite <- Ho. apply (Hagree e x _ rx Hx eq_refl Rx). lia. }
    unfold Mcf.deref. rewrite Hoe. cbn [mbind result_bind].
    change (directed_edge o x).1.1 with (target o x). rewrite Htx.
    pose proof (Ha e eq_refl) as Ha'.
    pose proof (min_opt_le_r (flow_cur_of dy) (rescap o y)) as Hle.
    destruct (Edge_add_flow_same o y a) as (S1 & S2 & S3 & S4).
    destruct (IH y dy ry (<[e := Edge_add_flow o y a]> objs) Dy Ry ltac:(lia))
      as (objs' & E & Hs' & Hnet & Hch).
    + intros e' Hp'. rewrite Hf in Ha'. unfold McfSpec.flow_cur_of in Ha'.
      rewrite Hp' in Ha'. cbn in Ha'. lia.
    + by apply (same_edges_insert _ _ e o).
    + intros e' z dz rz Hz Hpz Rz Hrz. rewrite list_lookup_insert_ne.
      * apply (Hagree e' z dz rz Hz Hpz Rz). lia.
      * intros <-. assert (z = x) as -> by by eapply pred_edge_inj.
        assert (rz = rx) by congruence. lia.
    + exists objs'. split; [done|]. split; [done|]. split.
      * intros z. rewrite Hnet, (net_add_flow objs e o y a z Hoe Hy), Hty. lia.
      * intros e'. destruct (Hch e') as [Hsame|Hnew]; [|by right].
        destruct (decide (e' = e)) as [->|Hne'].
        -- right. exists x, (d, Some e, f, key), o. rewrite Htx.
           split; [done|]. split; [done|]. split; [done|]. split; [cbn in *; lia|].
           rewrite Hsame. apply list_lookup_insert_eq. by eapply lookup_lt_Some.
        -- left. by rewrite Hsame, list_lookup_insert_ne.
  - exists objs. split; [done|]. split; [done|].
    assert (x = src) as -> by by apply (dj_root _ _ _ _ _ _ _ _ _ _ I x _ Hx).
    split; [intros z; lia|]. intros e. by left.
Qed.

End Augment.

(** *** One round *)

Section Round.
Variable g : MinCostFlow.
Variable R : vertex -> Prop.
Variable src snk : vertex.
Variable fm : option Z.
Variable flow0 : Z.
Variable inner : nat.
Hypothesis Hwf : wf_graph g.
Hypothesis Hreg : region_ok g R.
Hypothesis Hsrc : R src.
Hypothesis Hne : src <> snk.
Hypothesis Hfm : forall m, fm = Some m -> 0 < m.
Hypothesis Hinner : (size (vertices g src) < inner)%nat.

Lemma search_start (H0 : AdjustableHeap Z (vertex * Z * option Z)) (key : nat) :
  good item_key Z.ltb H0 ->
  (forall x it, holds H0 x it <-> x = key /\ it = (src, 0, fm)) ->
  dj_inv g R src fm flow0 None [] H0 {[ src := (0, None, flow0, key) ]} ∅.
Proof.
  intros G Hh. split; try done.
  - intros hk it. rewrite Hh. split.
    + intros [-> ->]. exists src, (0, None, flow0, key). by rewrite lookup_singleton_eq.
    + intros (x & d & Hx & _ & <- & ->). apply lookup_singleton_Some in Hx as [<- <-]. done.
  - exists key. by rewrite lookup_singleton_eq.
  - by left.
  - intros x d Hx _. by apply lookup_singleton_Some in Hx as [<- _].
  - intros x d e Hx Hp. apply lookup_singleton_Some in Hx as [_ <-]. done.
  - intros x d e Hx Hp. apply lookup_singleton_Some in Hx as [_ <-]. done.
  - intros x dx e [r Hr]. by rewrite lookup_empty in Hr.
  - intros x y dx dy [r Hr]. by rewrite lookup_empty in Hr.
  - intros x [d Hx]. by apply lookup_singleton_Some in Hx as [<- _].
  - intros x [d Hx]. apply lookup_singleton_Some in Hx as [<- _].
    unfold vertices. by apply elem_of_union_l, elem_of_singleton.
Qed.

(** The search of a round returns, with every vertex it reached popped. *)
Lemma search_spec :
  exists H0 key H' D rk,
    push item_key Z.ltb Heap.empty (src, 0, fm) = Ok (H0, key)
    /\ shortest_paths inner g (H0, {[ src := (0, None, flow0, key) ]}) = Ok D
    /\ dj_inv g R src fm flow0 None [] H' D rk
    /\ forall x, is_Some (D !! x) -> is_Some (rk !! x).
Proof.
  destruct (push_holds item_key Z.ltb (Z_order) Heap.empty (src, 0, fm)
              (good_empty item_key Z.ltb)) as (H0 & key & E & G & _ & Hh).
  assert (I0 : dj_inv g R src fm flow0 None [] H0 {[ src := (0, None, flow0, key) ]} ∅).
  { apply search_start; [done|]. intros x it. rewrite Hh. split; [|tauto].
    intros [[Hin _]|?]; [|done]. by apply elem_of_nil in Hin. }
  destruct (shortest_paths_spec g R src fm flow0 Hwf Hreg Hfm inner H0 _ ∅ I0)
    as (H' & D & rk & E' & I & Hall).
  { rewrite map_size_empty. lia. }
  exists H0, key, H', D, rk. done.
Qed.


(** The graph after the walk of a round that reached the sink. *)
Lemma round_spec H D rk ds :
  dj_inv g R src fm flow0 None [] H D rk ->
  (forall x, is_Some (D !! x) -> is_Some (rk !! x)) ->
  D !! snk = Some ds ->
  0 < d_flow ds /\ (forall m, fm = Some m -> d_flow ds <= m)
  /\ exists objs',
       augment inner (edge_objects g) D snk (d_flow ds) = Ok objs'
       /\ same_edges (edge_objects g) objs'
       /\ (forall z, net objs' z
                     = net (edge_objects g) z + at_vertex src z (d_flow ds)
                       - at_vertex snk z (d_flow ds))
       /\ wf_graph (next_graph g D objs')
       /\ region_ok (next_graph g D objs') (fun x => is_Some (D !! x))
       /\ is_Some (D !! src).
Proof.
  intros I Hall Hs.
  destruct (d_pred ds) as [es|] eqn:Hps; cycle 1.
  { destruct Hne. symmetry. by apply (dj_root _ _ _ _ _ _ _ _ _ _ I snk ds). }
  destruct (dj_pos _ _ _ _ _ _ _ _ _ _ I snk ds es Hs Hps) as [Hpos Hmax].
  split; [done|]. split; [done|].
  destruct (Hall snk ltac:(eauto)) as [rs Rs].
  assert (Hrs : (rs < inner)%nat).
  { destruct (dj_rank _ _ _ _ _ _ _ _ _ _ I snk rs Rs) as [_ Hlt].
    pose proof (dj_ranked_size _ _ _ _ _ _ _ _ _ _ I). lia. }
  destruct (augment_spec g R src fm flow0 H D rk Hwf I Hall (d_flow ds) inner
              snk ds rs (edge_objects g) Hs Rs Hrs)
    as (objs' & E & Hsame & Hnet & Hch); [intros; lia|apply same_edges_refl|done|].
  exists objs'. split; [done|]. split; [done|]. split; [done|].
  assert (Hlook : forall e o', objs' !! e = Some o' ->
            exists o, edge_objects g !! e = Some o /\ u o' = u o /\ v o' = v o
                      /\ capacity o' = capacity o /\ cost o' = cost o).
  { intros e o'. by apply same_edges_lookup. }
  split; [|split].
  - (* the graph is well formed *)
    split; cbn [next_graph edge_objects Mcf.edges].
    + intros x e He. change (edges_at (next_graph g D objs') x) with (edges_at g x) in He.
      destruct (adj_sound g Hwf x e He) as (o & Ho & Hend).
      destruct (Forall2_lookup_l _ _ _ _ _ Hsame Ho) as (o' & Ho' & Hu & Hv & _).
      exists o'. split; [done|]. by rewrite Hu, Hv.
    + intros e o' Ho'. destruct (Hlook e o' Ho') as (o & Ho & _ & _ & _ & ->).
      by apply (costs_nonneg g Hwf e).
    + intros e o' Ho'. destruct (Hch e) as [Hsm|(z & dz & o & Hz & Hpz & Ho & Hle & Hnew)].
      * apply (flow_bounds g Hwf e). by rewrite <- Hsm.
      * rewrite Hnew in Ho'. injection Ho' as <-.
        pose proof (flow_bounds g Hwf e o Ho) as Hb.
        destruct (tree_edge_back g R src fm flow0 H D rk Hwf I Hall z dz e Hz Hpz)
          as (o1 & y & _ & _ & _ & Ho1 & _ & Htz & _).
        assert (o1 = o) as -> by congruence. rewrite Htz in *.
        revert Hle. unfold rescap, Edge_add_flow, directed_edge.
        destruct (String.eqb (u o) y); cbn [fst snd flow capacity]; lia.
  - (* the region of the next round *)
    intros x e o' [dx Hx] He Ho' Hcap.
    change (edges_at (next_graph g D objs') x) with (edges_at g x) in He.
    cbn [next_graph edge_objects] in Ho'.
    destruct (Hlook e o' Ho') as (o & Ho & Hu & Hv & Hc & Hk).
    rewrite (same_edges_target o o' x Hu Hv).
    unfold reduced_cost. cbn [next_graph potential].
    rewrite (same_edges_target o o' x Hu Hv), (same_edges_arc_cost o o' x Hu Hk).
    rewrite !update_potential_lookup, Hx. cbn [default].
    destruct (decide (rescap o x = 0)) as [Hz|Hnz].
    + (* an edge of the path, seen from its far end *)
      destruct (Hch e) as [Hsm|(z & dz & o1 & Hz' & Hpz & Ho1 & Hle & Hnew)].
      { assert (o' = o) as -> by congruence. done. }
      assert (o1 = o) as -> by congruence.
      destruct (tree_edge_back g R src fm flow0 H D rk Hwf I Hall z dz e Hz' Hpz)
        as (o1 & y & dy & ry & rz & Ho2 & _ & Htz & Hty & Hnzy & Hends & _ & Hy & _ & _ & _
            & Hcapy & Hcost & Hd & _).
      assert (o1 = o) as -> by congruence.
      destruct (adj_sound g Hwf x e He) as (o1 & Ho3 & Hend).
      assert (o1 = o) as -> by congruence.
      destruct (Hends x Hend) as [-> | ->]; [|done].
      assert (dx = dz) as -> by congruence.
      rewrite Htz, Hy. split; [eauto|]. cbn [default].
      unfold reduced_cost in Hd. rewrite Hty in Hd. cbv [id] in Hd |- *. lia.
    + destruct (dj_closed _ _ _ _ _ _ _ _ _ _ I x dx e (Hall x ltac:(eauto)) Hx He
                  ltac:(done) o Ho Hnz) as (dt & Ht & Hle).
      rewrite Ht. split; [eauto|]. cbn [default]. unfold reduced_cost in Hle. cbv [id] in Hle |- *. lia.
  - destruct (dj_src _ _ _ _ _ _ _ _ _ _ I) as [hk Hk]. eauto.
Qed.

End Round.

(** *** The loop of [add_flow] *)

Lemma same_edges_trans base objs objs' :
  same_edges base objs -> same_edges objs objs' -> same_edges base objs'.
Proof.
  intros H1 H2. eapply Forall2_trans; [|exact H1|exact H2].
  intros b o o' (? & ? & ? & ?) (? & ? & ? & ?). repeat split; congruence.
Qed.

Lemma net_zero objs z :
  (forall e o, objs !! e = Some o -> flow o = 0) -> net objs z = 0.
Proof.
  unfold net. induction objs as [|o objs IH]; intros Hz; [done|].
  rewrite fmap_cons. cbn [foldr]. rewrite IH by (intros e o'; apply (Hz (S e))).
  rewrite (Hz 0%nat o eq_refl). by destruct (String.eqb (u o) z), (String.eqb (v o) z).
Qed.

Lemma at_vertex_eq x a : at_vertex x x a = a.
Proof. unfold at_vertex. by rewrite String.eqb_refl. Qed.

Lemma at_vertex_ne x z a : z <> x -> at_vertex x z a = 0.
Proof. unfold at_vertex. intros Hne. by destruct (String.eqb_spec z x). Qed.

Lemma at_vertex_add x z a b : at_vertex x z (a + b) = at_vertex x z a + at_vertex x z b.
Proof. unfold at_vertex. destruct (String.eqb z x); lia. Qed.

Lemma loop_inv_build es src snk inner :
  Forall (fun e : vertex * vertex * Z * Z => 0 <= e.1.2 /\ 0 <= e.2) es ->
  (size (vertices (build es) src) < inner)%nat ->
  loop_inv (edge_objects (build es)) src snk inner (build es) 0.
Proof.
  intros Hes Hin. destruct (wf_build es Hes) as (W & Z0 & P).
  split; [done|]. split; [|split; [apply same_edges_refl|split; [done|]]].
  - exists (fun _ => True). split; [|done].
    intros x e o _ He Ho Hcap. split; [done|].
    unfold reduced_cost. rewrite P, !lookup_empty. cbn [default].
    pose proof (costs_nonneg _ W e o Ho). pose proof (Z0 e o Ho) as Hf.
    revert Hcap. unfold rescap, arc_cost, directed_edge.
    destruct (String.eqb (u o) x); cbn [fst snd]; cbv [id]; lia.
  - intros z. rewrite (net_zero _ z Z0). unfold at_vertex.
    destruct (String.eqb z src), (String.eqb z snk); lia.
Qed.

(** The flows between rounds are a feasible flow of value [flow]. *)
Lemma loop_inv_feasible base src snk inner g flow :
  src <> snk -> loop_inv base src snk inner g flow ->
  feasible base src snk (edge_objects g) /\ net (edge_objects g) src = flow.
Proof.
  intros Hne (W & _ & Hs & _ & Hnet). split; [split|].
  - apply Forall2_same_length_lookup. apply Forall2_same_length_lookup in Hs as [Hlen Hs].
    split; [done|]. intros i b o Hb Ho. destruct (Hs i b o Hb Ho) as (? & ? & ? & ?).
    repeat (split; [done|]). apply (flow_bounds g W i o Ho).
  - intros x H1 H2. rewrite Hnet, !at_vertex_ne by done. lia.
  - rewrite Hnet, at_vertex_eq, at_vertex_ne by done. lia.
Qed.

Section Loop.
Variable base : list Edge.
Variable src snk : vertex.
Variable inner : nat.
Hypothesis Hne : src <> snk.

(** One round, with or without a bound [fm] on the flow of the path. *)
Lemma loop_round g flow fm :
  loop_inv base src snk inner g flow ->
  (forall m, fm = Some m -> 0 < m) ->
  exists H0 key D,
    push item_key Z.ltb Heap.empty (src, 0, fm) = Ok (H0, key)
    /\ shortest_paths inner g (H0, {[ src := (0, None, flow, key) ]}) = Ok D
    /\ (D !! snk = None
        \/ exists ds objs',
             D !! snk = Some ds
             /\ 0 < d_flow ds /\ (forall m, fm = Some m -> d_flow ds <= m)
             /\ augment inner (edge_objects g) D snk (d_flow ds) = Ok objs'
             /\ loop_inv base src snk inner (next_graph g D objs') (flow + d_flow ds)).
Proof.
  intros (W & (R & Hreg & Hsrc) & Hs & Hin & Hnet) Hfm.
  destruct (search_spec g R src fm flow inner W Hreg Hsrc Hfm Hin)
    as (H0 & key & H' & D & rk & E1 & E2 & I & Hall).
  exists H0, key, D. split; [done|]. split; [done|].
  destruct (D !! snk) as [ds|] eqn:Hds; [right|by left].
  destruct (round_spec g R src snk fm flow inner W Hne Hin H' D rk ds I Hall Hds)
    as (Hpos & Hmax & objs' & E3 & Hs' & Hnet' & W' & Hreg' & Hsrc').
  exists ds, objs'. repeat (split; [done|]).
  split; [eauto|]. split; [by eapply same_edges_trans|]. split.
  - unfold vertices in *. cbn [next_graph edge_objects].
    by rewrite (same_edges_vertices _ _ Hs').
  - intros z. cbn [next_graph edge_objects]. rewrite Hnet', Hnet, !at_vertex_add. lia.
Qed.

(** With a bound [k] the loop returns, and the flow it returns is at most
    [k]. *)
Lemma capped_returns (k : Z) (fuel : nat) : forall g flow cost,
  loop_inv base src snk inner g flow -> flow <= k ->
  (Z.to_nat (k - flow) < fuel)%nat ->
  exists g' flow' cost',
    add_flow_loop fuel inner g src snk (Some k) flow cost = Ok (g', (flow', cost'))
    /\ flow' <= k.
Proof.
  induction fuel as [|fuel IH]; intros g flow cost Hinv Hle Hfuel; [lia|].
  cbn [add_flow_loop]. destruct (Z.ltb_spec flow k) as [Hlt|Hge]; [|eauto].
  cbn [fmap option_fmap option_map].
  destruct (loop_round g flow (Some (k - flow)) Hinv) as (H0 & key & D & E1 & E2 & Hcase).
  { intros m [= <-]. lia. }
  rewrite E1. cbn [mbind result_bind]. rewrite E2. cbn [mbind result_bind].
  destruct Hcase as [Hnone|(ds & objs' & Hds & Hpos & Hmax & E3 & Hinv')].
  { rewrite Hnone. eauto. }
  rewrite Hds. change ds.1.2 with (d_flow ds). rewrite E3. cbn [mbind result_bind].
  pose proof (Hmax _ eq_refl).
  apply (IH (next_graph g D objs')); [done|lia|lia].
Qed.

(** When [k] is at least the value [M] of a maximum flow, the loop without
    bound returns what the loop with the bound [k] returns. *)
Lemma uncapped_agrees (k M : Z) (fuel : nat) :
  max_flow_value base src snk M -> M <= k ->
  forall g flow cost,
  loop_inv base src snk inner g flow ->
  (Z.to_nat (M - flow) < fuel)%nat ->
  exists r,
    add_flow_loop fuel inner g src snk None flow cost = Ok r
    /\ forall fuel', (Z.to_nat (k - flow) < fuel')%nat ->
         add_flow_loop fuel' inner g src snk (Some k) flow cost = Ok r.
Proof.
  intros [_ Hmax] HMk.
  induction fuel as [|fuel IH]; intros g flow cost Hinv Hfuel; [lia|].
  assert (HflowM : flow <= M).
  { destruct (loop_inv_feasible _ _ _ _ _ _ Hne Hinv) as [Hf <-]. by apply Hmax. }
  cbn [add_flow_loop fmap option_fmap option_map].
  destruct (loop_round g flow None Hinv) as (H0 & key & D & E1 & E2 & Hcase); [done|].
  rewrite E1. cbn [mbind result_bind]. rewrite E2. cbn [mbind result_bind].
  (* the search with the bound *)
  assert (Ecap : forall K,
    (push item_key Z.ltb Heap.empty (src, 0, Some K)
     ≫= λ '(heap, key'), shortest_paths inner g (heap, {[ src := (0, None, flow, key') ]}))
    = Ok (cap_entry K <$> D)).
  { intros K. change (src, 0, Some K) with (cap_item K (src, 0, None)).
    change (@Heap.empty Z (vertex * Z * option Z)) with (hmap (cap_item K) (@Heap.empty Z (vertex * Z * option Z))).
    rewrite (push_hmap item_key Z.ltb (cap_item K) (cap_item_key K)), E1.
    cbn [on_result mbind result_bind fst snd].
    assert (Es : ({[ src := (0, None, flow, key) ]} : gmap vertex (Z * option nat * Z * nat))
                 = cap_entry K <$> {[ src := (0, None, flow, key) ]})
      by by rewrite map_fmap_singleton.
    rewrite Es. change (hmap (cap_item K) H0, cap_entry K <$> {[ src := (0, None, flow, key) ]})
      with (cap_state K (H0, {[ src := (0, None, flow, key) ]})).
    by rewrite shortest_paths_cap, E2. }
  destruct Hcase as [Hnone|(ds & objs' & Hds & Hpos & _ & E3 & Hinv')].
  - rewrite Hnone. eexists. split; [done|]. intros [|fuel'] Hfuel'; [lia|].
    cbn [add_flow_loop fmap option_fmap option_map]. destruct (flow <? k); [|done].
    pose proof (Ecap (k - flow)) as Ec.
    destruct (push item_key Z.ltb Heap.empty (src, 0, Some (k - flow))) as [[h1 k1]| |];
      cbn [mbind result_bind] in Ec |- *; [|done..].
    rewrite Ec. cbn [mbind result_bind]. by rewrite lookup_fmap, Hnone.
  - rewrite Hds. change ds.1.2 with (d_flow ds). rewrite E3. cbn [mbind result_bind].
    assert (HflowM' : flow + d_flow ds <= M).
    { destruct (loop_inv_feasible _ _ _ _ _ _ Hne Hinv') as [Hf <-]. by apply Hmax. }
    destruct (IH (next_graph g D objs') (flow + d_flow ds)
                (cost + (ds.1.1.1 + potential_at g snk)) Hinv' ltac:(lia))
      as (r & Er & Hr).
    exists r. split; [done|]. intros [|fuel'] Hfuel'; [lia|].
    cbn [add_flow_loop fmap option_fmap option_map].
    destruct (Z.ltb_spec flow k) as [Hlt|Hge]; [|lia].
    pose proof (Ecap (k - flow)) as Ec.
    destruct (push item_key Z.ltb Heap.empty (src, 0, Some (k - flow))) as [[h1 k1]| |];
      cbn [mbind result_bind] in Ec |- *; [|done..].
    rewrite Ec. cbn [mbind result_bind]. rewrite lookup_fmap, Hds.
    cbn [fmap option_fmap option_map].
    assert (Ef : (cap_entry (k - flow) ds).1.2 = d_flow ds).
    { unfold cap_entry. destruct (d_pred ds); [|done]. cbn. lia. }
    assert (Ed : (cap_entry (k - flow) ds).1.1.1 = ds.1.1.1).
    { unfold cap_entry. by destruct (d_pred ds). }
    rewrite Ef, Ed, augment_cap, E3, update_potential_cap. cbn [mbind result_bind].
    apply Hr. lia.
Qed.

End Loop.

(** *** Examples and claims *)

Lemma same_endpoints_loop (fuel inner : nat) : forall pot : gmap vertex Z,
  pot = ∅ \/ pot = {[ "s" := 0 ]} ->
  add_flow_loop fuel inner (mkGraph [] ∅ pot) "s" "s" (Some 1) 0 0 = Timeout.
Proof.
  induction fuel as [|fuel IH]; intros pot Hpot; [done|].
  cbn [add_flow_loop fmap option_fmap option_map].
  change (0 <? 1) with true. cbv iota.
  change (push item_key Z.ltb Heap.empty ("s", 0, Some (1 - 0)))
    with (Ok (mkHeap [0%nat] [mkKey ("s" : vertex, 0, Some 1) 0 0%nat], 0%nat)
          : result (AdjustableHeap Z (vertex * Z * option Z) * nat)).
  cbn [mbind result_bind].
  destruct inner as [|[|inner]]; [done| |].
  - cbn [shortest_paths]. done.
  - assert (Es : shortest_paths (S (S inner)) (mkGraph [] ∅ pot)
                   (mkHeap [0%nat] [mkKey ("s" : vertex, 0, Some 1) 0 0%nat],
                    {[ "s" := (0, None, 0, 0%nat) ]})
                 = Ok {[ "s" := (0, None, 0, 0%nat) ]}) by done.
    rewrite Es. cbn [mbind result_bind]. rewrite lookup_singleton_eq.
    cbn [augment]. rewrite lookup_singleton_eq. cbn [mbind result_bind fst snd].
    assert (Ep : update_potential pot {[ "s" := (0, None, 0, 0%nat) ]} = {[ "s" := 0 ]}).
    { apply map_eq. intros x. rewrite update_potential_lookup.
      destruct (decide (x = "s")) as [->|Hx].
      - rewrite !lookup_singleton_eq. by destruct Hpot as [-> | ->].
      - rewrite !lookup_singleton_ne by done.
        destruct Hpot as [-> | ->]; [done|]. by rewrite lookup_singleton_ne. }
    cbn [edge_objects Mcf.edges potential]. rewrite Ep.
    assert (Ec : 0 + (0 + potential_at (mkGraph [] ∅ pot) "s") = 0).
    { unfold potential_at. cbn [potential]. by destruct Hpot as [-> | ->]. }
    rewrite Ec. apply IH. by right.
Qed.

(** Every flow on the one edge from ["s"] to ["t"] has value 2 at most. *)
Example max_flow_one_edge : max_flow_value (edge_objects one_edge) "s" "t" 2.
Proof.
  split.
  - exists [mkEdge "s" "t" 2 2 1]. split; [split|done].
    + repeat constructor; cbn; lia.
    + intros x H1 H2. unfold net. cbn [fmap list_fmap foldr u v flow].
      destruct (String.eqb_spec "s" x), (String.eqb_spec "t" x); (congruence || lia).
  - intros objs [Hf _]. unfold one_edge in Hf. cbn in Hf.
    apply Forall2_cons_inv_l in Hf as (o & objs' & (Hu & Hv & Hc & Hk & Hb) & Hnil & ->).
    apply Forall2_nil_inv_l in Hnil as ->.
    unfold net. cbn [fmap list_fmap foldr]. rewrite Hu, Hv. cbn in *. lia.
Qed.

(** [test.py]: the call with bound 3 returns [(2, 5)]. *)
Example add_flow_test_graph :
  (r ← add_flow 3 5 test_graph "src" "snk" (Some 3); Ok r.2) = Ok (2, 5).
Proof. vm_compute. reflexivity. Qed.

(** C4, at a failing input.  On the graph with the one edge from ["s"] to
    ["t"], capacity 2 and cost 1, [add_flow] without bound saturates the
    edge in one round and returns [(2, 1)]: the flow 2 is the maximum, but
    the cost of that flow, cost times flow, is 2.  The round adds the cost
    of one unit along the path, not that cost times the flow pushed. *)
Theorem add_flow_cost_ignores_amount :
  exists g',
    add_flow 2 3 one_edge "s" "t" None = Ok (g', (2, 1))
    /\ edge_objects g' = [mkEdge "s" "t" 2 2 1]
    /\ flow_cost (edge_objects g') = 2.
Proof. eexists. vm_compute. repeat split. Qed.

(** C5, as amended: on a graph made by [add_edge] with capacities and costs
    that are not negative, for [src] other than [snk] and a bound [k] that is
    not negative, [add_flow(src, snk, k)] returns (its loop makes [k] rounds
    at most, and the loops inside one round per vertex at most) and the flow
    it returns is at most [k]; and when [k] is at least the value [M] of a
    maximum flow, the call without bound returns the same flow and the same
    cost, and leaves the same graph. *)
Theorem add_flow_capped (es : list (vertex * vertex * Z * Z)) (src snk : vertex)
    (k : Z) (fuel inner : nat) :
  Forall (fun e : vertex * vertex * Z * Z => 0 <= e.1.2 /\ 0 <= e.2) es ->
  src <> snk -> 0 <= k ->
  (Z.to_nat k < fuel)%nat ->
  (size (vertices (build es) src) < inner)%nat ->
  exists g' flow cost,
    add_flow fuel inner (build es) src snk (Some k) = Ok (g', (flow, cost))
    /\ flow <= k
    /\ forall M, max_flow_value (edge_objects (build es)) src snk M -> M <= k ->
         forall fuel', (Z.to_nat M < fuel')%nat ->
           add_flow fuel' inner (build es) src snk None = Ok (g', (flow, cost)).
Proof.
  intros Hes Hne Hk Hfuel Hinner.
  pose proof (loop_inv_build es src snk inner Hes Hinner) as Hinv.
  destruct (capped_returns (edge_objects (build es)) src snk inner Hne k fuel
              (build es) 0 0 Hinv Hk) as (g' & flow & cost & E & Hle).
  { by rewrite Z.sub_0_r. }
  exists g', flow, cost. split; [done|]. split; [done|].
  intros M HM HMk fuel' Hfuel'.
  destruct (uncapped_agrees (edge_objects (build es)) src snk inner Hne k M fuel'
              HM HMk (build es) 0 0 Hinv) as (r & Er & Hr).
  { by rewrite Z.sub_0_r. }
  unfold add_flow. rewrite Er. f_equal.
  specialize (Hr fuel). rewrite Z.sub_0_r in Hr. specialize (Hr Hfuel).
  unfold add_flow in E. congruence.
Qed.

Lemma add_flow_capped_witness :
  exists g' flow cost,
    add_flow 4 3 (build [("s", "t", 2, 1)]) "s" "t" (Some 3) = Ok (g', (flow, cost))
    /\ flow <= 3
    /\ forall M, max_flow_value (edge_objects (build [("s", "t", 2, 1)])) "s" "t" M ->
         M <= 3 ->
         forall fuel', (Z.to_nat M < fuel')%nat ->
           add_flow fuel' 3 (build [("s", "t", 2, 1)]) "s" "t" None
           = Ok (g', (flow, cost)).
Proof.
  apply (add_flow_capped [("s", "t", 2, 1)] "s" "t" 3 4 3).
  - repeat constructor; simpl; lia.
  - discriminate.
  - lia.
  - simpl. lia.
  - vm_compute. lia.
Defined.

(** C5, as it is stated, at [src = snk]: on the graph without edges the
    call [add_flow("s", "s", 1)] does not return.  The entry of the source
    in [dist] is the entry of the sink, its third component is the flow so
    far, which is 0, and the loop goes on with the flow 0 it started
    with. *)
Lemma add_flow_same_endpoints_never_returns :
  ~ exists fuel inner r, add_flow fuel inner Mcf.empty "s" "s" (Some 1) = Ok r.
Proof.
  intros (fuel & inner & r & E). unfold add_flow, Mcf.empty in E.
  rewrite same_endpoints_loop in E by by left. done.
Qed.

End McfFacts.

(** ** More about the heap *)

Module HeapExtra.
Import Heap HeapSpec HeapFacts.

Section View.
Context {TK TV : Type}.
Variable key_func : TV -> TK.
Variable lt : TK -> TK -> bool.
Hypothesis order : strict_weak_order lt.

Implicit Types (h : AdjustableHeap TK TV) (key : handle) (v : TV).

Lemma contents_holds h key v : contents h !! key = Some v <-> holds h key v.
Proof.
  unfold contents, holds. induction (heap h) as [|k l IH]; cbn [foldr].
  - rewrite lookup_empty. split; [done|]. intros [Hin _]. by apply elem_of_nil in Hin.
  - rewrite elem_of_cons. destruct (objects h !! k) as [o|] eqn:Ho.
    + destruct (decide (key = k)) as [->|Hne].
      * rewrite lookup_insert_eq, Ho. split.
        -- intros [= <-]. eauto.
        -- intros [_ (o' & [= <-] & <-)]. done.
      * rewrite lookup_insert_ne by done. rewrite IH. split.
        -- intros [? ?]. eauto.
        -- intros [[?|?] ?]; done.
    + rewrite IH. split.
      * intros [? ?]. eauto.
      * intros [[->|?] Hex]; [|done]. destruct Hex as (o & Ho' & _). congruence.
Qed.

Lemma contents_eq h' (m : gmap handle TV) :
  (forall x it, holds h' x it <-> m !! x = Some it) -> contents h' = m.
Proof.
  intros H. apply map_eq. intros x. apply option_eq. intros it.
  by rewrite contents_holds.
Qed.

Lemma remove_full h key :
  heap_inv lt h -> live h key ->
  exists h',
    remove lt h key = Ok h'
    /\ heap_inv lt h'
    /\ length (heap h') = (length (heap h) - 1)%nat
    /\ data_of (objects h') = data_of (objects h)
    /\ (forall x, x ∈ heap h' -> x ∈ heap h /\ x <> key).
Proof.
  intros Hinv (o & Ho & Hlive). pose proof (heap_inv_tracked lt h Hinv) as Ht.
  pose proof (tracked_NoDup h Ht) as Hnd.
  assert (Lj : (index o < length (heap h))%nat) by (by eapply lookup_lt_Some).
  assert (Hrl : removelast (heap h) = take (length (heap h) - 1) (heap h)).
  { rewrite removelast_firstn_len. f_equal. lia. }
  assert (Lrl : length (removelast (heap h)) = (length (heap h) - 1)%nat).
  { rewrite Hrl, length_take. lia. }
  assert (Hother : forall i x, heap h !! i = Some x -> i <> index o -> x <> key).
  { intros i x Hi Hne ->. apply Hne. by eapply NoDup_lookup. }
  unfold remove. rewrite last_lookup.
  replace (Init.Nat.pred (length (heap h))) with (length (heap h) - 1)%nat by lia.
  destruct (lookup_lt_is_Some_2 (heap h) (length (heap h) - 1)) as [lk Hlk]; [lia|].
  rewrite Hlk. destruct (Ht _ lk Hlk) as (ol & Hol & Hil).
  destruct (Nat.eqb_spec lk key) as [->|Hne].
  { eexists. split; [done|]. split; [by apply heap_inv_removelast|].
    cbn [heap objects]. split; [done|]. split; [done|].
    intros x Hx. rewrite Hrl in Hx. apply elem_of_take in Hx as (i & Hi & Hlt).
    split; [by eapply list_elem_of_lookup_2|].
    apply (Hother i x Hi). assert (o = ol) by congruence. subst. lia. }
  rewrite (deref_Some _ _ _ Ho). cbn [mbind result_bind].
  assert (S (index o) < length (heap h))%nat.
  { destruct (decide (index o = (length (heap h) - 1)%nat)) as [E|E]; [|lia].
    rewrite E in Hlive. congruence. }
  destruct (move_last_spec lt order h (index o) lk ol Hinv ltac:(lia) Hlk Hol) as (Ho1 & T1 & O1).
  rewrite set_nth_item_lt by lia. cbn [mbind result_bind].
  rewrite (set_index_Some _ _ _ _ Hol). cbn [mbind result_bind].
  destruct (_adjust_spec lt order _ lk _ Ho1 T1 O1) as (h' & E & I & L & D & In).
  exists h'. split; [done|]. split; [done|]. cbn [heap objects index] in *.
  split. { rewrite L, length_insert. done. }
  split. { rewrite D. by apply data_of_set_index. }
  intros x Hx. apply In in Hx. rewrite list_insert_insert_eq in Hx.
  apply list_elem_of_lookup in Hx as [i Hi].
  destruct (decide (i = index o)) as [->|Hi0].
  - rewrite list_lookup_insert_eq in Hi by lia. injection Hi as <-.
    split; [by eapply list_elem_of_lookup_2|done].
  - rewrite list_lookup_insert_ne in Hi by done.
    rewrite Hrl in Hi. apply lookup_take_Some in Hi as [Hi _].
    split; [by eapply list_elem_of_lookup_2|]. by apply (Hother i).
Qed.

(** [push] seen on the contents. *)
Lemma push_view h v :
  good key_func lt h ->
  exists h' key,
    push key_func lt h v = Ok (h', key)
    /\ good key_func lt h'
    /\ contents h !! key = None
    /\ contents h' = <[key := v]> (contents h).
Proof.
  intros G. destruct (push_holds key_func lt order h v G) as (h' & key & E & G' & Hf & Hh).
  exists h', key. split; [done|]. split; [done|].
  assert (Hnone : contents h !! key = None).
  { apply eq_None_not_Some. intros [it Hit]. apply (Hf it). by apply contents_holds. }
  split; [done|]. apply (contents_eq h' (<[key := v]> (contents h))). intros x it.
  rewrite Hh, <- contents_holds.
  destruct (decide (x = key)) as [->|Hne].
  - rewrite lookup_insert_eq, Hnone. split.
    + intros [?|[_ ->]]; done.
    + intros [= ->]. by right.
  - rewrite lookup_insert_ne by done. split; [intros [?|[? _]]; done | by left].
Qed.

(** [pop] seen on the contents. *)
Lemma pop_view h :
  good key_func lt h -> (0 < length (heap h))%nat ->
  exists h' top v,
    pop lt h = Ok (h', v)
    /\ good key_func lt h'
    /\ contents h !! top = Some v
    /\ (forall x it, contents h !! x = Some it -> lt (key_func it) (key_func v) = false)
    /\ contents h' = delete top (contents h).
Proof.
  intros G Hlen.
  destruct (pop_holds key_func lt order h G Hlen) as (h' & top & v & E & G' & Ht & Hmin & Hh).
  exists h', top, v. split; [done|]. split; [done|].
  split; [by apply contents_holds|]. split.
  { intros x it Hx. apply (Hmin x). by apply contents_holds. }
  apply (contents_eq h' (delete top (contents h))). intros x it.
  rewrite Hh, <- contents_holds.
  rewrite lookup_delete_Some. split; intros [? ?]; done.
Qed.

Lemma size_contents h : tracked h -> size (contents h) = length (heap h).
Proof.
  intros Ht. pose proof (tracked_NoDup h Ht) as Hnd.
  assert (Hobj : forall k, k ∈ heap h -> is_Some (objects h !! k)).
  { intros k Hk. apply list_elem_of_lookup in Hk as [i Hi].
    destruct (Ht i k Hi) as (o & Ho & _). eauto. }
  unfold contents. revert Hnd Hobj.
  generalize (objects h) as objs. intros objs.
  induction (heap h) as [|k l IH]; intros Hnd Hobj; [done|].
  apply NoDup_cons in Hnd as [Hk Hnd]. cbn [foldr].
  destruct (Hobj k ltac:(by left)) as [o Ho]. rewrite Ho.
  rewrite map_size_insert_None.
  - cbn. f_equal. apply IH; [done|]. intros k' Hk'. apply Hobj. by right.
  - apply eq_None_not_Some. intros [it Hit]. apply Hk.
    clear -Hit. induction l as [|k' l IHl]; [cbn in Hit; by rewrite lookup_empty in Hit|].
    cbn [foldr] in Hit. destruct (decide (k = k')) as [->|Hne]; [by left|]. right.
    destruct (objs !! k'); [rewrite lookup_insert_ne in Hit by done|]; by apply IHl.
Qed.

Lemma good_tracked h : good key_func lt h -> tracked h.
Proof. intros [Hinv _]. by apply (heap_inv_tracked lt). Qed.

(** Pushing the values of [vs] adds them to the contents. *)
Lemma push_all_values (vs : list TV) : forall h,
  good key_func lt h ->
  exists h',
    push_all key_func lt h vs = Ok h'
    /\ good key_func lt h'
    /\ (map_to_list (contents h')).*2 ≡ₚ vs ++ (map_to_list (contents h)).*2.
Proof.
  induction vs as [|v vs IH]; intros h G.
  - exists h. done.
  - destruct (push_view h v G) as (h1 & key & E & G1 & Hnone & Hc).
    destruct (IH h1 G1) as (h' & E' & G' & Hp).
    exists h'. cbn [push_all]. rewrite E. cbn [mbind result_bind].
    split; [done|]. split; [done|].
    rewrite Hp, Hc, map_to_list_insert by done. cbn [fmap list_fmap snd].
    by rewrite <- Permutation_middle.
Qed.

(** Popping until the heap is empty returns its contents. *)
Lemma pop_many_values (n : nat) : forall h,
  good key_func lt h -> n = length (heap h) ->
  exists out h',
    pop_many lt n h = Ok (out, h')
    /\ out ≡ₚ (map_to_list (contents h)).*2
    /\ heap h' = [].
Proof.
  induction n as [|n IH]; intros h G Hn.
  - exists [], h. split; [done|]. split; [|by destruct (heap h)].
    assert (E : contents h = ∅).
    { apply map_size_empty_inv. rewrite size_contents by by apply good_tracked. done. }
    by rewrite E, map_to_list_empty.
  - destruct (pop_view h G ltac:(lia)) as (h1 & top & v & E & G1 & Htop & _ & Hc).
    assert (Hlen : n = length (heap h1)).
    { rewrite <- (size_contents h1) by by apply good_tracked.
      rewrite Hc, map_size_delete, Htop, size_contents by by apply good_tracked. lia. }
    destruct (IH h1 G1 Hlen) as (out & h' & E' & Hp & He).
    exists (v :: out), h'. cbn [pop_many]. rewrite E. cbn [mbind result_bind].
    rewrite E'. cbn [mbind result_bind]. split; [done|]. split; [|done].
    rewrite Hp, Hc. rewrite <- (insert_delete_id (contents h) top v Htop) at 2.
    rewrite map_to_list_insert by apply lookup_delete_eq. done.
Qed.

Lemma adjust_key_view h key v :
  good key_func lt h -> is_Some (contents h !! key) ->
  exists h',
    adjust_key key_func lt h key v = Ok h'
    /\ good key_func lt h'
    /\ contents h' = <[key := v]> (contents h).
Proof.
  intros G [it Hit]. apply contents_holds in Hit.
  destruct (adjust_key_holds key_func lt order h key v G ltac:(eauto)) as (h' & E & G' & Hh).
  exists h'. split; [done|]. split; [done|].
  apply (contents_eq h' (<[key := v]> (contents h))). intros x it'.
  rewrite Hh, <- contents_holds. destruct (decide (x = key)) as [->|Hne].
  - rewrite lookup_insert_eq. split.
    + intros [[? _]|[_ ->]]; done.
    + intros [= ->]. by right.
  - rewrite lookup_insert_ne by done. split; [intros [[_ ?]|[? _]]; done | by left].
Qed.

Lemma remove_view h key :
  good key_func lt h -> is_Some (contents h !! key) ->
  exists h',
    remove lt h key = Ok h'
    /\ good key_func lt h'
    /\ contents h' = delete key (contents h).
Proof.
  intros [Hinv Hc] [it Hit]. apply contents_holds in Hit.
  pose proof (heap_inv_tracked lt h Hinv) as Ht.
  pose proof (holds_live h key it Ht Hit) as Hlive.
  destruct (remove_full h key Hinv Hlive) as (h' & E & I & L & D & In).
  assert (P : key :: heap h' ≡ₚ heap h).
  { apply perm_of_incl.
    - apply NoDup_cons. split.
      + intros Hx. by destruct (In _ Hx).
      + apply tracked_NoDup. by apply (heap_inv_tracked lt).
    - intros x Hx. apply elem_of_cons in Hx as [->|Hx]; [apply Hit|].
      by destruct (In _ Hx).
    - destruct Hit as [Hin _]. destruct (heap h); [by apply elem_of_nil in Hin|].
      cbn in *. lia. }
  exists h'. split; [done|]. split.
  { split; [done|]. unfold consistent. by rewrite D. }
  apply (contents_eq h' (delete key (contents h))). intros x it'.
  rewrite lookup_delete_Some, contents_holds.
  rewrite !holds_alt, !val_data_of, D. rewrite <- P, elem_of_cons. split.
  - intros [Hx Hv]. split; [by destruct (In _ Hx)|]. split; [by right|done].
  - intros [Hne [[->|Hx] Hv]]; done.
Qed.

(** X1. [push] on a heap that satisfies the invariant returns a handle that
    was not in the heap and puts the value under it; nothing else changes,
    the heap is one longer and satisfies the invariant. *)
Theorem push_adds_entry h v :
  good key_func lt h ->
  exists h' key,
    push key_func lt h v = Ok (h', key)
    /\ good key_func lt h'
    /\ contents h !! key = None
    /\ contents h' = <[key := v]> (contents h)
    /\ len h' = S (len h).
Proof.
  intros G. destruct (push_view h v G) as (h' & key & E & G' & Hnone & Hc).
  exists h', key. repeat (split; [done|]). unfold len.
  rewrite <- !size_contents by by apply good_tracked.
  by rewrite Hc, map_size_insert_None.
Qed.

(** X2. [pop] on a heap that is not empty returns a value whose key no
    other value of the heap is below, and takes exactly that entry out. *)
Theorem pop_removes_least h :
  good key_func lt h -> (0 < len h)%nat ->
  exists h' top v,
    pop lt h = Ok (h', v)
    /\ good key_func lt h'
    /\ contents h !! top = Some v
    /\ (forall x it, contents h !! x = Some it -> lt (key_func it) (key_func v) = false)
    /\ contents h' = delete top (contents h)
    /\ len h' = (len h - 1)%nat.
Proof.
  intros G Hlen. destruct (pop_view h G Hlen) as (h' & top & v & E & G' & Ht & Hmin & Hc).
  exists h', top, v. repeat (split; [done|]). unfold len.
  rewrite <- !size_contents by by apply good_tracked.
  rewrite Hc, map_size_delete, Ht. lia.
Qed.

(** X3. [adjust_key] with a handle of the heap puts the new value under
    that handle and leaves every other entry as it is; the heap satisfies
    the invariant again, with the key of the new value. *)
Theorem adjust_key_replaces_value h key v :
  good key_func lt h -> is_Some (contents h !! key) ->
  exists h',
    adjust_key key_func lt h key v = Ok h'
    /\ good key_func lt h'
    /\ contents h' = <[key := v]> (contents h)
    /\ len h' = len h.
Proof.
  intros G Hin. destruct (adjust_key_view h key v G Hin) as (h' & E & G' & Hc).
  exists h'. repeat (split; [done|]). unfold len.
  rewrite <- !size_contents by by apply good_tracked.
  rewrite Hc. destruct Hin as [it Hit]. by rewrite map_size_insert_Some.
Qed.

(** X4. [remove] with a handle of the heap takes exactly the entry of that
    handle out. *)
Theorem remove_deletes_entry h key :
  good key_func lt h -> is_Some (contents h !! key) ->
  exists h',
    remove lt h key = Ok h'
    /\ good key_func lt h'
    /\ contents h' = delete key (contents h)
    /\ len h' = (len h - 1)%nat.
Proof.
  intros G Hin. destruct (remove_view h key G Hin) as (h' & E & G' & Hc).
  exists h'. repeat (split; [done|]). unfold len.
  rewrite <- !size_contents by by apply good_tracked.
  rewrite Hc. destruct Hin as [it Hit]. rewrite map_size_delete, Hit. lia.
Qed.

(** X6. Heap sort: the values of [vs] pushed on the empty heap and popped
    until the heap is empty come out as a permutation of [vs], with keys
    that do not decrease. *)
Theorem heap_sort (vs : list TV) :
  exists h out h',
    push_all key_func lt Heap.empty vs = Ok h
    /\ pop_many lt (length vs) h = Ok (out, h')
    /\ out ≡ₚ vs
    /\ StronglySorted (fun x y => lt (key_func y) (key_func x) = false) out
    /\ len h' = 0%nat.
Proof.
  pose proof (good_empty key_func lt) as G0.
  destruct (push_all_values vs Heap.empty G0) as (h & E & G & Hp).
  destruct (push_all_spec key_func lt order vs Heap.empty (proj1 G0) (proj2 G0))
    as (h2 & E2 & _ & _ & Hlen).
  assert (h2 = h) as -> by congruence. cbn in Hlen.
  destruct (pop_many_values (length vs) h G ltac:(done)) as (out & h' & Eo & Hperm & He).
  destruct (pop_many_spec key_func lt order (length vs) h (proj1 G) (proj2 G) ltac:(lia))
    as (out2 & h3 & Eo2 & _ & _ & _ & _ & Hsorted).
  assert (out2 = out) as -> by congruence.
  exists h, out, h'. repeat (split; [done|]).
  split; [|split; [done|by unfold len; rewrite He]].
  rewrite Hperm, Hp. cbn. by rewrite app_nil_r.
Qed.

End View.

(** X5. On an empty heap [pop] and [peek] raise [IndexError] (from
    [self.heap[0]]) and so does [remove], whatever the handle (from
    [self.heap.pop()]). *)
Theorem empty_heap_raises {TK TV : Type} (lt : TK -> TK -> bool)
    (objs : list (AdjustableHeapKey TK TV)) :
  pop lt (mkHeap [] objs) = Raised IndexError
  /\ peek (mkHeap [] objs) = Raised IndexError
  /\ forall key, remove lt (mkHeap [] objs) key = Raised IndexError.
Proof. done. Qed.

Section Relabelled.
Context {TK TV : Type}.
Variable key_func : TV -> TK.
Variable lt : TK -> TK -> bool.
Variable phi : TV -> TV.
Hypothesis phi_key : forall v, key_func (phi v) = key_func v.




End Relabelled.

Lemma two_items_good : good id Z.ltb two_items.
Proof. split; [exact two_items_inv | repeat constructor]. Qed.

Lemma push_adds_entry_witness :
  exists h' key,
    push id Z.ltb two_items 4 = Ok (h', key)
    /\ good id Z.ltb h'
    /\ contents two_items !! key = None
    /\ contents h' = <[key := 4]> (contents two_items)
    /\ len h' = S (len two_items).
Proof.
  apply (push_adds_entry id Z.ltb Z_strict_weak_order two_items 4).
  exact two_items_good.
Defined.

Lemma pop_removes_least_witness :
  exists h' top v,
    pop Z.ltb two_items = Ok (h', v)
    /\ good id Z.ltb h'
    /\ contents two_items !! top = Some v
    /\ (forall x it, contents two_items !! x = Some it -> (id it <? id v) = false)
    /\ contents h' = delete top (contents two_items)
    /\ len h' = (len two_items - 1)%nat.
Proof.
  apply (pop_removes_least id Z.ltb Z_strict_weak_order two_items).
  - exact two_items_good.
  - vm_compute. lia.
Defined.

Lemma adjust_key_replaces_value_witness :
  exists h',
    adjust_key id Z.ltb two_items 0%nat 1 = Ok h'
    /\ good id Z.ltb h'
    /\ contents h' = <[0%nat := 1]> (contents two_items)
    /\ len h' = len two_items.
Proof.
  apply (adjust_key_replaces_value id Z.ltb Z_strict_weak_order two_items 0%nat 1).
  - exact two_items_good.
  - vm_compute. eauto.
Defined.

Lemma remove_deletes_entry_witness :
  exists h',
    remove Z.ltb two_items 1%nat = Ok h'
    /\ good id Z.ltb h'
    /\ contents h' = delete 1%nat (contents two_items)
    /\ len h' = (len two_items - 1)%nat.
Proof.
  apply (remove_deletes_entry id Z.ltb Z_strict_weak_order two_items 1%nat).
  - exact two_items_good.
  - vm_compute. eauto.
Defined.

Lemma heap_sort_witness :
  exists h out h',
    push_all id Z.ltb Heap.empty [4; 1; 9; 1] = Ok h
    /\ pop_many Z.ltb 4 h = Ok (out, h')
    /\ out ≡ₚ [4; 1; 9; 1]
    /\ StronglySorted (fun x y => (id y <? id x) = false) out
    /\ len h' = 0%nat.
Proof. exact (heap_sort id Z.ltb Z_strict_weak_order [4; 1; 9; 1]). Defined.


End HeapExtra.

(** ** More about the oracle and [can_cast] *)

Module MtgExtra.
Import Mtg MtgSpec MtgFacts.

Lemma range_lookup (n : nat) (s : Z) :
  0 <= s < Z.of_nat n -> range n !! Z.to_nat s = Some s.
Proof.
  intros Hs. unfold range. rewrite list_lookup_fmap.
  rewrite lookup_seq_lt by lia. cbn. f_equal. lia.
Qed.

Lemma elem_of_range (n : nat) (s : Z) : In s (range n) <-> 0 <= s < Z.of_nat n.
Proof.
  unfold range. rewrite in_map_iff. split.
  - intros (i & <- & Hi). apply in_seq in Hi. lia.
  - intros Hs. exists (Z.to_nat s). split; [lia|]. apply in_seq. lia.
Qed.

(** X8. [lower_mobius_transform] returns the list of the 32 sums
    [g(s) = sum(f(t) for t subset of s)] of its docstring, where [f(t)] is
    [freq.get(t, 0)] and [t] ranges over the colour sets; keys of [freq]
    that are not colour sets are not read. *)
Theorem lower_mobius_transform_sums (freq : Counter) :
  exists res,
    lower_mobius_transform freq = Ok res
    /\ length res = 32%nat
    /\ forall s, 0 <= s < 32 ->
         getitem res s
         = Ok (fold_right Z.add 0
                 (map (get freq) (List.filter (fun t => Z.land t s =? t) (range 32)))).
Proof.
  exists (map (subset_sum (get freq)) (range (2 ^ len_COLORS))).
  split; [apply lower_mobius_transform_spec|]. split; [done|].
  intros s Hs. unfold getitem, py_index. rewrite length_map.
  change (Z.of_nat (length (range (2 ^ len_COLORS)))) with 32.
  destruct (Z.leb_spec 0 s); [|lia]. destruct (Z.ltb_spec s 32); [|lia].
  cbn [andb mbind result_bind]. rewrite list_lookup_fmap.
  rewrite (range_lookup (2 ^ len_COLORS) s) by (change (Z.of_nat (2 ^ len_COLORS)) with 32; lia).
  reflexivity.
Qed.

(** What the lands that can pay into [s] add up to. *)
Lemma hall_test_true (cost lands : Counter) (offset : Z) :
  hall_test cost lands offset = true <->
  forall s, 0 <= s < 32 ->
    subset_sum (get cost) s + offset
    <= subset_sum (get lands) ALL_COLORS_SET - blocked lands s.
Proof.
  unfold hall_test. rewrite forallb_forall. split.
  - intros H s Hs. apply Z.leb_le, H, elem_of_range. done.
  - intros H s Hs. apply Z.leb_le, H. by apply elem_of_range in Hs.
Qed.

(** X9. [can_cast_simple] never raises, and it returns yes exactly when
    Hall's condition holds for each of the 32 colour sets [s]: the pips
    whose colours lie within [s], plus [offset], are at most the lands in
    total less the lands whose colours avoid [s], where for [s] all five
    colours no land is taken off, the colourless ones included. *)
Theorem can_cast_simple_hall (cost lands : Counter) (offset : Z) :
  exists b,
    can_cast_simple cost lands offset = Ok b
    /\ (b = true <->
        forall s, 0 <= s < 32 ->
          subset_sum (get cost) s + offset
          <= subset_sum (get lands) 31
             - (if s =? 31 then 0 else subset_sum (get lands) (Z.lxor 31 s))).
Proof.
  exists (hall_test cost lands offset). split; [apply can_cast_simple_spec|].
  rewrite hall_test_true. unfold blocked. change ALL_COLORS_SET with 31.
  assert (E : forall s, (Z.lxor 31 s =? 0) = (s =? 31)).
  { intros s. destruct (Z.eqb_spec s 31) as [Hs|Hne]; [by subst|].
    apply Z.eqb_neq. intros X. apply Z.lxor_eq in X. lia. }
  split; intros H s Hs; specialize (H s Hs); by rewrite E in *.
Qed.

Lemma subset_sum_mono (f g : Z -> Z) (s : Z) :
  (forall t, f t <= g t) -> subset_sum f s <= subset_sum g s.
Proof.
  intros H. unfold subset_sum. induction (subsets_of s) as [|t l IH]; cbn; [lia|].
  specialize (H t). lia.
Qed.

Lemma supply_mono (lands lands' : Counter) (s : Z) :
  (forall t, get lands t <= get lands' t) ->
  subset_sum (get lands) ALL_COLORS_SET - blocked lands s
  <= subset_sum (get lands') ALL_COLORS_SET - blocked lands' s.
Proof.
  intros Hle.
  set (d := fun t : Z => get lands' t - get lands t).
  assert (Hd : forall t, 0 <= d t) by (intros t; unfold d; specialize (Hle t); lia).
  assert (E : forall u, subset_sum (get lands') u
                        = subset_sum (get lands) u + subset_sum d u).
  { intros u. rewrite <- subset_sum_plus. apply subset_sum_ext.
    intros t. unfold d. lia. }
  unfold blocked. rewrite !E.
  pose proof (subset_sum_nonneg _ ALL_COLORS_SET Hd).
  pose proof (subset_sum_le_all _ (Z.lxor ALL_COLORS_SET s) Hd).
  destruct (_ =? 0); lia.
Qed.

(** X10. [can_cast_simple] is monotone: when it says yes it still says yes
    with fewer pips of any colour set, more lands of any colour set and a
    smaller offset. *)
Theorem can_cast_simple_monotone (cost cost' lands lands' : Counter)
    (offset offset' : Z) :
  (forall t, get cost' t <= get cost t) ->
  (forall t, get lands t <= get lands' t) ->
  offset' <= offset ->
  can_cast_simple cost lands offset = Ok true ->
  can_cast_simple cost' lands' offset' = Ok true.
Proof.
  intros Hc Hl Ho. rewrite !can_cast_simple_spec. intros [= H]. f_equal.
  apply hall_test_true. intros s Hs.
  apply (proj1 (hall_test_true _ _ _) H) in Hs.
  pose proof (subset_sum_mono _ _ s Hc). pose proof (supply_mono lands lands' s Hl). lia.
Qed.

Lemma can_cast_simple_monotone_witness :
  can_cast_simple {[ 8 := 1 ]} {[ 8 := 2; 0 := 1 ]} (-1) = Ok true.
Proof.
  apply (can_cast_simple_monotone {[ 8 := 2 ]} {[ 8 := 1 ]} {[ 8 := 2 ]}
           {[ 8 := 2; 0 := 1 ]} 0 (-1)).
  - intros t. unfold get. destruct (decide (t = 8)) as [->|Hne].
    + rewrite !lookup_singleton_eq. simpl. lia.
    + rewrite !lookup_singleton_ne by done. simpl. lia.
  - intros t. unfold get. destruct (decide (t = 8)) as [->|Hne].
    + rewrite lookup_insert_eq, lookup_singleton_eq. simpl. lia.
    + rewrite lookup_insert_ne, lookup_singleton_ne by done.
      destruct (({[ 0 := 1 ]} : Counter) !! t) as [x|] eqn:E; simpl; [|lia].
      apply lookup_singleton_Some in E as [_ <-]. lia.
  - lia.
  - vm_compute. reflexivity.
Defined.

(** X11. When [can_cast_simple] says yes, the pips of the cost, plus
    [offset], are no more than the lands of the pool (pips and lands are
    counted over the 32 colour sets). *)
Theorem can_cast_simple_needs_lands (cost lands : Counter) (offset : Z) :
  can_cast_simple cost lands offset = Ok true ->
  fold_right Z.add 0 (map (get cost) (range 32)) + offset
  <= fold_right Z.add 0 (map (get lands) (range 32)).
Proof.
  rewrite can_cast_simple_spec. intros [= H].
  pose proof (proj1 (hall_test_true _ _ _) H 31 ltac:(lia)) as P.
  unfold blocked in P. change (Z.lxor ALL_COLORS_SET 31 =? 0) with true in P.
  cbv iota in P. unfold subset_sum in P.
  change (subsets_of 31) with (subsets_of ALL_COLORS_SET) in P.
  rewrite !subsets_of_all in P. change (2 ^ len_COLORS)%nat with 32%nat in P. lia.
Qed.

Lemma can_cast_simple_needs_lands_witness :
  fold_right Z.add 0 (map (get {[ 8 := 2 ]}) (range 32)) + 0
  <= fold_right Z.add 0 (map (get {[ 8 := 2; 0 := 1 ]}) (range 32)).
Proof.
  apply (can_cast_simple_needs_lands {[ 8 := 2 ]} {[ 8 := 2; 0 := 1 ]} 0).
  vm_compute. reflexivity.
Defined.


(** *** [can_cast] before the search *)

Lemma copy_cost_run (s : store) (spell : loc) (sp : Card) (c : Counter) (X : Z) :
  s !! spell = Some (OCard sp) -> cost_at s sp c ->
  copy_cost spell X s = (Ok (length s), s ++ [OCounter (expand_cost c X)]).
Proof.
  intros Hsp Hc. unfold copy_cost, expand_cost, cost_at in *. run_simpl.
  rewrite Hsp. cbv beta iota.
  assert (E : match cost sp with
              | Some c0 => counter_copy c0
              | None => alloc (OCounter ∅)
              end s = (Ok (length s), s ++ [OCounter c])).
  { destruct (cost sp) as [cl|].
    - unfold counter_copy, alloc. run_simpl. by rewrite Hc.
    - by subst c. }
  rewrite E. cbv beta iota. rewrite list_lookup_middle by done. cbv beta iota.
  destruct (get c 0 =? 0) eqn:E0; cbn [negb]; [reflexivity|].
  unfold counter_incr. run_simpl. rewrite list_lookup_middle by done. run_simpl.
  rewrite run_write by (cbn [length]; lia). rewrite Nat.sub_diag. cbn [insert list_insert].
  cbv beta iota. unfold counter_del. run_simpl.
  rewrite list_lookup_middle by done. run_simpl.
  assert (Hk : is_Some (incr c ALL_COLORS_SET (get c 0 * X) !! 0)).
  { unfold incr. rewrite lookup_insert_ne by done.
    unfold get in E0. destruct (c !! 0); [eauto|done]. }
  destruct Hk as [x Hx]. rewrite Hx.
  rewrite run_write by (cbn [length]; lia). rewrite Nat.sub_diag. reflexivity.
Qed.

Lemma bucket_land_pool (pre : store) (sl : Counter) (ol : list loc)
    (spell land_ref : loc) (sp land : Card) (plaza_count gate_colors : Z) :
  pre !! spell = Some (OCard sp) ->
  pre !! land_ref = Some (OCard land) ->
  bucket_land spell (length pre) (S (length pre)) (plaza_count, gate_colors) land_ref
              (pre ++ [OCounter sl; OList ol])
  = (Ok ((pool_step sp (plaza_count, gate_colors, sl) land).1),
     pre ++ [OCounter (pool_step sp (plaza_count, gate_colors, sl) land).2;
             OList (ol ++ if exotic sp land then [land_ref] else [])]).
Proof.
  intros Hsp Hland.
  unfold bucket_land, exotic, pool_step, is_planeswalker.
  unfold mbind at 1, M_bind at 1. rewrite (run_read_card _ _ _ _ Hland).
  cbv beta iota.
  destruct (land_type land) as [[]|];
    cbn [bool_decide decide_rel orb existsb SIMPLE_LAND_TYPES];
    try (vm_compute (bool_decide _)); cbn [orb andb negb].
  all: unfold mbind, M_bind; rewrite ?(run_read_card _ _ _ _ Hsp); cbv beta iota.
  all: repeat match goal with
       | |- context [str_in ?a ?b] => destruct (str_in a b)
       end; cbn [orb andb negb].
  all: rewrite ?run_counter_incr, ?run_list_append, ?app_nil_r;
       cbv beta iota delta [mret M_ret].
  all: reflexivity.
Qed.

Lemma bucket_walk_pool (pre : store) (spell : loc) (sp : Card) (items : list loc) :
  pre !! spell = Some (OCard sp) ->
  all_cards pre items ->
  forall (plaza_count gate_colors : Z) (sl : Counter) (ol : list loc),
    for_fold items (bucket_land spell (length pre) (S (length pre)))
             (plaza_count, gate_colors) (pre ++ [OCounter sl; OList ol])
    = (Ok ((foldl (pool_step sp) (plaza_count, gate_colors, sl)
                  (cards_at pre items).*2).1),
       pre ++ [OCounter (foldl (pool_step sp) (plaza_count, gate_colors, sl)
                               (cards_at pre items).*2).2;
               OList (ol ++ map fst (List.filter (fun rc => exotic sp rc.2)
                                                 (cards_at pre items)))]).
Proof.
  intros Hsp Hall. induction Hall as [|r items (land & Hland) _ IH];
    intros plaza_count gate_colors sl ol.
  - cbn. by rewrite app_nil_r.
  - cbn [for_fold]. unfold mbind, M_bind.
    rewrite (bucket_land_pool pre sl ol spell r sp land _ _ Hsp Hland).
    cbv beta iota.
    destruct (pool_step sp (plaza_count, gate_colors, sl) land) as [[p1 g1] sl1] eqn:E1.
    cbn [fst snd]. rewrite IH. unfold cards_at. cbn [omap list_omap].
    rewrite Hland. cbn [omap list_omap fmap list_fmap List.filter snd fst foldl].
    fold (cards_at pre items). rewrite E1.
    f_equal. f_equal. f_equal. f_equal. rewrite <- app_assoc. f_equal.
    destruct (exotic sp land); reflexivity.
Qed.

Lemma bucket_lands_pool (s : store) (spell lands : loc) (sp : Card)
    (items : list loc) :
  s !! spell = Some (OCard sp) ->
  s !! lands = Some (OList items) ->
  all_cards s items ->
  bucket_lands spell lands s
  = (Ok (length s, S (length s)),
     s ++ [OCounter (simple_pool sp (cards_at s items).*2);
           OList (map fst (List.filter (fun rc => exotic sp rc.2)
                                       (cards_at s items)))]).
Proof.
  intros Hsp Hlands Hall.
  pose proof (bucket_walk_pool s spell sp items Hsp Hall 0 0 ∅ []) as E.
  cbn [app] in E. unfold simple_pool.
  destruct (foldl (pool_step sp) (0, 0, ∅) (cards_at s items).*2)
    as [[plaza_count gate_colors] sl] eqn:Ef.
  cbn [fst snd] in E.
  unfold bucket_lands, alloc. run_simpl.
  rewrite <- app_assoc. cbn [app].
  rewrite (lookup_app_l_Some _ _ _ _ Hlands). run_simpl.
  rewrite length_app. cbn [length].
  replace (length s + 1)%nat with (S (length s)) by lia.
  rewrite E. cbv beta iota.
  destruct (Z.eqb_spec plaza_count 0) as [->|Hp]; cbn [negb].
  - run_simpl. reflexivity.
  - rewrite run_counter_incr. run_simpl. reflexivity.
Qed.

Lemma run_incr_fst (pre : store) (a b : Counter) (k n : Z) :
  counter_incr (length pre) k n (pre ++ [OCounter a; OCounter b])
  = (Ok tt, pre ++ [OCounter (incr a k n); OCounter b]).
Proof.
  unfold counter_incr. run_simpl.
  rewrite list_lookup_middle by done. run_simpl.
  rewrite run_write by (cbn [length]; lia).
  rewrite Nat.sub_diag. reflexivity.
Qed.

Lemma run_incr_snd (pre : store) (a b : Counter) (k n : Z) :
  counter_incr (S (length pre)) k n (pre ++ [OCounter a; OCounter b])
  = (Ok tt, pre ++ [OCounter a; OCounter (incr b k n)]).
Proof.
  unfold counter_incr. run_simpl.
  rewrite lookup_app_r by lia.
  replace (S (length pre) - length pre)%nat with 1%nat by lia. cbn [lookup list_lookup].
  run_simpl. rewrite run_write by (cbn [length]; lia).
  replace (S (length pre) - length pre)%nat with 1%nat by lia. reflexivity.
Qed.

Lemma optimistic_walk (pre : store) (others : list loc) :
  all_cards pre others ->
  forall oc ol : Counter,
  exists oc' ol',
    for_each others (optimistic_land (length pre) (S (length pre)))
             (pre ++ [OCounter oc; OCounter ol])
    = (if forallb (fun rc => supported rc.2) (cards_at pre others)
       then Ok tt else Raised (Exception "Unsupported land type"),
       pre ++ [OCounter oc'; OCounter ol']).
Proof.
  induction 1 as [|r others (land & Hland) _ IH]; intros oc ol.
  - exists oc, ol. reflexivity.
  - cbn [for_each]. unfold cards_at. cbn [omap list_omap]. rewrite Hland.
    cbn [omap list_omap forallb snd]. fold (cards_at pre others).
    unfold mbind at 1, M_bind at 1. unfold optimistic_land at 1.
    unfold mbind at 1, M_bind at 1. rewrite (run_read_card _ _ _ _ Hland).
    cbv beta iota. unfold supported at 1.
    destruct (land_type land) as [[]|];
      cbn [bool_decide decide_rel]; try (vm_compute (bool_decide _)); cbv beta iota.
    all: unfold mbind, M_bind; rewrite ?run_incr_fst, ?run_incr_snd; cbv beta iota.
    all: rewrite ?run_incr_fst, ?run_incr_snd; cbv beta iota.
    all: try (cbn [andb]; apply IH).
    all: cbn [andb]; unfold throw, lift; eauto.
Qed.

Lemma can_cast_start (fuel : nat) (s : store) (spell lands : loc) (sp : Card)
    (c : Counter) (items : list loc) (X : Z) :
  s !! spell = Some (OCard sp) -> cost_at s sp c ->
  s !! lands = Some (OList items) -> all_cards s items ->
  can_cast fuel spell lands X s
  = after_bucket fuel (length s) (S (length s)) (S (S (length s)))
                 (bucketed s sp c X items).
Proof.
  intros Hsp Hc Hlands Hall.
  change (can_cast fuel spell lands X)
    with (cost ← copy_cost spell X;
          '(simple_lands, other_lands) ← bucket_lands spell lands;
          after_bucket fuel cost simple_lands other_lands).
  unfold mbind, M_bind. rewrite (copy_cost_run s spell sp c X Hsp Hc).
  cbv beta iota.
  rewrite (bucket_lands_pool (s ++ [OCounter (expand_cost c X)]) spell lands sp items).
  - cbv beta iota. rewrite cards_at_app by done. rewrite length_app. cbn [length].
    replace (length s + 1)%nat with (S (length s)) by lia.
    unfold bucketed. by rewrite <- app_assoc.
  - by apply lookup_app_l_Some.
  - by apply lookup_app_l_Some.
  - by apply all_cards_app.
Qed.

Lemma bucketed_cost s sp c X items :
  bucketed s sp c X items !! length s = Some (OCounter (expand_cost c X)).
Proof. unfold bucketed. by rewrite list_lookup_middle. Qed.

Lemma bucketed_pool s sp c X items :
  bucketed s sp c X items !! S (length s)
  = Some (OCounter (simple_pool sp (cards_at s items).*2)).
Proof.
  unfold bucketed. rewrite lookup_app_r by lia.
  by replace (S (length s) - length s)%nat with 1%nat by lia.
Qed.

Lemma bucketed_others s sp c X items :
  bucketed s sp c X items !! S (S (length s))
  = Some (OList (map fst (List.filter (fun rc => exotic sp rc.2) (cards_at s items)))).
Proof.
  unfold bucketed. rewrite lookup_app_r by lia.
  by replace (S (S (length s)) - length s)%nat with 2%nat by lia.
Qed.

Lemma read_list_at (s : store) (l : loc) (items : list loc) :
  s !! l = Some (OList items) -> read_list l s = (Ok items, s).
Proof. intros H. unfold read_list. run_simpl. by rewrite H. Qed.

Lemma read_counter_at (s : store) (l : loc) (c : Counter) :
  s !! l = Some (OCounter c) -> read_counter l s = (Ok c, s).
Proof. intros H. unfold read_counter. run_simpl. by rewrite H. Qed.

Lemma read_card_at (s : store) (l : loc) (c : Card) :
  s !! l = Some (OCard c) -> read_card l s = (Ok c, s).
Proof. intros H. unfold read_card. run_simpl. by rewrite H. Qed.

Lemma run_can_cast_simple_at (s : store) (cost lands : loc) (c l : Counter) (offset : Z) :
  s !! cost = Some (OCounter c) -> s !! lands = Some (OCounter l) ->
  can_cast_simple_at cost lands offset s = (Ok (hall_test c l offset), s).
Proof.
  intros Hc Hl. unfold can_cast_simple_at. run_simpl. rewrite Hc. cbv beta iota.
  rewrite Hl. cbv beta iota. by rewrite can_cast_simple_spec.
Qed.

Lemma cards_at_filter (s : store) (items : list loc) (p : loc * Card -> bool) :
  cards_at s (map fst (List.filter p (cards_at s items))) = List.filter p (cards_at s items).
Proof.
  induction items as [|r items IH]; [done|].
  unfold cards_at at 2 3. cbn [omap list_omap]. fold (cards_at s items).
  destruct (s !! r) as [[| |card]|] eqn:Hr; try exact IH.
  cbn [List.filter]. destruct (p (r, card)); [|exact IH].
  cbn [map fst]. unfold cards_at at 1. cbn [omap list_omap]. rewrite Hr.
  fold (cards_at s (map fst (List.filter p (cards_at s items)))). by rewrite IH.
Qed.

Lemma all_cards_filter (s : store) (items : list loc) (p : loc * Card -> bool) :
  all_cards s (map fst (List.filter p (cards_at s items))).
Proof.
  apply Forall_forall. intros r Hr. apply list_elem_of_In, in_map_iff in Hr as ([r' card] & <- & Hin).
  apply filter_In in Hin as [Hin _]. apply list_elem_of_In, elem_of_cards_at in Hin as [_ Hc].
  eauto.
Qed.

Lemma filter_none {A} (p : A -> bool) (l : list A) :
  (forall x, x ∈ l -> p x = false) -> List.filter p l = [].
Proof.
  induction l as [|x l IH]; intros H; [done|]. cbn [List.filter].
  rewrite (H x) by by left. apply IH. intros y Hy. apply H. by right.
Qed.

Section CanCast.
Variable fuel : nat.
Variable s : store.
Variable spell lands : loc.
Variable sp : Card.
Variable c : Counter.
Variable items : list loc.
Variable X : Z.
Hypothesis Hsp : s !! spell = Some (OCard sp).
Hypothesis Hc : cost_at s sp c.
Hypothesis Hlands : s !! lands = Some (OList items).
Hypothesis Hall : all_cards s items.

Lemma can_cast_fast :
  hall_test (expand_cost c X) (simple_pool sp (cards_at s items).*2) 0 = true ->
  can_cast fuel spell lands X s = (Ok true, bucketed s sp c X items).
Proof.
  intros Ht.
  rewrite (can_cast_start fuel s spell lands sp c items X Hsp Hc Hlands Hall).
  unfold after_bucket. unfold mbind at 1, M_bind at 1.
  rewrite (run_can_cast_simple_at _ _ _ _ _ _ (bucketed_cost s sp c X items)
             (bucketed_pool s sp c X items)).
  rewrite Ht. reflexivity.
Qed.

Lemma can_cast_no_others :
  hall_test (expand_cost c X) (simple_pool sp (cards_at s items).*2) 0 = false ->
  (forall r land, (r, land) ∈ cards_at s items -> exotic sp land = false) ->
  can_cast fuel spell lands X s = (Ok false, bucketed s sp c X items).
Proof.
  intros Hf Hno.
  rewrite (can_cast_start fuel s spell lands sp c items X Hsp Hc Hlands Hall).
  unfold after_bucket. unfold mbind at 1, M_bind at 1.
  rewrite (run_can_cast_simple_at _ _ _ _ _ _ (bucketed_cost s sp c X items)
             (bucketed_pool s sp c X items)).
  rewrite Hf. cbv beta iota.
  unfold mbind, M_bind.
  rewrite (read_list_at _ _ _ (bucketed_others s sp c X items)).
  cbv beta iota.
  assert (E : List.filter (fun rc : loc * Card => exotic sp rc.2) (cards_at s items) = []).
  { apply filter_none. intros [r land] Hin. by apply (Hno r). }
  rewrite E. reflexivity.
Qed.

(** X12. When the pool of simple lands pays the cost, [can_cast] says yes
    whatever the other lands are; and when no land of the list needs the
    search (no Lotus Field, no filter land, no Beacon under a Planeswalker,
    no card that is not a land), [can_cast] is [can_cast_simple] on the cost
    with [X] expanded and the pool of simple lands: the search is not
    run. *)
Theorem can_cast_on_simple_lands :
  (can_cast_simple (expand_cost c X) (simple_pool sp (cards_at s items).*2) 0 = Ok true ->
   (can_cast fuel spell lands X s).1 = Ok true)
  /\ ((forall r land, (r, land) ∈ cards_at s items -> exotic sp land = false) ->
      (can_cast fuel spell lands X s).1
      = can_cast_simple (expand_cost c X) (simple_pool sp (cards_at s items).*2) 0).
Proof.
  rewrite can_cast_simple_spec. split.
  - intros [= Ht]. by rewrite can_cast_fast.
  - intros Hno.
    destruct (hall_test (expand_cost c X) (simple_pool sp (cards_at s items).*2) 0) eqn:E.
    + by rewrite can_cast_fast.
    + by rewrite can_cast_no_others.
Qed.

(** X13. When the pool of simple lands does not pay the cost and the list
    of lands holds a card that is not a land ([land_type] is [None]),
    [can_cast] raises [Exception("Unsupported land type")]. *)
Theorem can_cast_unsupported_land (r : loc) (card : Card) :
  can_cast_simple (expand_cost c X) (simple_pool sp (cards_at s items).*2) 0 = Ok false ->
  (r, card) ∈ cards_at s items -> land_type card = None ->
  (can_cast fuel spell lands X s).1 = Raised (Exception "Unsupported land type").
Proof.
  intros Hno Hin Hnone.
  rewrite (can_cast_start fuel s spell lands sp c items X Hsp Hc Hlands Hall).
  unfold after_bucket. unfold mbind at 1, M_bind at 1.
  rewrite (run_can_cast_simple_at _ _ _ _ _ _ (bucketed_cost s sp c X items)
             (bucketed_pool s sp c X items)).
  rewrite can_cast_simple_spec in Hno. injection Hno as ->. cbv beta iota.
  set (others := map fst (List.filter (fun rc : loc * Card => exotic sp rc.2) (cards_at s items))).
  assert (Hexo : (r, card) ∈ List.filter (fun rc : loc * Card => exotic sp rc.2) (cards_at s items)).
  { apply list_elem_of_In, filter_In. split; [by apply list_elem_of_In|].
    cbn. unfold exotic. by rewrite Hnone. }
  unfold mbind at 1, M_bind at 1.
  rewrite (read_list_at _ _ _ (bucketed_others s sp c X items)).
  cbv beta iota. fold others.
  destruct (bool_decide_reflect (others = [])) as [E|_].
  { exfalso. unfold others in E. apply list_elem_of_In in Hexo.
    apply (in_map fst) in Hexo. rewrite E in Hexo. destruct Hexo. }
  unfold mbind at 1, M_bind at 1. unfold optimistic_check.
  unfold counter_copy, alloc. run_simpl.
  rewrite (bucketed_cost s sp c X items). cbv beta iota.
  rewrite (lookup_app_l_Some _ _ _ _ (bucketed_pool s sp c X items)). cbv beta iota.
  rewrite <- app_assoc. cbn [app].
  rewrite (lookup_app_l_Some _ _ _ _ (bucketed_others s sp c X items)). cbv beta iota.
  rewrite length_app. cbn [length].
  replace (length (bucketed s sp c X items) + 1)%nat with (S (length (bucketed s sp c X items))) by lia.
  fold others.
  destruct (optimistic_walk (bucketed s sp c X items) others) with (oc := expand_cost c X)
    (ol := simple_pool sp (cards_at s items).*2) as (oc' & ol' & E).
  { apply all_cards_app. apply all_cards_filter. }
  rewrite E.
  assert (Hf : forallb (fun rc : loc * Card => supported rc.2)
                 (cards_at (bucketed s sp c X items) others) = false).
  { unfold bucketed at 1. rewrite cards_at_app by apply all_cards_filter.
    unfold others. rewrite cards_at_filter.
    apply not_true_is_false. intros Ht. rewrite forallb_forall in Ht.
    specialize (Ht (r, card) ltac:(by apply list_elem_of_In)).
    cbn in Ht. unfold supported in Ht. by rewrite Hnone in Ht. }
  rewrite Hf. reflexivity.
Qed.

End CanCast.

End MtgExtra.

(** ** The search of [can_cast] returns *)

Module MtgSearch.
Import Heap HeapSpec HeapFacts HeapExtra Mtg MtgSpec MtgSearchSpec MtgFacts MtgExtra.

Lemma tuple_lt_order : strict_weak_order tuple_lt.
Proof.
  split.
  - intros [[a1 a2] a3] [[b1 b2] b3]. unfold tuple_lt.
    destruct (Z.eqb_spec a1 b1), (Z.eqb_spec b1 a1), (Z.eqb_spec a2 b2), (Z.eqb_spec b2 a2);
      cbn [negb]; rewrite ?Z.ltb_lt, ?Z.ltb_ge; lia.
  - unfold le. intros [[a1 a2] a3] [[b1 b2] b3] [[c1 c2] c3]. unfold tuple_lt.
    destruct (Z.eqb_spec a1 b1), (Z.eqb_spec b1 a1), (Z.eqb_spec a2 b2), (Z.eqb_spec b2 a2),
      (Z.eqb_spec b1 c1), (Z.eqb_spec c1 b1), (Z.eqb_spec b2 c2), (Z.eqb_spec c2 b2),
      (Z.eqb_spec a1 c1), (Z.eqb_spec c1 a1), (Z.eqb_spec a2 c2), (Z.eqb_spec c2 a2);
      cbn [negb]; rewrite ?Z.ltb_lt, ?Z.ltb_ge; lia.
Qed.

Section Queue.
Variable n : Z.

Implicit Types (q : AdjustableHeap (Z * Z * Z) SearchState) (st : SearchState)
  (vis : gset ident).

Local Abbreviation good := (good huer_dist tuple_lt).

Lemma search_weight_pos (k : nat) : (0 < search_weight k)%nat.
Proof. destruct k; cbn; lia. Qed.

Lemma queue_weight_insert (m : gmap handle SearchState) (key : handle) st :
  m !! key = None ->
  map_fold (fun _ st acc => (state_weight n st + acc)%nat) 0%nat (<[key := st]> m)
  = (state_weight n st
     + map_fold (fun _ st acc => (state_weight n st + acc)%nat) 0%nat m)%nat.
Proof.
  intros H.
  rewrite (map_fold_insert_L (fun _ st acc => (state_weight n st + acc)%nat)); [done| |done].
  intros. lia.
Qed.

Lemma queue_weight_delete (m : gmap handle SearchState) (key : handle) st :
  m !! key = Some st ->
  map_fold (fun _ st acc => (state_weight n st + acc)%nat) 0%nat m
  = (state_weight n st
     + map_fold (fun _ st acc => (state_weight n st + acc)%nat) 0%nat (delete key m))%nat.
Proof.
  intros H. rewrite <- (insert_delete_id m key st H) at 1.
  apply queue_weight_insert, lookup_delete_eq.
Qed.

Lemma try_queue_spec vis q st :
  good q -> in_range n q -> 0 <= land_index st <= n ->
  exists vis' q',
    _try_queue (vis, q) st = Ok (vis', q')
    /\ good q' /\ in_range n q'
    /\ (queue_weight n q' <= queue_weight n q + state_weight n st)%nat.
Proof.
  intros G R Hst. unfold _try_queue. case_bool_decide.
  - exists vis, q. repeat (split; [done|]). lia.
  - destruct (push_view huer_dist tuple_lt tuple_lt_order q st G)
      as (q' & key & E & G' & Hnone & Hc).
    rewrite E. cbn [mbind result_bind]. eexists _, q'. split; [done|]. split; [done|].
    split.
    + intros h st'. rewrite Hc. intros Hl. apply lookup_insert_Some in Hl as [[_ <-]|[_ Hl]];
        [done | by apply (R h)].
    + unfold queue_weight. rewrite Hc, queue_weight_insert by done. lia.
Qed.

Lemma try_queue_all_spec (states : list SearchState) : forall vis q,
  good q -> in_range n q ->
  Forall (fun st => 0 <= land_index st <= n) states ->
  exists vis' q',
    _try_queue_all (vis, q) states = Ok (vis', q')
    /\ good q' /\ in_range n q'
    /\ (queue_weight n q'
        <= queue_weight n q + foldr (fun st acc => state_weight n st + acc) 0 states)%nat.
Proof.
  induction states as [|st states IH]; intros vis q G R Hs.
  - exists vis, q. repeat (split; [done|]). cbn. lia.
  - apply Forall_cons in Hs as [Hst Hs].
    destruct (try_queue_spec vis q st G R Hst) as (vis1 & q1 & E1 & G1 & R1 & W1).
    destruct (IH vis1 q1 G1 R1 Hs) as (vis' & q' & E' & G' & R' & W').
    exists vis', q'. cbn [_try_queue_all]. rewrite E1. cbn [mbind result_bind].
    repeat (split; [done|]). cbn [foldr]. lia.
Qed.

End Queue.
(** *** The test of a state *)

Lemma state_fold_run (pre : store) (items : list (Z * (Z * Z))) :
  forall (acc : Z * Z) (a b : Counter),
  exists acc' a' b',
    for_fold items
      (fun (acc : Z * Z) (item : Z * (Z * Z)) =>
         let '(col, (cnt, filter_cnt)) := item in
         counter_incr (length pre) (2 ^ col) (cnt + filter_cnt);;
         counter_incr (S (length pre)) (2 ^ col) filter_cnt;;
         mret (acc.1 + (cnt + filter_cnt), acc.2 + filter_cnt))
      acc (pre ++ [OCounter a; OCounter b])
    = (Ok acc', pre ++ [OCounter a'; OCounter b']).
Proof.
  induction items as [|[col [cnt filter_cnt]] items IH]; intros acc a b.
  - exists acc, a, b. reflexivity.
  - cbn [for_fold]. unfold mbind at 1, M_bind at 1.
    unfold mbind at 1, M_bind at 1. rewrite run_incr_fst. cbv beta iota.
    unfold mbind at 1, M_bind at 1. rewrite run_incr_snd. cbv beta iota.
    unfold mret at 1, M_ret at 1. apply IH.
Qed.

Lemma counter_copy_at (st : store) (l : loc) (c : Counter) :
  st !! l = Some (OCounter c) -> counter_copy l st = (Ok (length st), st ++ [OCounter c]).
Proof. intros H. unfold counter_copy, alloc. run_simpl. by rewrite H. Qed.

Lemma state_solves_ok (st : store) (cost simple_lands : loc) (c pool : Counter)
    (cnt : Z) (state : SearchState) :
  st !! cost = Some (OCounter c) -> st !! simple_lands = Some (OCounter pool) ->
  exists b suf, state_solves cost simple_lands cnt state st = (Ok b, st ++ suf).
Proof.
  intros Hc Hp. unfold state_solves.
  unfold mbind at 1, M_bind at 1. rewrite (counter_copy_at _ _ _ Hp). cbv beta iota.
  unfold mbind at 1, M_bind at 1. unfold alloc at 1. cbv beta iota.
  rewrite <- app_assoc. cbn [app]. rewrite length_app. cbn [length].
  replace (length st + 1)%nat with (S (length st)) by lia.
  unfold mbind at 1, M_bind at 1.
  destruct (state_fold_run st
              (imap (fun col cf => (Z.of_nat col, cf)) (zip (colors state) (filter_colors state)))
              (0, 0) pool ∅) as ([cm cfm] & a & b & E).
  rewrite E. cbv beta iota.
  unfold mbind at 1, M_bind at 1. rewrite run_incr_fst. cbv beta iota.
  unfold mbind at 1, M_bind at 1. rewrite run_incr_snd. cbv beta iota.
  set (a' := incr a 0 _). set (b' := incr b 0 _).
  assert (Hc' : (st ++ [OCounter a'; OCounter b']) !! cost = Some (OCounter c))
    by by apply lookup_app_l_Some.
  assert (Ha : (st ++ [OCounter a'; OCounter b']) !! length st = Some (OCounter a'))
    by by rewrite list_lookup_middle.
  assert (Hb : (st ++ [OCounter a'; OCounter b']) !! S (length st) = Some (OCounter b')).
  { rewrite lookup_app_r by lia. by replace (S (length st) - length st)%nat with 1%nat by lia. }
  unfold mbind at 1, M_bind at 1.
  rewrite (run_can_cast_simple_at _ _ _ _ _ _ Hc' Ha). cbv beta iota.
  destruct (hall_test c a' 0).
  - rewrite (run_can_cast_simple_at _ _ _ _ _ _ Hc' Hb). eauto.
  - eauto.
Qed.

(** *** The loop *)

Lemma adjacent_next (mc : list Z) (tc : Z) (land : Card) (state : SearchState) :
  Forall (fun st' => land_index st' = land_index state + 1) (adjacent mc tc land state)
  /\ (length (adjacent mc tc land state) <= 11)%nat.
Proof.
  unfold adjacent. change (range len_COLORS) with [0; 1; 2; 3; 4].
  cbn [flat_map map].
  change (range (Z.to_nat 0)) with (@nil Z). change (range (Z.to_nat 1)) with [0].
  change (range (Z.to_nat 2)) with [0; 1]. change (range (Z.to_nat 3)) with [0; 1; 2].
  change (range (Z.to_nat 4)) with [0; 1; 2; 3]. cbn [map app].
  destruct (bool_decide (land_type land = Some BEACON));
    [|destruct (bool_decide (land_type land = Some LOTUS));
      [|destruct (bool_decide (land_type land = Some FILTERING))]].
  all: split; [repeat constructor | cbn [length]; lia].
Qed.

Lemma weights_of_next (n : Z) (li : Z) (states : list SearchState) :
  Forall (fun st' => land_index st' = li + 1) states ->
  foldr (fun st acc => state_weight n st + acc)%nat 0%nat states
  = (length states * search_weight (Z.to_nat (n - (li + 1))))%nat.
Proof.
  induction 1 as [|st states Hst _ IH]; [done|].
  cbn [foldr length]. rewrite IH. unfold state_weight. rewrite Hst. lia.
Qed.

Section Loop.
Variable mc : list Z.
Variable tc : Z.
Variable cost simple_lands other_lands : loc.
Variable c pool : Counter.
Variable sorted : list loc.
Variable cnt : Z.

Local Abbreviation search_store := (search_store cost simple_lands other_lands c pool sorted).

Lemma search_store_app (st suf : store) : search_store st -> search_store (st ++ suf).
Proof.
  intros (H1 & H2 & H3 & H4). split; [|split; [|split]].
  1-3: by apply lookup_app_l_Some. by apply all_cards_app.
Qed.

Lemma search_returns (fuel : nat) :
  forall (vis : gset ident) (q : AdjustableHeap (Z * Z * Z) SearchState) (st : store),
  search_store st ->
  good huer_dist tuple_lt q -> in_range (Z.of_nat (length sorted)) q ->
  (queue_weight (Z.of_nat (length sorted)) q < fuel)%nat ->
  exists b st',
    search mc tc fuel cost simple_lands other_lands cnt (vis, q) st = (Ok b, st').
Proof.
  set (n := Z.of_nat (length sorted)).
  induction fuel as [|fuel IH]; intros vis q st Hst G R Hw; [lia|].
  cbn [search]. unfold nonempty.
  destruct (Nat.eqb_spec (len q) 0) as [Hlen|Hlen]; cbn [negb]; [by eexists _, _|].
  destruct (pop_view huer_dist tuple_lt tuple_lt_order q G ltac:(unfold len in Hlen; lia))
    as (q' & top & state & E & G' & Htop & _ & Hc).
  unfold mbind at 1, M_bind at 1. unfold lift at 1. rewrite E. cbv beta iota.
  destruct Hst as (H1 & H2 & H3 & H4).
  destruct (state_solves_ok st cost simple_lands c pool cnt state H1 H2) as (b & suf & Es).
  unfold mbind at 1, M_bind at 1. rewrite Es. cbv beta iota.
  destruct b; [by eexists _, _|].
  assert (Hst1 : search_store (st ++ suf)) by (by apply search_store_app).
  destruct (Hst1) as (H1' & H2' & H3' & H4').
  unfold mbind at 1, M_bind at 1. rewrite (read_list_at _ _ _ H3'). cbv beta iota.
  pose proof (R top state Htop) as Hli.
  assert (R' : in_range n q').
  { intros h st'. rewrite Hc. intros Hl. apply lookup_delete_Some in Hl as [_ Hl].
    by apply (R h). }
  assert (Wq : queue_weight n q = (state_weight n state + queue_weight n q')%nat).
  { unfold queue_weight. rewrite Hc. by apply queue_weight_delete. }
  destruct (Z.eqb_spec (land_index state) (Z.of_nat (length sorted))) as [Heq|Hneq].
  - apply IH; try done. pose proof (search_weight_pos (Z.to_nat (n - land_index state))).
    unfold state_weight in Wq. fold n in Hw. lia.
  - fold n in Hneq, Hli.
    assert (Hget : exists land_ref, getitem sorted (land_index state) = Ok land_ref
                                    /\ land_ref ∈ sorted).
    { unfold getitem, py_index. destruct (Z.leb_spec 0 (land_index state)); [|lia].
      destruct (Z.ltb_spec (land_index state) (Z.of_nat (length sorted))); [|unfold n in *; lia].
      cbn [andb mbind result_bind].
      destruct (lookup_lt_is_Some_2 sorted (Z.to_nat (land_index state))) as [r Hr]; [lia|].
      rewrite Hr. exists r. split; [done|]. by eapply list_elem_of_lookup_2. }
    destruct Hget as (land_ref & Eg & Hin).
    unfold mbind at 1, M_bind at 1. unfold lift at 1. rewrite Eg. cbv beta iota.
    destruct (proj1 (Forall_forall _ _) H4' land_ref Hin) as (land & Hland).
    unfold mbind at 1, M_bind at 1. rewrite (read_card_at _ _ _ Hland). cbv beta iota.
    destruct (adjacent_next mc tc land state) as [Hnext Hlen11].
    destruct (try_queue_all_spec n (adjacent mc tc land state) vis q' G' R')
      as (vis' & q'' & Et & G'' & R'' & W'').
    { eapply Forall_impl; [exact Hnext|]. intros st' ->. lia. }
    unfold mbind at 1, M_bind at 1. unfold lift at 1. rewrite Et. cbv beta iota.
    apply IH; try done.
    rewrite (weights_of_next n (land_index state) _ Hnext) in W''.
    fold n in Hw. rewrite Wq in Hw. unfold state_weight in Hw.
    replace (Z.to_nat (n - land_index state))
      with (S (Z.to_nat (n - (land_index state + 1)))) in Hw by lia.
    cbn [search_weight] in Hw. nia.
Qed.

End Loop.

(** *** Sorting the other lands *)

Lemma insert_by_name_perm (x : string * loc) (xs : list (string * loc)) :
  insert_by_name x xs ≡ₚ x :: xs.
Proof.
  induction xs as [|y xs IH]; [done|]. cbn [insert_by_name].
  destruct (String.ltb x.1 y.1); [done|]. rewrite IH. apply perm_swap.
Qed.

Lemma sort_by_name_perm (xs : list (string * loc)) : sort_by_name xs ≡ₚ xs.
Proof.
  unfold sort_by_name.
  assert (G : forall acc, foldl (fun sorted x => insert_by_name x sorted) acc xs ≡ₚ acc ++ xs).
  { induction xs as [|x xs IH]; intros acc; [by rewrite app_nil_r|].
    cbn [foldl]. rewrite IH, insert_by_name_perm. apply Permutation_middle. }
  apply G.
Qed.

Lemma cards_at_refs (st : store) (items : list loc) :
  all_cards st items -> map fst (cards_at st items) = items.
Proof.
  induction 1 as [|r items (card & Hr) _ IH]; [done|].
  unfold cards_at. cbn [base.omap list_omap]. rewrite Hr. cbn [base.omap list_omap map fst].
  fold (cards_at st items). by rewrite IH.
Qed.

Lemma sorted_refs_perm (st : store) (items : list loc) :
  all_cards st items -> sorted_refs st items ≡ₚ items.
Proof.
  intros Hall. unfold sorted_refs. rewrite sort_by_name_perm, map_map. cbn [snd].
  change (map (fun x : loc * Card => x.1) (cards_at st items))
    with (map fst (cards_at st items)).
  by rewrite cards_at_refs.
Qed.

Lemma sort_fold_run (st : store) (items : list loc) :
  all_cards st items ->
  forall acc : list (string * loc),
    for_fold items
      (fun (acc : list (string * loc)) (r : loc) =>
         c ← read_card r; mret (acc ++ [(name c, r)])) acc st
    = (Ok (acc ++ map (fun rc : loc * Card => (name rc.2, rc.1)) (cards_at st items)), st).
Proof.
  induction 1 as [|r items (card & Hr) _ IH]; intros acc.
  - cbn. by rewrite app_nil_r.
  - cbn [for_fold]. unfold mbind at 1, M_bind at 1.
    unfold mbind at 1, M_bind at 1. rewrite (read_card_at _ _ _ Hr). cbv beta iota.
    unfold mret at 1, M_ret at 1. rewrite IH.
    unfold cards_at. cbn [base.omap list_omap]. rewrite Hr. cbn [base.omap list_omap map].
    by rewrite <- app_assoc.
Qed.

Lemma sort_lands_run (st : store) (other_lands : loc) (items : list loc) :
  st !! other_lands = Some (OList items) -> all_cards st items ->
  sort_lands other_lands st
  = (Ok tt, <[other_lands := OList (sorted_refs st items)]> st).
Proof.
  intros Hl Hall. unfold sort_lands.
  unfold mbind at 1, M_bind at 1. rewrite (read_list_at _ _ _ Hl). cbv beta iota.
  unfold mbind at 1, M_bind at 1. rewrite (sort_fold_run st items Hall). cbv beta iota.
  unfold write. destruct (Nat.ltb_spec other_lands (length st)) as [|Hge]; [done|].
  apply lookup_ge_None_2 in Hge. congruence.
Qed.

(** *** [can_cast] returns *)

Lemma search_weight_mono (a b : nat) : (a <= b)%nat -> (search_weight a <= search_weight b)%nat.
Proof. induction 1; [done|]. cbn [search_weight]. lia. Qed.

Lemma optimistic_check_run (B : store) (cost simple_lands other_lands : loc)
    (c pool : Counter) (others : list loc) :
  B !! cost = Some (OCounter c) -> B !! simple_lands = Some (OCounter pool) ->
  B !! other_lands = Some (OList others) -> all_cards B others ->
  exists oc ol,
    optimistic_check cost simple_lands other_lands B
    = (if forallb (fun rc : loc * Card => supported rc.2) (cards_at B others)
       then Ok (hall_test oc ol 0) else Raised (Exception "Unsupported land type"),
       B ++ [OCounter oc; OCounter ol]).
Proof.
  intros Hc Hp Ho Hall. unfold optimistic_check.
  unfold mbind at 1, M_bind at 1. rewrite (counter_copy_at _ _ _ Hc). cbv beta iota.
  unfold mbind at 1, M_bind at 1.
  rewrite (counter_copy_at _ _ _ (lookup_app_l_Some _ _ _ _ Hp)). cbv beta iota.
  rewrite <- app_assoc. cbn [app]. rewrite length_app. cbn [length].
  replace (length B + 1)%nat with (S (length B)) by lia.
  unfold mbind at 1, M_bind at 1.
  rewrite (read_list_at _ _ _ (lookup_app_l_Some _ _ _ _ Ho)). cbv beta iota.
  destruct (optimistic_walk B others Hall c pool) as (oc & ol & E).
  unfold mbind at 1, M_bind at 1. rewrite E.
  exists oc, ol. destruct (forallb _ _); [|reflexivity].
  cbv beta iota. apply run_can_cast_simple_at.
  - by rewrite list_lookup_middle.
  - rewrite lookup_app_r by lia. by replace (S (length B) - length B)%nat with 1%nat by lia.
Qed.

Lemma forallb_false {A} (f : A -> bool) (l : list A) :
  forallb f l = false -> exists x, In x l /\ f x = false.
Proof.
  induction l as [|x l IH]; [done|]. cbn [forallb].
  destruct (f x) eqn:E.
  - intros H. destruct (IH H) as (y & Hy & Hf). exists y. split; [by right|done].
  - intros _. exists x. split; [by left|done].
Qed.

Section Returns.
Variable fuel : nat.
Variable s : store.
Variable spell lands : loc.
Variable sp : Card.
Variable c : Counter.
Variable items : list loc.
Variable X : Z.
Hypothesis Hsp : s !! spell = Some (OCard sp).
Hypothesis Hc : cost_at s sp c.
Hypothesis Hlands : s !! lands = Some (OList items).
Hypothesis Hall : all_cards s items.
Hypothesis Hfuel : (search_weight (length items) < fuel)%nat.

Lemma can_cast_outcome (P : result bool -> Prop) :
  (forall b, P (Ok b)) ->
  ((exists r card, (r, card) ∈ cards_at s items /\ land_type card = None) ->
   P (Raised (Exception "Unsupported land type"))) ->
  P (can_cast fuel spell lands X s).1.
Proof.
  intros HOk HRaised.
  set (others := map fst (List.filter (fun rc : loc * Card => exotic sp rc.2) (cards_at s items))).
  destruct (hall_test (expand_cost c X) (simple_pool sp (cards_at s items).*2) 0) eqn:Eh.
  { rewrite (can_cast_fast fuel s spell lands sp c items X Hsp Hc Hlands Hall Eh).
    apply HOk. }
  rewrite (can_cast_start fuel s spell lands sp c items X Hsp Hc Hlands Hall).
  unfold after_bucket. unfold mbind at 1, M_bind at 1.
  rewrite (run_can_cast_simple_at _ _ _ _ _ _ (bucketed_cost s sp c X items)
             (bucketed_pool s sp c X items)).
  rewrite Eh. cbv beta iota.
  unfold mbind at 1, M_bind at 1.
  rewrite (read_list_at _ _ _ (bucketed_others s sp c X items)). cbv beta iota.
  fold others. case_bool_decide as Hnil; [apply HOk|].
  assert (HallB : all_cards (bucketed s sp c X items) others).
  { unfold bucketed. apply all_cards_app, all_cards_filter. }
  assert (HcardsB : cards_at (bucketed s sp c X items) others
                    = List.filter (fun rc : loc * Card => exotic sp rc.2) (cards_at s items)).
  { unfold bucketed. rewrite cards_at_app by apply all_cards_filter.
    apply cards_at_filter. }
  destruct (optimistic_check_run (bucketed s sp c X items) (length s) (S (length s)) (S (S (length s)))
              _ _ others (bucketed_cost s sp c X items) (bucketed_pool s sp c X items)
              (bucketed_others s sp c X items) HallB) as (oc & ol & Eo).
  unfold mbind at 1, M_bind at 1. rewrite Eo. rewrite HcardsB.
  destruct (forallb (fun rc : loc * Card => supported rc.2)
              (List.filter (fun rc : loc * Card => exotic sp rc.2) (cards_at s items))) eqn:Ef.
  2: { apply HRaised.
       apply forallb_false in Ef as ([r card] & Hin & Hn).
       apply filter_In in Hin as [Hin Hex].
       exists r, card. split; [by apply list_elem_of_In|].
       cbn in Hn, Hex. unfold supported in Hn. unfold exotic in Hex.
       destruct (land_type card) as [[]|]; done. }
  cbv beta iota. destruct (hall_test oc ol 0); cbn [negb]; [|apply HOk].
  set (B2 := (bucketed s sp c X items) ++ [OCounter oc; OCounter ol]).
  assert (H1 : B2 !! length s = Some (OCounter (expand_cost c X)))
    by apply lookup_app_l_Some, bucketed_cost.
  assert (H2 : B2 !! S (length s) = Some (OCounter (simple_pool sp (cards_at s items).*2)))
    by apply lookup_app_l_Some, bucketed_pool.
  assert (H3 : B2 !! S (S (length s)) = Some (OList others))
    by apply lookup_app_l_Some, bucketed_others.
  assert (H4 : all_cards B2 others) by by apply all_cards_app.
  unfold mbind at 1, M_bind at 1. rewrite (read_counter_at _ _ _ H1). cbv beta iota.
  unfold mbind at 1, M_bind at 1. rewrite (read_counter_at _ _ _ H2). cbv beta iota.
  unfold mbind at 1, M_bind at 1. rewrite (sort_lands_run _ _ _ H3 H4). cbv beta iota.
  set (sorted := sorted_refs B2 others).
  set (B3 := <[S (S (length s)) := OList sorted]> B2).
  pose proof (sorted_refs_perm B2 others H4) as Hperm. fold sorted in Hperm.
  assert (Hlen : (length sorted <= length items)%nat).
  { rewrite Hperm. unfold others. rewrite length_map.
    etrans; [apply filter_length_le|]. unfold cards_at.
    clear. induction items as [|r l IH]; [done|]. cbn [base.omap list_omap].
    destruct (s !! r) as [[]|]; cbn [length]; lia. }
  assert (Hstore : search_store (length s) (S (length s)) (S (S (length s)))
                     (expand_cost c X) (simple_pool sp (cards_at s items).*2) sorted B3).
  { unfold B3. split; [|split; [|split]].
    - by rewrite list_lookup_insert_ne by lia.
    - by rewrite list_lookup_insert_ne by lia.
    - apply list_lookup_insert_eq. by eapply lookup_lt_Some.
    - apply Forall_forall. intros r Hr. rewrite Hperm in Hr.
      destruct (proj1 (Forall_forall _ _) H4 r Hr) as (card & Hcard).
      exists card. rewrite list_lookup_insert_ne; [done|]. intros <-. congruence. }
  set (mc := map (max_color (expand_cost c X)) (range len_COLORS)).
  set (tc := sum (map snd (map_to_list (expand_cost c X)))).
  destruct (try_queue_spec (Z.of_nat (length sorted)) ∅ Heap.empty
              (SearchState_init mc tc None None 0 0 0 0))
    as (vis & q & Eq & G & R & W).
  { apply good_empty. }
  { intros h st Hh. cbv [contents Heap.empty heap foldr] in Hh.
    by rewrite lookup_empty in Hh. }
  { cbn. lia. }
  unfold mbind at 1, M_bind at 1. unfold lift at 1. rewrite Eq. cbv beta iota.
  destruct (search_returns mc tc (length s) (S (length s)) (S (S (length s)))
              (expand_cost c X) (simple_pool sp (cards_at s items).*2) sorted
              (sum (map snd (map_to_list (simple_pool sp (cards_at s items).*2))))
              fuel vis q B3 Hstore G R) as (b & st' & Es).
  { assert (E0 : queue_weight (Z.of_nat (length sorted))
                   (Heap.empty : AdjustableHeap (Z * Z * Z) SearchState) = 0%nat) by done.
    rewrite E0 in W. unfold state_weight in W. cbn [land_index SearchState_init] in W.
    rewrite Z.sub_0_r, Nat2Z.id in W.
    pose proof (search_weight_mono _ _ Hlen). lia. }
  rewrite Es. apply HOk.
Qed.


(** X14. [can_cast] returns: on a store where the spell is a card, its
    cost a counter and the lands a list of cards, the search ends within
    [search_weight] rounds of its loop, and the call returns yes or no,
    or raises [Exception("Unsupported land type")] for a list with a card
    that is not a land. *)
Theorem can_cast_returns :
  (exists b, (can_cast fuel spell lands X s).1 = Ok b)
  \/ ((can_cast fuel spell lands X s).1 = Raised (Exception "Unsupported land type")
      /\ exists r card, (r, card) ∈ cards_at s items /\ land_type card = None).
Proof.
  apply (can_cast_outcome
           (fun r => (exists b, r = Ok b)
                     \/ (r = Raised (Exception "Unsupported land type")
                         /\ exists r card, (r, card) ∈ cards_at s items
                                            /\ land_type card = None))).
  - intros b. left. by exists b.
  - intros H. by right.
Qed.

End Returns.

Lemma bear_store_cards : all_cards bear_store [2%nat].
Proof. repeat constructor. eexists. reflexivity. Qed.

Lemma can_cast_returns_witness :
  (exists b, (can_cast 13 1%nat 3%nat 0 bear_store).1 = Ok b)
  \/ ((can_cast 13 1%nat 3%nat 0 bear_store).1 = Raised (Exception "Unsupported land type")
      /\ exists r card, (r, card) ∈ cards_at bear_store [2%nat] /\ land_type card = None).
Proof.
  apply (can_cast_returns 13 bear_store 1%nat 3%nat
           (mkCard "Grizzly Bears" ["Creature"] ["Bear"] (Some 0%nat) None 16)
           (list_to_map [(16,1); (31,1)]) [2%nat] 0).
  - reflexivity.
  - reflexivity.
  - reflexivity.
  - exact bear_store_cards.
  - simpl. lia.
Defined.

Lemma can_cast_on_simple_lands_witness :
  (can_cast_simple (expand_cost (list_to_map [(16,1); (31,1)]) 0)
     (simple_pool (mkCard "Grizzly Bears" ["Creature"] ["Bear"] (Some 0%nat) None 16)
                  (cards_at bear_store [2%nat]).*2) 0 = Ok true ->
   (can_cast 0 1%nat 3%nat 0 bear_store).1 = Ok true)
  /\ ((forall r land, (r, land) ∈ cards_at bear_store [2%nat] ->
        exotic (mkCard "Grizzly Bears" ["Creature"] ["Bear"] (Some 0%nat) None 16) land
        = false) ->
      (can_cast 0 1%nat 3%nat 0 bear_store).1
      = can_cast_simple (expand_cost (list_to_map [(16,1); (31,1)]) 0)
          (simple_pool (mkCard "Grizzly Bears" ["Creature"] ["Bear"] (Some 0%nat) None 16)
                       (cards_at bear_store [2%nat]).*2) 0).
Proof.
  apply (can_cast_on_simple_lands 0 bear_store 1%nat 3%nat
           (mkCard "Grizzly Bears" ["Creature"] ["Bear"] (Some 0%nat) None 16)
           (list_to_map [(16,1); (31,1)]) [2%nat] 0).
  - reflexivity.
  - reflexivity.
  - reflexivity.
  - exact bear_store_cards.
Defined.

Lemma can_cast_unsupported_land_witness :
  (can_cast 0 1%nat 2%nat 0 shock_store).1 = Raised (Exception "Unsupported land type").
Proof.
  apply (can_cast_unsupported_land 0 shock_store 1%nat 2%nat
           (mkCard "Shock" ["Instant"] [] (Some 0%nat) None 8) {[ 8 := 1 ]} [1%nat] 0
           eq_refl eq_refl eq_refl
           ltac:(repeat constructor; eexists; reflexivity)
           1%nat (mkCard "Shock" ["Instant"] [] (Some 0%nat) None 8)).
  - vm_compute. reflexivity.
  - vm_compute. left.
  - reflexivity.
Defined.

End MtgSearch.
